(** * google-api-typings-generator: the declaration writer, the type
      translator, the resource walker, the stub-value generator, the test
      writer and the revision gate of [src/app.ts], embedded in Rocq.

    Conventions of the embedding.

    - A JavaScript string is the list of its UTF-16 code units
      ([jsstring]); [js "..."] turns an ASCII literal into one.  Lengths are
      counted in code units, as [String.prototype.length] does.
    - The two writer objects ([IndentedTextWriter], [TypescriptTextWriter])
      and the [App] instance are mutable; their fields live in one [World]
      that every operation threads.  An operation either completes
      normally or throws, and in both cases leaves a world behind: the
      mutations made before a [throw] stay observable.
    - Objects used as dictionaries whose iteration order reaches the output
      ([properties], [parameters], [methods], [resources]) are association
      lists in iteration order; the schema registry, which is only ever
      indexed, is a [gmap] of its own entries; the [Set] of schema names
      is a [gset].
    - [typesMap] and the schema registry are plain objects, so indexing
      them by a name they do not hold answers the member of that name of
      [Object.prototype], when it has one ([inherited], [typesMapValue],
      [lookupSchema]).  The fields of a schema, a method or a resource are
      read under names [Object.prototype] does not have.
    - Optional fields are [option]s; a JavaScript truthiness test on a
      string field is [truthy] (absent and empty are both falsy).  A
      discovery document is taken to hold no [null] member: an absent field
      reads as [undefined], and of the two failures of [checkExists] only
      the one for [undefined] is reached from a document. *)

From Stdlib Require Import ZArith QArith List String Ascii Bool Lia.
From stdpp Require Import base option list gmap sets.

Local Open Scope Z_scope.

(** ** JavaScript strings *)

Abbreviation jsstring := (list N).

Definition js (s : string) : jsstring :=
  List.map N_of_ascii (list_ascii_of_string s).
Arguments js s%_string.

Definition strlen (s : jsstring) : Z := Z.of_nat (length s).

(** [Array(n + 1).join(s)]: [n] copies of [s]; a negative array length is a
    [RangeError], reported here as [None]. *)
Fixpoint repeatString (s : jsstring) (n : nat) : jsstring :=
  match n with
  | O => []
  | S k => s ++ repeatString s k
  end.

Definition arrayJoin (len : Z) (s : jsstring) : option jsstring :=
  if len <? 0 then None else Some (repeatString s (Z.to_nat (len - 1))).

Definition streq (a b : jsstring) : bool := bool_decide (a = b).

(** [s.includes(c)] for a one-character needle. *)
Definition includesChar (c : N) (s : jsstring) : bool :=
  existsb (N.eqb c) s.

(** [s.startsWith(p)]. *)
Fixpoint startsWith (p s : jsstring) : bool :=
  match p, s with
  | [], _ => true
  | _ :: _, [] => false
  | a :: p', b :: s' => N.eqb a b && startsWith p' s'
  end.

(** [s.split(sep)] for a one-character separator: never empty. *)
Definition consHead (c : N) (parts : list jsstring) : list jsstring :=
  match parts with
  | [] => [[c]]
  | p :: ps => (c :: p) :: ps
  end.

Fixpoint splitChar (sep : N) (s : jsstring) : list jsstring :=
  match s with
  | [] => [[]]
  | c :: tl => if N.eqb c sep then [] :: splitChar sep tl
               else consHead c (splitChar sep tl)
  end.

(** [s.split(/\r?\n/g)]. *)
Fixpoint splitLines (s : jsstring) : list jsstring :=
  match s with
  | [] => [[]]
  | c :: tl =>
      if N.eqb c 10 then [] :: splitLines tl
      else match tl with
           | d :: rest =>
               if N.eqb c 13 && N.eqb d 10 then [] :: splitLines rest
               else consHead c (splitLines tl)
           | [] => [[c]]
           end
  end.

(** White space and line terminators, as [String.prototype.trim] sees them. *)
Definition isWhiteSpace (c : N) : bool :=
  existsb (N.eqb c)
    [9; 10; 11; 12; 13; 32; 160; 5760; 8232; 8233; 8239; 8287; 12288; 65279]%N
  || (N.leb 8192 c && N.leb c 8202).

Fixpoint trimStart (s : jsstring) : jsstring :=
  match s with
  | c :: tl => if isWhiteSpace c then trimStart tl else s
  | [] => []
  end.

Definition trimEnd (s : jsstring) : jsstring := rev (trimStart (rev s)).

Definition trim (s : jsstring) : jsstring := trimEnd (trimStart s).

(** [a.join(sep)]. *)
Fixpoint join (sep : jsstring) (parts : list jsstring) : jsstring :=
  match parts with
  | [] => []
  | [p] => p
  | p :: ps => p ++ sep ++ join sep ps
  end.

(** Truthiness of an optional string field. *)
Definition truthy (o : option jsstring) : bool :=
  match o with
  | Some (_ :: _) => true
  | _ => false
  end.

(** Code-unit order, the default order of [Array.prototype.sort]. *)
Fixpoint strleb (a b : jsstring) : bool :=
  match a, b with
  | [], _ => true
  | _ :: _, [] => false
  | x :: a', y :: b' => N.ltb x y || (N.eqb x y && strleb a' b')
  end.

Fixpoint insertSorted (x : jsstring) (l : list jsstring) : list jsstring :=
  match l with
  | [] => [x]
  | y :: ys => if strleb x y then x :: l else y :: insertSorted x ys
  end.

Definition sortStrings (l : list jsstring) : list jsstring :=
  fold_right insertSorted [] l.

(** [_.uniq]: first occurrences, in order. *)
Fixpoint uniq (l : list jsstring) : list jsstring :=
  match l with
  | [] => []
  | x :: xs => x :: List.filter (fun y => negb (streq x y)) (uniq xs)
  end.

(** ** The world: output stream, indent depth, expansion set *)

Inductive exn : Type :=
| Error (message : jsstring)
| TypeError
| RangeError.

Record World : Type := mkWorld {
  output : jsstring;
  indent : Z;
  seenSchemaRefs : gset jsstring
}.

Definition setOutput (o : jsstring) (w : World) : World :=
  mkWorld o (indent w) (seenSchemaRefs w).
Definition setIndent (i : Z) (w : World) : World :=
  mkWorld (output w) i (seenSchemaRefs w).
Definition setSeen (s : gset jsstring) (w : World) : World :=
  mkWorld (output w) (indent w) s.

(** How a call ends.  [Unfinished] is not a JavaScript outcome: it marks a
    run of the stub-value generator that was cut off by its step bound. *)
Inductive Completion (A : Type) : Type :=
| Normal (a : A) (w : World)
| Throw (e : exn) (w : World)
| Unfinished.
Arguments Normal {A} a w.
Arguments Throw {A} e w.
Arguments Unfinished {A}.

Definition Action (A : Type) : Type := World -> Completion A.

Definition ret {A} (a : A) : Action A := fun w => Normal a w.
Definition throw {A} (e : exn) : Action A := fun w => Throw e w.
Definition bind {A B} (m : Action A) (k : A -> Action B) : Action B :=
  fun w => match m w with
           | Normal a w' => k a w'
           | Throw e w' => Throw e w'
           | Unfinished => Unfinished
           end.

#[global] Instance Action_ret : MRet Action := @ret.
#[global] Instance Action_bind : MBind Action :=
  fun A B k m => bind m k.

Definition when (b : bool) (m : Action unit) : Action unit :=
  if b then m else ret tt.

(** [xs.forEach(f)] for an effectful [f]. *)
Fixpoint forEach {A} (f : A -> Action unit) (xs : list A) : Action unit :=
  match xs with
  | [] => ret tt
  | x :: rest => f x;; forEach f rest
  end.

(** The state left behind, however the call ended. *)
Definition finalWorld {A} (c : Completion A) : option World :=
  match c with
  | Normal _ w => Some w
  | Throw _ w => Some w
  | Unfinished => None
  end.

(** A pure computation that may throw. *)
Inductive Result (A : Type) : Type :=
| Ok (a : A)
| Raise (e : exn).
Arguments Ok {A} a.
Arguments Raise {A} e.

#[global] Instance Result_ret : MRet Result := @Ok.
#[global] Instance Result_bind : MBind Result :=
  fun A B k r => match r with Ok a => k a | Raise e => Raise e end.

Definition lift {A} (r : Result A) : Action A :=
  match r with
  | Ok a => ret a
  | Raise e => throw e
  end.

(** A value that may be [undefined] or [null]. *)
Inductive Nullable (A : Type) : Type :=
| Undefined
| Null
| Defined (a : A).
Arguments Undefined {A}.
Arguments Null {A}.
Arguments Defined {A} a.

(** Modelled from the spec: [checkExists] of [utils.js], which is not part
    of the sources at hand; its tests ([test/utils.spec.ts]) fix it: the
    value is returned when present, an [Error] is thrown on [null] and
    another on [undefined]. *)
Definition checkExists {A} (v : Nullable A) : Result A :=
  match v with
  | Defined a => Ok a
  | Null => Raise (Error (js "Expected non-null reference, but got null"))
  | Undefined =>
      Raise (Error (js "Expected value to be defined, but got undefined"))
  end.

(** A field of a document, read: the documents are taken without [null]
    members, so that a field is [undefined] or holds a value. *)
Definition fieldValue {A} (o : option A) : Nullable A :=
  match o with
  | Some a => Defined a
  | None => Undefined
  end.

(** ** IndentedTextWriter *)

Definition newLine : jsstring := [10%N].
Definition tabString : jsstring := js "    ".

(** The text of some lines, each closed by a line feed. *)
Definition unlines (lines : list jsstring) : jsstring :=
  concat (List.map (fun line => line ++ newLine) lines).

(** Modelled from the spec: [TextWriter.write] of [writer.js] appends raw
    text to the stream. *)
Definition write (chunk : jsstring) : Action unit :=
  fun w => Normal tt (setOutput (output w ++ chunk) w).

Definition indentation : Action jsstring :=
  fun w => match arrayJoin (indent w + 1) tabString with
           | Some s => Normal s w
           | None => Throw RangeError w
           end.

Definition startIndentedLine (chunk : jsstring) : Action unit :=
  pre ← indentation; write (pre ++ chunk).

Definition endIndentedLine (chunk : jsstring) : Action unit :=
  pre ← indentation; write (chunk ++ pre).

Definition writeLine (chunk : jsstring) : Action unit :=
  startIndentedLine (chunk ++ newLine).

Definition writeNewLine (chunk : jsstring) : Action unit :=
  endIndentedLine (chunk ++ newLine).

(** [this.writer.indent++] and [this.writer.indent--]. *)
Definition indentIncr : Action unit :=
  fun w => Normal tt (setIndent (indent w + 1) w).
Definition indentDecr : Action unit :=
  fun w => Normal tt (setIndent (indent w - 1) w).

(** ** The discovery document *)

#[local] Unset Elimination Schemes.

(** [JsonSchema]: the fields the translator reads.  [ref] is [$ref]. *)
Inductive JsonSchema : Type := mkJsonSchema {
  type : option jsstring;
  ref : option jsstring;
  items : option JsonSchema;
  properties : option (list (jsstring * JsonSchema));
  additionalProperties : option JsonSchema;
  repeated : bool;
  required : bool;
  description : option jsstring
}.

(** The [request] and [response] objects of a method: [{$ref?: string}]. *)
Record SchemaRef : Type := mkSchemaRef { target : option jsstring }.

Record RestMethod : Type := mkRestMethod {
  id : option jsstring;
  methodDescription : option jsstring;
  parameters : option (list (jsstring * JsonSchema));
  request : option SchemaRef;
  response : option SchemaRef
}.

Inductive RestResource : Type := mkRestResource {
  methods : option (list (jsstring * RestMethod));
  resources : option (list (jsstring * RestResource))
}.

#[local] Set Elimination Schemes.

Record RestDescription : Type := mkRestDescription {
  schemas : option (gmap jsstring JsonSchema)
}.

Definition typeIs (t : JsonSchema) (name : string) : bool :=
  bool_decide (type t = Some (js name)).

(** [typesMap]. *)
Definition typesMap : list (jsstring * jsstring) :=
  [ (js "integer", js "number");
    (js "object", js "any");
    (js "any", js "any");
    (js "string", js "string") ].

Fixpoint assoc {V} (key : jsstring) (l : list (jsstring * V)) : option V :=
  match l with
  | [] => None
  | (k, v) :: rest => if streq k key then Some v else assoc key rest
  end.

Definition jsdocCommentStart : jsstring := js "/**".
Definition jsdocCommentEnd : jsstring := js "*/".

(** [irregularSpaces], each a one-character pattern. *)
Definition irregularSpaces : list N :=
  [ 11; 12; 160; 133; 5760; 6158; 65279; 8192; 8193; 8194; 8195; 8196;
    8197; 8198; 8199; 8200; 8201; 8202; 8203; 8232; 8233; 8239; 8287;
    12288 ]%N.

Definition doubleQuote : jsstring := [34%N].

Definition formatPropertyName (name : jsstring) : jsstring :=
  if includesChar 46 name || includesChar 45 name || includesChar 64 name
  then doubleQuote ++ name ++ doubleQuote
  else name.

Definition formatComment (comment : jsstring) : jsstring :=
  match comment with
  | [] => []
  | _ => comment
  end.

(** [_.last(path.split('.'))], [undefined] on a falsy path. *)
Definition getName (path : option jsstring) : option jsstring :=
  if truthy path then
    match path with
    | Some p => last (splitChar 46 p)
    | None => None
    end
  else None.

(** [getType] returns either a type token or a callback that writes a
    nested type through the writer; for a kind that names a member
    [typesMap] inherits it returns that member, which may be neither a
    string nor a function. *)
Inductive TypeRendering : Type :=
| Flat (token : jsstring)
| Nested (callback : Action unit)
| Neither.

(** An element of the [parameters] array of [TypescriptTextWriter.method]. *)
Record MethodParameter : Type := mkMethodParameter {
  parameter : jsstring;
  parameterType : TypeRendering;
  parameterRequired : bool
}.

(** ** What plain objects inherit *)

(** [typesMap] and the schema registry are plain objects.  Indexed by a
    name they do not hold themselves, they answer the member of that name
    of [Object.prototype], if it has one: one of eleven built-in functions
    or, under [__proto__], the prototype object. *)
Inductive Inherited : Type :=
| BuiltinFunction (name : jsstring)
| PrototypeObject.

(** The members of [Object.prototype]; a built-in function is given by its
    own name. *)
Definition objectPrototype : list (jsstring * Inherited) :=
  [ (js "constructor", BuiltinFunction (js "Object"));
    (js "__defineGetter__", BuiltinFunction (js "__defineGetter__"));
    (js "__defineSetter__", BuiltinFunction (js "__defineSetter__"));
    (js "hasOwnProperty", BuiltinFunction (js "hasOwnProperty"));
    (js "__lookupGetter__", BuiltinFunction (js "__lookupGetter__"));
    (js "__lookupSetter__", BuiltinFunction (js "__lookupSetter__"));
    (js "isPrototypeOf", BuiltinFunction (js "isPrototypeOf"));
    (js "propertyIsEnumerable", BuiltinFunction (js "propertyIsEnumerable"));
    (js "toString", BuiltinFunction (js "toString"));
    (js "valueOf", BuiltinFunction (js "valueOf"));
    (js "__proto__", PrototypeObject);
    (js "toLocaleString", BuiltinFunction (js "toLocaleString")) ].

Definition inherited (key : jsstring) : option Inherited :=
  assoc key objectPrototype.

(** [`${member}`]: a built-in function as V8 prints it, the prototype
    object as [Object.prototype.toString] does. *)
Definition memberText (member : Inherited) : jsstring :=
  match member with
  | BuiltinFunction name => js "function " ++ name ++ js "() { [native code] }"
  | PrototypeObject => js "[object Object]"
  end.

(** A built-in function called as a callback, [f(writer)], without a
    receiver.  [Object] returns its argument and [toString] answers for
    [undefined]; the other nine convert the receiver to an object first
    and throw a [TypeError].  None of them touches the writer. *)
Definition callBuiltin (name : jsstring) : Result unit :=
  if streq name (js "Object") || streq name (js "toString")
  then Ok tt
  else Raise TypeError.

(** An inherited member as a value of [getType]: a function is taken for a
    callback, the prototype object is neither a string nor a function. *)
Definition memberRendering (member : Inherited) : TypeRendering :=
  match member with
  | BuiltinFunction name => Nested (lift (callBuiltin name))
  | PrototypeObject => Neither
  end.

(** [typesMap[kind] || kind]: a token of the table, a member the table
    inherits, or the kind itself. *)
Inductive TypesMapValue : Type :=
| Token (token : jsstring)
| Member (member : Inherited).

Definition typesMapValue (kind : jsstring) : TypesMapValue :=
  match assoc kind typesMap with
  | Some token => Token token
  | None =>
      match inherited kind with
      | Some member => Member member
      | None => Token kind
      end
  end.

Definition valueText (value : TypesMapValue) : jsstring :=
  match value with
  | Token token => token
  | Member member => memberText member
  end.

Definition valueRendering (value : TypesMapValue) : TypeRendering :=
  match value with
  | Token token => Flat token
  | Member member => memberRendering member
  end.

(** An inherited member read as a schema: it has none of the fields the
    translator and the stub-value generator read from a schema. *)
Definition memberAsSchema : JsonSchema :=
  mkJsonSchema None None None None None false false None.

(** [schemas[name]]: the entry of the registry, or else the member of that
    name the registry inherits, or else [undefined]. *)
Definition lookupSchema (registry : gmap jsstring JsonSchema)
    (name : jsstring) : option JsonSchema :=
  match registry !! name with
  | Some schema => Some schema
  | None =>
      match inherited name with
      | Some _ => Some memberAsSchema
      | None => None
      end
  end.

(** ** Escaping and wrapping of documentation comments *)

(** [text.replace(/\*\//g, `*${zwj}/`)]. *)
Fixpoint replaceCommentEnd (zwj : jsstring) (s : jsstring) : jsstring :=
  match s with
  | [] => []
  | c :: tl =>
      match tl with
      | d :: rest =>
          if N.eqb c 42 && N.eqb d 47
          then [42%N] ++ zwj ++ [47%N] ++ replaceCommentEnd zwj rest
          else c :: replaceCommentEnd zwj tl
      | [] => [c]
      end
  end.

(** [text.replace(/@(class|this|type(?:def)?|property)/g, `@${zwj}$1`)]:
    the joiner goes after every [@] that starts one of the tags; the tags
    hold no [@], so scanning on right after the [@] finds the same
    matches as scanning on after the tag. *)
Definition jsdocTags : list jsstring :=
  [js "class"; js "this"; js "type"; js "property"].

Fixpoint escapeJsdocTags (zwj : jsstring) (s : jsstring) : jsstring :=
  match s with
  | [] => []
  | c :: tl =>
      if N.eqb c 64 && existsb (fun tag => startsWith tag tl) jsdocTags
      then [64%N] ++ zwj ++ escapeJsdocTags zwj tl
      else c :: escapeJsdocTags zwj tl
  end.

(** One round of the word loop: [(lines, newLine)] before and after [word]. *)
Definition wrapStep (budget : Z) (st : list jsstring * jsstring)
    (word : jsstring) : list jsstring * jsstring :=
  let '(lines, current) := st in
  if strlen current + strlen (js " ") + strlen word >? budget
  then (lines ++ [current], word)
  else if streq current [] then (lines, word)
  else (lines, current ++ js " " ++ word).

Definition wrapLine (budget : Z) (line : jsstring) : list jsstring :=
  if strlen line >? budget then
    let '(lines, current) :=
      fold_left (wrapStep budget) (splitChar 32 line) ([], []) in
    lines ++ [current]
  else [line].

(** [line.replace(irregularSpace, ' ')] for a one-character global pattern. *)
Definition replaceChar (from : N) (s : jsstring) : jsstring :=
  List.map (fun c => if N.eqb c from then 32%N else c) s.

Definition commentLines (budget : Z) (text : jsstring) : list jsstring :=
  let lines := concat (List.map (wrapLine budget) (splitLines (trim text))) in
  let lines := List.map trim lines in
  fold_left (fun ls irregularSpace => List.map (replaceChar irregularSpace) ls)
    irregularSpaces lines.

(** [Math.max(...xs)]; [None] is [-Infinity]. *)
Definition mathMax (xs : list Z) : option Z :=
  fold_right (fun x acc => match acc with
                           | None => Some x
                           | Some y => Some (Z.max x y)
                           end) None xs.

Definition exceeds (m : option Z) (bound : Z) : bool :=
  match m with
  | Some x => x >? bound
  | None => false
  end.

Definition disableMaxLineLength : jsstring :=
  js "// tslint:disable:max-line-length".
Definition enableMaxLineLength : jsstring :=
  js "// tslint:enable:max-line-length".

(** ** The revision gate of [processService] *)

(** A JavaScript number: a finite value, an infinity or [NaN]. *)
Inductive JsNumber : Type :=
| Finite (value : Q)
| PlusInfinity
| MinusInfinity
| NaN.

(** Truthiness of a number: zero and [NaN] are falsy. *)
Definition numberTruthy (x : JsNumber) : bool :=
  match x with
  | Finite value => negb (Qeq_bool value 0)
  | NaN => false
  | PlusInfinity | MinusInfinity => true
  end.

(** [a > b] on numbers; a comparison with [NaN] is false. *)
Definition greaterThan (a b : JsNumber) : bool :=
  match a, b with
  | NaN, _ | _, NaN => false
  | _, PlusInfinity => false
  | PlusInfinity, _ => true
  | MinusInfinity, _ => false
  | Finite _, MinusInfinity => true
  | Finite x, Finite y => negb (Qle_bool x y)
  end.

(** The ways out of the block
    [if (newRevisionsOnly && fs.existsSync(indexDTSPath)) {...}]: the two
    early returns of [processService], and going on to generate. *)
Inductive RevisionVerdict : Type :=
| NoRevision
| LocalIsNewer
| Regenerate.

(** The block itself.  [toNumber] is [Number] on strings; [indexExists] is
    what [fs.existsSync] answers and [previous] what [getRevision] reads
    from the file, [None] for [undefined].  The messages on the console
    are left out. *)
Definition revisionGate (toNumber : jsstring -> JsNumber)
    (newRevisionsOnly indexExists : bool) (revision : option jsstring)
    (previous : option JsNumber) : RevisionVerdict :=
  if newRevisionsOnly && indexExists then
    if negb (truthy revision) then NoRevision
    else
      let existingRevision :=
        match previous with
        | Some x => if numberTruthy x then x else PlusInfinity
        | None => PlusInfinity
        end in
      let newRevision := toNumber (default [] revision) in
      if greaterThan existingRevision newRevision then LocalIsNewer
      else Regenerate
  else Regenerate.


(** ** A configuration and documents to run the translator on *)

(** Modelled from the spec: [zeroWidthJoinerCharacter] of [constants.js],
    which is not part of the sources at hand; the zero-width joiner is
    U+200D. *)
Definition sampleJoiner : jsstring := [8205%N].

Definition isUpperCase (c : N) : bool := N.leb 65 c && N.leb c 90.
Definition isLowerCase (c : N) : bool := N.leb 97 c && N.leb c 122.
Definition isDigit (c : N) : bool := N.leb 48 c && N.leb c 57.

(** Modelled from the spec: [hasPrefixI] of [tslint.js], not part of the
    sources at hand: the name starts with a capital I followed by another
    capital. *)
Definition sampleHasPrefixI (name : jsstring) : bool :=
  match name with
  | 73%N :: c :: _ => isUpperCase c
  | _ => false
  end.

Definition upperFirst (s : jsstring) : jsstring :=
  match s with
  | c :: tl => (if isLowerCase c then (c - 32)%N else c) :: tl
  | [] => []
  end.

(** Modelled from the spec: [getResourceTypeName] of [utils.js], not part
    of the sources at hand; a deterministic transform of the name, shown
    by its tests: [marketplace-private-auction] becomes
    [MarketplacePrivateAuctionResource]. *)
Definition sampleResourceTypeName (name : jsstring) : jsstring :=
  concat (List.map upperFirst (splitChar 45 name)) ++ js "Resource".

Fixpoint insertEntry {V} (entry : jsstring * V) (l : list (jsstring * V))
    : list (jsstring * V) :=
  match l with
  | [] => [entry]
  | e :: rest => if strleb (fst entry) (fst e) then entry :: l
                 else e :: insertEntry entry rest
  end.

(** A stand-in for the package [deep-sort-object], for the sample runs
    only: the entries of one dictionary in the order of their keys by code
    unit.  The package compares keys with [localeCompare] and also sorts
    the dictionaries inside the values; the sample runs sort dictionaries
    of one key whose values hold no dictionary, where it makes no
    difference.  No theorem about the code rests on it: the code is
    verified for every [sortObject]. *)
Definition sampleSortObject (l : list (jsstring * JsonSchema))
    : list (jsstring * JsonSchema) :=
  fold_right insertEntry [] l.

Definition isWordChar (c : option N) : bool :=
  match c with
  | Some c => isUpperCase c || isLowerCase c || isDigit c || N.eqb c 95
  | None => false
  end.

(** A match of [\bword\b] at the head of [s], [prev] being the character
    before it. *)
Definition wordAt (word : jsstring) (prev : option N) (s : jsstring) : bool :=
  startsWith word s
  && negb (eqb (isWordChar prev) (isWordChar (head s)))
  && negb (eqb (isWordChar (last (option_list prev ++ word)))
               (isWordChar (head (drop (length word) s)))).

Fixpoint wordFrom (word : jsstring) (prev : option N) (s : jsstring) : bool :=
  wordAt word prev s
  || match s with
     | c :: tl => wordFrom word (Some c) tl
     | [] => false
     end.

(** A regular-expression search for a banned type as a whole word. *)
Definition sampleMatchesWord (bannedType subject : jsstring) : bool :=
  wordFrom bannedType None subject.

Definition sampleMaxLineLength : Z := 200.
Definition sampleBannedTypes : list jsstring := [js "Object"; js "Function"].

Definition emptyWorld : World := mkWorld [] 0 ∅.

Definition schemaOfKind (kind : string) : JsonSchema :=
  mkJsonSchema (Some (js kind)) None None None None false false None.

Definition referenceTo (name : string) : JsonSchema :=
  mkJsonSchema None (Some (js name)) None None None false false None.

Definition arrayOf (itemsSchema : JsonSchema) : JsonSchema :=
  mkJsonSchema (Some (js "array")) None (Some itemsSchema) None None
    false false None.

Definition objectOf (props : list (jsstring * JsonSchema)) : JsonSchema :=
  mkJsonSchema (Some (js "object")) None None (Some props) None
    false false None.

Definition requiredString : JsonSchema :=
  mkJsonSchema (Some (js "string")) None None None None false true None.

(** A registry with a body type, a schema without members, and a schema
    with a property of a kind the stub-value generator does not know. *)
Definition sampleRegistry : gmap jsstring JsonSchema :=
  <[js "Body" := objectOf [(js "a", schemaOfKind "string")]]>
    (<[js "Empty" := objectOf []]>
       (<[js "Event" := objectOf [(js "when", schemaOfKind "date")]]> ∅)).

Definition sampleApi : RestDescription := mkRestDescription (Some sampleRegistry).

(** The method [ns.res.get] of the specification, with a request body
    [Body] and a response that refers to a schema the registry lacks. *)
Definition sampleMethod : RestMethod :=
  mkRestMethod (Some (js "ns.res.get")) None
    (Some [(js "a", requiredString)])
    (Some (mkSchemaRef (Some (js "Body"))))
    (Some (mkSchemaRef (Some (js "Missing")))).

(** A resource without methods and without nested resources. *)
Definition bareResource : RestResource := mkRestResource None None.

(** The resource [res] with the sample method as its only method. *)
Definition sampleResource : RestResource :=
  mkRestResource (Some [(js "get", sampleMethod)]) None.

(** A comment with a link too long for a line of thirty columns. *)
Definition sampleCommentText : jsstring :=
  js "see https://developers.google.com/identity/protocols/oauth2 first".
Definition sampleLongWord : jsstring :=
  js "https://developers.google.com/identity/protocols/oauth2".

(** Six words of four letters with tabs between them, and a text whose
    first word ends in the end-of-comment sequence. *)
Definition sampleTabbedText : jsstring :=
  js "aaaa" ++ [9%N] ++ js "bbbb" ++ [9%N] ++ js "cccc" ++ [9%N]
  ++ js "dddd" ++ [9%N] ++ js "eeee" ++ [9%N] ++ js "ffff".
Definition sampleClosingText : jsstring := js "aaaaaaaaaaaaaaaaaaaaa*/ bbb".

(** A document whose only schema refers to itself. *)
Definition cyclicApi : RestDescription :=
  mkRestDescription
    (Some (<[js "Node" := objectOf [(js "next", referenceTo "Node")]]> ∅)).

(** A resource whose only method is of another namespace, with the sample
    resource nested in it. *)
Definition foreignMethod : RestMethod :=
  mkRestMethod (Some (js "other.res.list")) None None None None.

Definition foreignParent : RestResource :=
  mkRestResource (Some [(js "list", foreignMethod)])
    (Some [(js "res", sampleResource)]).


(** A stand-in for [Number] on the revisions of the samples only: a
    string of decimal digits is read exactly (where [Number] rounds to a
    double, which changes nothing below 2^53), anything else is [NaN]
    (where [Number] also reads signs, fractions, exponents, other radixes
    and white space).  No theorem about the code rests on it: the code is
    verified for every reading of the revision. *)
Fixpoint decimal (acc : Z) (s : jsstring) : option Z :=
  match s with
  | [] => Some acc
  | c :: tl =>
      if N.leb 48 c && N.leb c 57
      then decimal (10 * acc + (Z.of_N c - 48)) tl
      else None
  end.

Definition sampleToNumber (s : jsstring) : JsNumber :=
  match decimal 0 s with
  | Some value => Finite (inject_Z value)
  | None => NaN
  end.


(** Membership in a list of literals, and its negation. *)
Ltac in_literals :=
  vm_compute; repeat (first [left; reflexivity | right]).
Ltac not_in_literals :=
  let H := fresh "H" in
  intros H; vm_compute in H;
  repeat (destruct H as [H | H]; [discriminate H |]); exact H.

Section Translator.

Set Default Proof Using "Type".

(** What the translator takes from modules outside [app.ts], and its
    configuration. *)
Variable zeroWidthJoinerCharacter : jsstring.            (* constants.js *)
Variable hasPrefixI : jsstring -> bool.                  (* tslint.js *)
Variable getResourceTypeName : jsstring -> jsstring.     (* utils.js *)
Variable sortObject :                                    (* deep-sort-object *)
  list (jsstring * JsonSchema) -> list (jsstring * JsonSchema).
(** [subject.match(new RegExp(`\\b${bannedType}\\b`))] is not null. *)
Variable matchesWord : jsstring -> jsstring -> bool.
Variable maxLineLength : Z.                              (* Configuration *)
Variable bannedTypes : list jsstring.                    (* Configuration *)

(** ** TypescriptTextWriter *)

Definition ignoreBannedType : jsstring :=
  js "// tslint:disable-next-line:ban-types".

Definition braces (text : jsstring) (context : Action unit) : Action unit :=
  writeLine (text ++ js " {");;
  indentIncr;;
  context;;
  indentDecr;;
  writeLine (js "}").

Definition includesBannedType (ty : jsstring) : bool :=
  existsb (fun bannedType => matchesWord bannedType ty) bannedTypes.

Definition referenceTypes (ty : jsstring) : Action unit :=
  writeLine (js "/// <reference types=" ++ doubleQuote ++ ty ++ doubleQuote
             ++ js " />").

Definition namespace (name : jsstring) (context : Action unit) : Action unit :=
  braces (js "namespace " ++ name) context.

Definition declareNamespace (name : jsstring) (context : Action unit)
    : Action unit :=
  writeLine [];;
  braces (js "declare namespace " ++ name) context.

Definition interface (name : jsstring) (context : Action unit)
    (emptyInterface : bool) : Action unit :=
  let ignoreRules :=
    (if hasPrefixI name then [js "interface-name"] else [])
    ++ (if emptyInterface then [js "no-empty-interface"] else []) in
  when (0 <? Z.of_nat (length ignoreRules))
    (writeLine (js "// tslint:disable-next-line:" ++ join (js " ") ignoreRules));;
  braces (js "interface " ++ name) context.

Definition endLine (chunk : jsstring) : Action unit :=
  write chunk;;
  write newLine.

Definition anonymousType (context : Action unit) : Action unit :=
  endLine (js "{");;
  indentIncr;;
  context;;
  indentDecr;;
  startIndentedLine (js "}").

(** [TypescriptTextWriter.newLine]. *)
Definition tsNewLine (chunk : jsstring) : Action unit :=
  startIndentedLine chunk.

Definition scope (context : Action unit) (startTag endTag : jsstring)
    : Action unit :=
  write startTag;;
  write newLine;;
  indentIncr;;
  context;;
  indentDecr;;
  startIndentedLine endTag.

Definition property (name : jsstring) (ty : TypeRendering) (req : bool)
    : Action unit :=
  match ty with
  | Nested callback =>
      startIndentedLine
        (formatPropertyName name ++ (if req then [] else js "?") ++ js ": ");;
      callback;;
      endLine (js ";")
  | Flat token =>
      when (includesBannedType token) (writeLine ignoreBannedType);;
      writeLine (formatPropertyName name ++ (if req then [] else js "?")
                 ++ js ": " ++ token ++ js ";")
  | Neither => ret tt
  end.

Definition getIndent : Action Z := fun w => Normal (indent w) w.

Definition commentBudget (depth : Z) : Z :=
  maxLineLength - depth * strlen tabString
  - strlen (jsdocCommentStart ++ js "  " ++ jsdocCommentEnd).

Definition escapeComment (text : jsstring) : jsstring :=
  escapeJsdocTags zeroWidthJoinerCharacter
    (replaceCommentEnd zeroWidthJoinerCharacter text).

Definition commentLine (line : jsstring) : Action unit :=
  match line with
  | [] => writeLine (js " *")
  | _ => writeLine (js " * " ++ line)
  end.

(** The block itself: one line, or several between the delimiters. *)
Definition commentBlock (lines : list jsstring) : Action unit :=
  match lines with
  | [line] =>
      writeLine (jsdocCommentStart ++ js " " ++ line ++ js " "
                 ++ jsdocCommentEnd)
  | _ :: _ :: _ =>
      writeLine jsdocCommentStart;;
      forEach commentLine lines;;
      writeLine (js " " ++ jsdocCommentEnd)
  | [] => ret tt
  end.

Definition comment (text : jsstring) : Action unit :=
  if streq text [] || streq (trim text) [] then ret tt
  else
    let text := escapeComment text in
    depth ← getIndent;
    let budget := commentBudget depth in
    let lines := commentLines budget text in
    let tooLong := exceeds (mathMax (List.map strlen lines)) budget in
    when tooLong (writeLine disableMaxLineLength);;
    commentBlock lines;;
    when tooLong (writeLine enableMaxLineLength).

(** [TypescriptTextWriter.write]: a string is written, a callback is run,
    anything else is passed over. *)
Definition tsWrite (chunk : TypeRendering) : Action unit :=
  match chunk with
  | Flat s => write s
  | Nested callback => callback
  | Neither => ret tt
  end.

Fixpoint forEachIndexed {A} (f : A -> nat -> Action unit) (index : nat)
    (xs : list A) : Action unit :=
  match xs with
  | [] => ret tt
  | x :: rest => f x index;; forEachIndexed f (S index) rest
  end.

Definition method (name : jsstring) (params : list MethodParameter)
    (returnType : jsstring) (singleLine : bool) : Action unit :=
  let ignoreBannedReturnType := includesBannedType returnType in
  when (singleLine && ignoreBannedReturnType) (writeLine ignoreBannedType);;
  startIndentedLine (name ++ js "(");;
  forEachIndexed (fun p index =>
    when (match parameterType p with
          | Flat token => includesBannedType token
          | Nested _ | Neither => false
          end) (writeNewLine ignoreBannedType);;
    write (parameter p ++ (if parameterRequired p then [] else js "?")
           ++ js ": ");;
    tsWrite (parameterType p);;
    when (Z.of_nat index + 1 <? Z.of_nat (length params))
      (write (js ",");;
       if singleLine then write (js " ") else writeNewLine []))
    O params;;
  when (negb singleLine && ignoreBannedReturnType)
    (writeNewLine [];; writeNewLine ignoreBannedType);;
  write (js "): " ++ returnType ++ js ";");;
  endLine [].

(** ** The type translator *)

Definition isEmpty {A} (o : option (list A)) : bool :=
  match o with
  | Some (_ :: _) => false
  | _ => true
  end.

(** [isEmptySchema]; reading a field of [undefined] is a [TypeError]. *)
Definition isEmptySchema (schema : option JsonSchema) : Result bool :=
  match schema with
  | None => Raise TypeError
  | Some s =>
      Ok (isEmpty (properties s)
          && match additionalProperties s with Some _ => false | None => true end)
  end.

(** [getType].  A call returns a string or a function, or, for the kind
    [__proto__], an object that is neither, or throws.  The nested calls
    on the property types are made by the callback, when it runs.  In the
    array branch the match on [items] is [checkExists (fieldValue (items t))]
    written out, so that the recursive call is on a part of [t]. *)
Fixpoint getType (t : JsonSchema) (registry : gmap jsstring JsonSchema)
    {struct t} : Result TypeRendering :=
  if typeIs t "array" then
    match items t with
    | None => Raise (Error (js "Expected value to be defined, but got undefined"))
    | Some itemsSchema =>
        match getType itemsSchema registry with
        | Raise e => Raise e
        | Ok (Flat child) => Ok (Flat (child ++ js "[]"))
        | Ok (Nested child) =>
            Ok (Nested (write (js "Array<");; child;; write (js ">")))
        | Ok Neither => Ok (Flat (js "[]"))
        end
    end
  else if typeIs t "object" && bool_decide (is_Some (properties t)) then
    Ok (Nested (anonymousType (
      match properties t with
      | Some props =>
          (fix each (props : list (jsstring * JsonSchema)) : Action unit :=
             match props with
             | [] => ret tt
             | entry :: rest =>
                 (when (truthy (description (snd entry)))
                    (comment (formatComment
                                (default [] (description (snd entry)))));;
                  ty ← lift (getType (snd entry) registry);
                  property (fst entry) ty (required (snd entry)));;
                 each rest
             end) props
      | None => ret tt
      end;;
      match additionalProperties t with
      | Some valueType =>
          ty ← lift (getType valueType registry);
          property (js "[key: string]") ty true
      | None => ret tt
      end)))
  else if typeIs t "object" && bool_decide (is_Some (additionalProperties t)) then
    Ok (Nested (
      child ← lift (match additionalProperties t with
                    | Some valueType => getType valueType registry
                    | None =>
                        Raise (Error (js "Expected value to be defined, but got undefined"))
                    end);
      write (js "{ [P in string]: ");;
      tsWrite child;;
      write (js " }")))
  else if truthy (type t) then
    let tsType := typesMapValue (default [] (type t)) in
    Ok (if repeated t
        then Flat (valueText tsType ++ js " | " ++ valueText tsType ++ js "[]")
        else valueRendering tsType)
  else if truthy (ref t) then
    let name := default [] (ref t) in
    empty ← isEmptySchema (lookupSchema registry name);
    if (empty : bool) then Ok (Flat (js "any")) else Ok (Flat name)
  else Raise (Error []).

(** [getMethodReturn].  An inherited member answered by [schemas[...]]
    has no [properties] and is treated as a schema without any. *)
Definition getMethodReturn (m : RestMethod)
    (registry : gmap jsstring JsonSchema) : Result jsstring :=
  let name := if bool_decide (is_Some (registry !! js "Request"))
              then js "client.Request" else js "Request" in
  match response m with
  | Some resp =>
      responseRef ← checkExists (fieldValue (target resp));
      match lookupSchema registry responseRef with
      | Some schema =>
          if negb (isEmpty (properties schema))
          then Ok (name ++ js "<" ++ responseRef ++ js ">")
          else Ok (name ++ js "<{}>")
      | None => Ok (name ++ js "<{}>")
      end
  | None => Ok (name ++ js "<void>")
  end.

(** ** The resource walker *)

(** [{...a, ...b}]: a key keeps the place of its first assignment and the
    value of its last. *)
Fixpoint assign {V} (key : jsstring) (v : V) (l : list (jsstring * V))
    : list (jsstring * V) :=
  match l with
  | [] => [(key, v)]
  | (k, old) :: rest =>
      if streq k key then (k, v) :: rest else (k, old) :: assign key v rest
  end.

Definition spread {V} (a b : list (jsstring * V)) : list (jsstring * V) :=
  fold_left (fun acc entry => assign (fst entry) (snd entry) acc) (a ++ b) [].

Definition createRequestParameterWriterCallback
    (params : list (jsstring * JsonSchema))
    (registry : gmap jsstring JsonSchema) (bodyRef : option jsstring)
    : Action unit :=
  anonymousType (
    forEach (fun entry : jsstring * JsonSchema =>
      when (truthy (description (snd entry)))
        (comment (formatComment (default [] (description (snd entry)))));;
      ty ← lift (getType (snd entry) registry);
      property (fst entry) ty (required (snd entry))) params;;
    when (truthy bodyRef)
      (comment (js "Request body");;
       property (js "resource") (Flat (default [] bodyRef)) true)).

(** [allMethods.filter(([, method]) =>
      checkExists(method.id).startsWith(`${namespace}.`))]. *)
Fixpoint methodsOfNamespace (ns : jsstring)
    (allMethods : list (jsstring * RestMethod))
    : Result (list (jsstring * RestMethod)) :=
  match allMethods with
  | [] => Ok []
  | (methodName, m) :: rest =>
      methodId ← checkExists (fieldValue (id m));
      kept ← methodsOfNamespace ns rest;
      Ok (if startsWith (ns ++ js ".") methodId
          then (methodName, m) :: kept else kept)
  end.

(** The body of [methods.forEach] in [writeResources]: the call overloads
    of one method. *)
Definition writeMethod (params : list (jsstring * JsonSchema))
    (registry : gmap jsstring JsonSchema)
    (methodName : jsstring) (m : RestMethod) : Action unit :=
  when (truthy (methodDescription m))
    (comment (formatComment (default [] (methodDescription m))));;
  let requestRef := request m ≫= target in
  let requestParameters :=
    sortObject (spread params (default [] (parameters m))) in
  when (negb (bool_decide (is_Some (assoc (js "resource") requestParameters)))
        || negb (truthy requestRef))
    (shortName ← lift (checkExists (fieldValue (getName (Some methodName))));
     returnType ← lift (getMethodReturn m registry);
     method (formatPropertyName shortName)
       [ mkMethodParameter (js "request")
           (Nested (createRequestParameterWriterCallback
                      requestParameters registry requestRef))
           (truthy requestRef) ]
       returnType false);;
  when (truthy requestRef)
    (shortName ← lift (checkExists (fieldValue (getName (Some methodName))));
     returnType ← lift (getMethodReturn m registry);
     method (formatPropertyName shortName)
       [ mkMethodParameter (js "request")
           (Nested (createRequestParameterWriterCallback
                      requestParameters registry None))
           true;
         mkMethodParameter (js "body") (Flat (default [] requestRef)) true ]
       returnType false).

Definition supposedToBeEmpty (resource : RestResource) : bool :=
  (Z.of_nat (length (default [] (methods resource))) =? 0)
  && match resources resource with
     | None => true
     | Some children => Z.of_nat (length children) =? 0
     end.

(** The body of [_.forEach(resources, ...)] in [writeResources] for one
    entry.  The recursive call on the nested resources keeps its own list
    of names, which the caller drops; the result is what this entry
    pushes on [writtenTopLevelResourceNames].  [out.interface] is called
    with two arguments: [emptyInterface] takes its default, [false]. *)
Fixpoint writeResource (params : list (jsstring * JsonSchema))
    (registry : gmap jsstring JsonSchema) (ns : jsstring)
    (resourceName : jsstring) (resource : RestResource) {struct resource}
    : Action (list jsstring) :=
  let resourceInterfaceName := getResourceTypeName resourceName in
  match resources resource with
  | Some children =>
      (fix each (rs : list (jsstring * RestResource)) : Action unit :=
         match rs with
         | [] => ret tt
         | entry :: rest =>
             (writeResource params registry ns (fst entry) (snd entry);;
              ret tt);;
             each rest
         end) children
  | None => ret tt
  end;;
  let allMethods := default [] (methods resource) in
  inNamespace ← lift (methodsOfNamespace ns allMethods);
  if negb (supposedToBeEmpty resource)
     && (Z.of_nat (length inNamespace) =? 0)
  then ret []
  else
    interface resourceInterfaceName (
      forEach (fun entry : jsstring * RestMethod =>
        writeMethod params registry (fst entry) (snd entry)) inNamespace;;
      match resources resource with
      | Some children =>
          forEach (fun entry : jsstring * RestResource =>
            property (fst entry) (Flat (getResourceTypeName (fst entry))) true)
            children
      | None => ret tt
      end) false;;
    ret [resourceName].

(** [writeResources]: every entry in turn, then
    [_.uniq(writtenTopLevelResourceNames).sort()]. *)
Fixpoint writeResourceEntries (params : list (jsstring * JsonSchema))
    (registry : gmap jsstring JsonSchema) (ns : jsstring)
    (rs : list (jsstring * RestResource)) : Action (list jsstring) :=
  match rs with
  | [] => ret []
  | (resourceName, resource) :: rest =>
      written ← writeResource params registry ns resourceName resource;
      more ← writeResourceEntries params registry ns rest;
      ret (written ++ more)
  end.

Definition writeResources (rs : list (jsstring * RestResource))
    (params : list (jsstring * JsonSchema))
    (registry : gmap jsstring JsonSchema) (ns : jsstring)
    : Action (list jsstring) :=
  written ← writeResourceEntries params registry ns rs;
  ret (sortStrings (uniq written)).

(** ** The stub-value generator *)

Definition seenHas (name : jsstring) : Action bool :=
  fun w => Normal (bool_decide (name ∈ seenSchemaRefs w)) w.
Definition seenAdd (name : jsstring) : Action unit :=
  fun w => Normal tt (setSeen ({[name]} ∪ seenSchemaRefs w) w).
Definition seenDelete (name : jsstring) : Action unit :=
  fun w => Normal tt (setSeen (seenSchemaRefs w ∖ {[name]}) w).

Definition cutOff {A} : Action A := fun _ => Unfinished.

(** The five mutually recursive methods.  A schema may refer to itself
    through the registry, so the recursion is not structural: [fuel] bounds
    the depth of the calls. *)
Fixpoint writePropertyValue (fuel : nat) (api : RestDescription)
    (prop : JsonSchema) {struct fuel} : Action unit :=
  match fuel with
  | O => cutOff
  | S fuel' =>
      if typeIs prop "number" || typeIs prop "integer" then write (js "42")
      else if typeIs prop "boolean" then write (js "true")
      else if typeIs prop "string" then
        write (doubleQuote ++ js "Test string" ++ doubleQuote)
      else if typeIs prop "array" then
        itemsSchema ← lift (checkExists (fieldValue (items prop)));
        writeArray fuel' api itemsSchema
      else if typeIs prop "object" then writeObject fuel' api prop
      else if typeIs prop "any" then write (js "42")
      else throw (Error (js "Unknown scalar type "
                         ++ default (js "undefined") (type prop)))
  end

with writeArray (fuel : nat) (api : RestDescription) (itemsSchema : JsonSchema)
    {struct fuel} : Action unit :=
  match fuel with
  | O => cutOff
  | S fuel' =>
      let schemaName := ref itemsSchema in
      seen ← seenHas (default [] schemaName);
      if truthy schemaName && (seen : bool) then write (js "undefined")
      else
        scope (tsNewLine [];;
               if truthy schemaName
               then writeSchemaRef fuel' api (default [] schemaName)
               else writePropertyValue fuel' api itemsSchema)
          (js "[") (js "]")
  end

with writeObject (fuel : nat) (api : RestDescription) (object : JsonSchema)
    {struct fuel} : Action unit :=
  match fuel with
  | O => cutOff
  | S fuel' =>
      let schemaName := additionalProperties object ≫= ref in
      seen ← seenHas (default [] schemaName);
      if truthy schemaName && (seen : bool) then write (js "undefined")
      else
        match properties object with
        | Some props =>
            scope (writeProperties fuel' api props) (js "{") (js "}")
        | None =>
            match additionalProperties object with
            | Some valueType =>
                scope (tsNewLine (js "A: ");;
                       if truthy schemaName
                       then writeSchemaRef fuel' api (default [] schemaName)
                       else writePropertyValue fuel' api valueType)
                  (js "{") (js "}")
            | None => writePropertyValue fuel' api object
            end
        end
  end

with writeSchemaRef (fuel : nat) (api : RestDescription) (schemaName : jsstring)
    {struct fuel} : Action unit :=
  match fuel with
  | O => cutOff
  | S fuel' =>
      seen ← seenHas schemaName;
      if (seen : bool) then write (js "undefined")
      else
        registry ← lift (checkExists (fieldValue (schemas api)));
        match lookupSchema registry schemaName with
        | None =>
            throw (Error (js "Attempted to generate stub for unknown schema '"
                          ++ schemaName ++ js "'"))
        | Some schema =>
            seenAdd schemaName;;
            writeObject fuel' api schema;;
            seenDelete schemaName
        end
  end

with writeProperties (fuel : nat) (api : RestDescription)
    (record : list (jsstring * JsonSchema)) {struct fuel} : Action unit :=
  match fuel with
  | O => cutOff
  | S fuel' =>
      forEach (fun entry : jsstring * JsonSchema =>
        let '(name, param) := entry in
        tsNewLine (formatPropertyName name ++ js ": ");;
        (if typeIs param "object" then writeObject fuel' api param
         else if truthy (ref param)
              then writeSchemaRef fuel' api (default [] (ref param))
              else writePropertyValue fuel' api param);;
        endLine (js ",")) record
  end.

(** ** The test writer *)

(** [s.replace(/^prefix/, '')] for a literal prefix. *)
Definition removePrefix (prefix s : jsstring) : jsstring :=
  if startsWith prefix s then drop (length prefix) s else s.

(** [writeResourceTests]: a call per method of the namespace, and after
    each such call the tests of the nested resources.  The loop over the
    nested resources is inside the loop over the methods, after the early
    return for a method of another namespace. *)
Fixpoint writeResourceTests (fuel : nat) (api : RestDescription)
    (ancestors resourceName : jsstring) (resource : RestResource)
    (ns : jsstring) {struct resource} : Action unit :=
  forEach (fun entry : jsstring * RestMethod =>
    methodId ← lift (checkExists (fieldValue (id (snd entry))));
    if negb (startsWith ns (removePrefix (js "gapi.client.") methodId))
    then ret tt
    else
      comment (default [] (methodDescription (snd entry)));;
      tsNewLine (js "await " ++ ancestors ++ js "." ++ resourceName ++ js "."
                 ++ fst entry ++ js "(");;
      match parameters (snd entry) with
      | Some params =>
          scope (writeProperties fuel api params) (js "{") (js "}")
      | None => ret tt
      end;;
      when (truthy (request (snd entry) ≫= target))
        (when (negb (bool_decide (is_Some (parameters (snd entry)))))
           (write (js "{} "));;
         write (js ", ");;
         writeSchemaRef fuel api (default [] (request (snd entry) ≫= target)));;
      endLine (js ");");;
      match resources resource with
      | Some children =>
          (fix each (rs : list (jsstring * RestResource)) : Action unit :=
             match rs with
             | [] => ret tt
             | child :: rest =>
                 (writeResourceTests fuel api
                    (ancestors ++ js "." ++ resourceName)
                    (fst child) (snd child) ns);;
                 each rest
             end) children
      | None => ret tt
      end)
    (default [] (methods resource)).


(** ** Vocabulary of the properties *)

(** A node is a reference node when it carries a [$ref] and no [type]:
    the test [getType] itself applies, by truthiness. *)
Definition isReferenceNode (t : JsonSchema) (name : jsstring) : Prop :=
  truthy (type t) = false /\ ref t = Some name /\ truthy (ref t) = true.

(** A schema with no named properties and no value type for additional
    properties. *)
Definition hasNoMembers (schema : JsonSchema) : Prop :=
  isEmpty (properties schema) = true /\ additionalProperties schema = None.

(** The depth discipline of a call made at a depth that is not negative:
    the depth is what it was when the call completes, and is not lower
    when the call throws. *)
Definition keepsDepth {A} (m : Action A) : Prop :=
  forall w, 0 <= indent w ->
    match m w with
    | Normal _ w' => indent w' = indent w
    | Throw _ w' => indent w <= indent w'
    | Unfinished => True
    end.

(** A rendering follows the depth discipline when its callback does. *)
Definition rendersInDepth (ty : TypeRendering) : Prop :=
  match ty with
  | Flat _ | Neither => True
  | Nested callback => keepsDepth callback
  end.

(** The depth a scoped operation leaves behind: the depth before the call
    when it completes, at least one more when it throws. *)
Definition depthAfter (m : Action unit) (w : World) : Prop :=
  match m w with
  | Normal _ w' => indent w' = indent w
  | Throw _ w' => indent w + 1 <= indent w'
  | Unfinished => True
  end.

(** The words of a comment, as the wrapping loop meets them: the pieces
    between single spaces of each line of the escaped, trimmed text, taken
    without the white space around them that [trim] strips from a line. *)
Definition commentWords (text : jsstring) : list jsstring :=
  List.map trim
    (concat (List.map (splitChar 32)
               (splitLines (trim (escapeComment text))))).

(** A line after every irregular space has become a space. *)
Definition normaliseSpaces (line : jsstring) : jsstring :=
  fold_left (fun l irregularSpace => replaceChar irregularSpace l)
    irregularSpaces line.

(** The merged, sorted parameters of a method, [requestParameters]. *)
Definition requestParametersOf (params : list (jsstring * JsonSchema))
    (m : RestMethod) : list (jsstring * JsonSchema) :=
  sortObject (spread params (default [] (parameters m))).

(** One property, with its description, for every parameter. *)
Definition parameterProperties (registry : gmap jsstring JsonSchema)
    (params : list (jsstring * JsonSchema)) : Action unit :=
  forEach (fun entry : jsstring * JsonSchema =>
    when (truthy (description (snd entry)))
      (comment (formatComment (default [] (description (snd entry)))));;
    ty ← lift (getType (snd entry) registry);
    property (fst entry) ty (required (snd entry))) params.

(** The indentation string at a depth. *)
Definition indentOf (w : World) : jsstring :=
  repeatString tabString (Z.to_nat (indent w)).

(** The scalar kinds and their tokens. *)
Definition scalarTokens : list (jsstring * jsstring) :=
  [ (js "integer", js "number");
    (js "number", js "number");
    (js "string", js "string");
    (js "boolean", js "boolean");
    (js "any", js "any") ].

(** [T | T[]] under the repeated flag. *)
Definition repeatedForm (tsType : jsstring) (rep : bool) : jsstring :=
  if rep then tsType ++ js " | " ++ tsType ++ js "[]" else tsType.

(** The kinds [writePropertyValue] has a case for. *)
Definition stubKinds : list jsstring :=
  [ js "number"; js "integer"; js "boolean"; js "string"; js "array";
    js "object"; js "any" ].

(** Array suffixing of a rendering: a flat token gets [[]] appended, a
    nested rendering is wrapped as a generic [Array<...>], a rendering
    that is neither gives the bare suffix [[]]; a rendering that failed
    stays failed. *)
Definition arraySuffix (r : Result TypeRendering) : Result TypeRendering :=
  match r with
  | Ok (Flat token) => Ok (Flat (token ++ js "[]"))
  | Ok (Nested callback) =>
      Ok (Nested (write (js "Array<");; callback;; write (js ">")))
  | Ok Neither => Ok (Flat (js "[]"))
  | Raise e => Raise e
  end.

(** The name of the request wrapper, a function of the registry alone. *)
Definition requestWrapperName (registry : gmap jsstring JsonSchema)
    : jsstring :=
  if bool_decide (is_Some (registry !! js "Request"))
  then js "client.Request" else js "Request".

(** What a call does to the expansion set: nothing when it completes; when
    it throws, names may be left behind but none is lost. *)
Definition keepsSeen {A} (m : Action A) : Prop :=
  forall w, match m w with
            | Normal _ w' => seenSchemaRefs w' = seenSchemaRefs w
            | Throw _ w' => seenSchemaRefs w ⊆ seenSchemaRefs w'
            | Unfinished => True
            end.

(** [later] settles on every outcome [earlier] settles on: a run that was
    not cut off ends the same way under the other bound. *)
Definition settledBy {A} (earlier later : Action A) : Prop :=
  forall w, earlier w <> Unfinished -> later w = earlier w.

(** The text of one line inside a comment block, and of the whole block,
    at an indentation. *)
Definition commentLineText (line : jsstring) : jsstring :=
  match line with
  | [] => js " *"
  | _ => js " * " ++ line
  end.

Definition blockText (pre : jsstring) (lines : list jsstring) : jsstring :=
  match lines with
  | [] => []
  | [line] =>
      pre ++ (jsdocCommentStart ++ js " " ++ line ++ js " " ++ jsdocCommentEnd)
      ++ newLine
  | _ :: _ :: _ =>
      pre ++ jsdocCommentStart ++ newLine
      ++ concat (List.map (fun line => pre ++ commentLineText line ++ newLine)
                   lines)
      ++ pre ++ (js " " ++ jsdocCommentEnd) ++ newLine
  end.

(** ** Vocabulary of the further properties *)

(** A string without the character [sep]. *)
Definition sepFree (sep : N) (s : jsstring) : Prop :=
  forallb (fun c => negb (N.eqb c sep)) s = true.

(** The non-empty pieces of a line between spaces: its words, in order. *)
Definition nonEmptyWords (line : jsstring) : list jsstring :=
  List.filter (fun word => negb (streq word [])) (splitChar 32 line).


(** The end-of-comment sequence, a star followed by a slash, somewhere in
    a string. *)
Fixpoint hasCommentEnd (s : jsstring) : bool :=
  match s with
  | [] => false
  | c :: tl =>
      match tl with
      | d :: _ => (N.eqb c 42 && N.eqb d 47) || hasCommentEnd tl
      | [] => false
      end
  end.

Definition headIs (c : N) (s : jsstring) : bool :=
  match s with
  | x :: _ => N.eqb x c
  | [] => false
  end.

Definition lastIs (c : N) (s : jsstring) : bool :=
  match last s with
  | Some x => N.eqb x c
  | None => false
  end.

(** A parameter of a signature whose type is a token, not a banned one,
    and the text of such a parameter. *)
Definition plainParameter (p : MethodParameter) : Prop :=
  match parameterType p with
  | Flat token => includesBannedType token = false
  | Nested _ | Neither => False
  end.

Definition parameterText (p : MethodParameter) : jsstring :=
  parameter p ++ (if parameterRequired p then [] else js "?") ++ js ": "
  ++ match parameterType p with
     | Flat token => token
     | Nested _ | Neither => []
     end.


(** What [method] writes between two parameters. *)
Definition parameterSeparator (singleLine : bool) (w : World) : jsstring :=
  if singleLine then js ", " else js "," ++ newLine ++ indentOf w.


(** An object node with neither named properties nor a value type for
    additional properties: [{type: 'object'}] and no more. *)
Definition bareObject (t : JsonSchema) : bool :=
  typeIs t "object"
  && match properties t with Some _ => false | None => true end
  && match additionalProperties t with Some _ => false | None => true end.


(** A schema with no bare object node in it, at any depth. *)
Fixpoint noBareObject (t : JsonSchema) : bool :=
  negb (bareObject t)
  && match items t with
     | Some itemsSchema => noBareObject itemsSchema
     | None => true
     end
  && match properties t with
     | Some props =>
         (fix each (l : list (jsstring * JsonSchema)) : bool :=
            match l with
            | [] => true
            | entry :: rest => noBareObject (snd entry) && each rest
            end) props
     | None => true
     end
  && match additionalProperties t with
     | Some valueType => noBareObject valueType
     | None => true
     end.

(** The registry of a document, empty when the document has none. *)
Definition registryOf (api : RestDescription) : gmap jsstring JsonSchema :=
  default ∅ (schemas api).

(** The number of schemas of the registry that are not being expanded. *)
Definition unseen (api : RestDescription) (w : World) : nat :=
  size (dom (registryOf api) ∖ seenSchemaRefs w).

(** A call settles at [n] when, from every state with at most [n] schemas
    not being expanded, it is not cut off, and leaves the expansion set as
    it was when it completes. *)
Definition settlesAt (api : RestDescription) (n : nat) {A} (m : Action A)
    : Prop :=
  forall w, (unseen api w <= n)%nat ->
    match m w with
    | Normal _ w' => seenSchemaRefs w' = seenSchemaRefs w
    | Throw _ _ => True
    | Unfinished => False
    end.


(** A list of strings in ascending code-unit order. *)
Fixpoint ascending (l : list jsstring) : bool :=
  match l with
  | [] => true
  | a :: tl =>
      match tl with
      | [] => true
      | b :: _ => strleb a b && ascending tl
      end
  end.


(** A method the test writer passes over: its id is defined and, without
    a leading [gapi.client.], does not start with the namespace. *)
Definition outsideTests (ns : jsstring) (entry : jsstring * RestMethod)
    : Prop :=
  exists methodId,
    id (snd entry) = Some methodId
    /\ startsWith ns (removePrefix (js "gapi.client.") methodId) = false.


(** One of the escaped JSDoc tags, behind its [@], somewhere in a string. *)
Fixpoint hasJsdocTag (s : jsstring) : bool :=
  match s with
  | [] => false
  | c :: tl =>
      (N.eqb c 64 && existsb (fun tag => startsWith tag tl) jsdocTags)
      || hasJsdocTag tl
  end.


(** A call respects a relation between states when the state it ends in,
    by completing or by throwing, is related to the state it started
    from. *)
Definition respects (R : World -> World -> Prop) {A} (m : Action A) : Prop :=
  forall w, match m w with
            | Normal _ w' => R w w'
            | Throw _ w' => R w w'
            | Unfinished => True
            end.

Definition rendersWith (R : World -> World -> Prop) (ty : TypeRendering)
    : Prop :=
  match ty with
  | Flat _ | Neither => True
  | Nested callback => respects R callback
  end.

(** The output of [w'] is the output of [w] with some text after it. *)
Definition appends (w w' : World) : Prop :=
  exists text, output w' = output w ++ text.

(** The same, with the expansion set untouched. *)
Definition appendsAside (w w' : World) : Prop :=
  appends w w' /\ seenSchemaRefs w' = seenSchemaRefs w.


(** The previous revision could not be read: [getRevision] answered
    [undefined], zero or [NaN]. *)
Definition unreadable (previous : option JsNumber) : bool :=
  match previous with
  | Some x => negb (numberTruthy x)
  | None => true
  end.


(** The end of the array spine of a node: the first node, going down
    through [items], that is not an array; none when an array on the way
    has no [items]. *)
Fixpoint spineEnd (t : JsonSchema) : option JsonSchema :=
  if typeIs t "array" then
    match items t with
    | Some itemsSchema => spineEnd itemsSchema
    | None => None
    end
  else Some t.


(** The lines of a comment block, and the lines [comment] writes for a
    text at a depth: the block, between the two markers when one of its
    lines is over the budget. *)
Definition blockLines (lines : list jsstring) : list jsstring :=
  match lines with
  | [] => []
  | [line] =>
      [jsdocCommentStart ++ js " " ++ line ++ js " " ++ jsdocCommentEnd]
  | _ :: _ :: _ =>
      [jsdocCommentStart] ++ List.map commentLineText lines
      ++ [js " " ++ jsdocCommentEnd]
  end.

Definition writtenLines (depth : Z) (text : jsstring) : list jsstring :=
  if streq (trim text) [] then []
  else
    let lines := commentLines (commentBudget depth) (escapeComment text) in
    let tooLong :=
      exceeds (mathMax (List.map strlen lines)) (commentBudget depth) in
    (if tooLong then [disableMaxLineLength] else [])
    ++ blockLines lines
    ++ (if tooLong then [enableMaxLineLength] else []).

(** The words of a text as a reader takes them: its runs of characters
    that are not white space. *)
Fixpoint splitWhiteSpace (s : jsstring) : list jsstring :=
  match s with
  | [] => [[]]
  | c :: tl =>
      if isWhiteSpace c then [] :: splitWhiteSpace tl
      else consHead c (splitWhiteSpace tl)
  end.

Definition textWords (text : jsstring) : list jsstring :=
  List.filter (fun word => negb (streq word [])) (splitWhiteSpace text).


(** * Properties *)

(** ** Sequencing *)

Lemma bind_normal {A B} (m : Action A) (k : A -> Action B) w a w' :
  m w = Normal a w' -> (m ≫= k) w = k a w'.
Proof. intros H. unfold mbind, Action_bind, bind. now rewrite H. Qed.

Lemma bind_throw {A B} (m : Action A) (k : A -> Action B) w e w' :
  m w = Throw e w' -> (m ≫= k) w = Throw e w'.
Proof. intros H. unfold mbind, Action_bind, bind. now rewrite H. Qed.

Lemma bind_unfinished {A B} (m : Action A) (k : A -> Action B) w :
  m w = Unfinished -> (m ≫= k) w = Unfinished.
Proof. intros H. unfold mbind, Action_bind, bind. now rewrite H. Qed.

Lemma write_normal chunk w :
  write chunk w = Normal tt (setOutput (output w ++ chunk) w).
Proof. reflexivity. Qed.

Lemma indentation_normal w :
  0 <= indent w ->
  indentation w = Normal (repeatString tabString (Z.to_nat (indent w))) w.
Proof.
  intros H. unfold indentation, arrayJoin.
  destruct (Z.ltb_spec (indent w + 1) 0) as [Hneg | _]; [lia |].
  now replace (indent w + 1 - 1) with (indent w) by lia.
Qed.

Lemma startIndentedLine_normal chunk w :
  0 <= indent w ->
  startIndentedLine chunk w =
  Normal tt (setOutput (output w
                        ++ repeatString tabString (Z.to_nat (indent w))
                        ++ chunk) w).
Proof.
  intros H. unfold startIndentedLine.
  rewrite (bind_normal _ _ _ _ _ (indentation_normal w H)). reflexivity.
Qed.

Lemma writeLine_normal chunk w :
  0 <= indent w ->
  writeLine chunk w =
  Normal tt (setOutput (output w
                        ++ repeatString tabString (Z.to_nat (indent w))
                        ++ chunk ++ newLine) w).
Proof. intros H. unfold writeLine. now rewrite startIndentedLine_normal. Qed.

(** ** C3: the indent depth around a scoped body *)

Lemma scoped_body_depth (body : Action unit) (closing : Action unit) w1 d :
  keepsDepth body ->
  0 <= d ->
  indent w1 = d + 1 ->
  (forall w2, indent w2 = d ->
     exists w3, closing w2 = Normal tt w3 /\ indent w3 = d) ->
  match (body;; indentDecr;; closing) w1 with
  | Normal _ w' => indent w' = d
  | Throw _ w' => d + 1 <= indent w'
  | Unfinished => True
  end.
Proof.
  intros Hbody Hd Hw1 Hclose.
  specialize (Hbody w1 ltac:(lia)).
  unfold mbind, Action_bind, bind.
  destruct (body w1) as [[] w2 | e w2 |]; [| lia | exact I].
  cbn [indentDecr].
  destruct (Hclose (setIndent (indent w2 - 1) w2)) as (w3 & -> & H3).
  - cbn. lia.
  - exact H3.
Qed.

Lemma closing_line_depth chunk d w2 :
  0 <= d -> indent w2 = d ->
  exists w3, startIndentedLine chunk w2 = Normal tt w3 /\ indent w3 = d.
Proof.
  intros Hd H2. eexists. split.
  - apply startIndentedLine_normal. lia.
  - exact H2.
Qed.

Lemma braces_depth text body w :
  keepsDepth body -> 0 <= indent w -> depthAfter (braces text body) w.
Proof.
  intros Hbody Hdepth. unfold depthAfter, braces.
  erewrite bind_normal by (apply writeLine_normal; exact Hdepth).
  erewrite bind_normal by reflexivity.
  apply scoped_body_depth; [exact Hbody | exact Hdepth | reflexivity |].
  intros w2 H2. now apply closing_line_depth.
Qed.

Lemma scope_depth body startTag endTag w :
  keepsDepth body -> 0 <= indent w ->
  depthAfter (scope body startTag endTag) w.
Proof.
  intros Hbody Hdepth. unfold depthAfter, scope.
  erewrite bind_normal by apply write_normal.
  erewrite bind_normal by apply write_normal.
  erewrite bind_normal by reflexivity.
  apply scoped_body_depth; [exact Hbody | exact Hdepth | reflexivity |].
  intros w2 H2. now apply closing_line_depth.
Qed.

Lemma anonymousType_depth body w :
  keepsDepth body -> 0 <= indent w -> depthAfter (anonymousType body) w.
Proof.
  intros Hbody Hdepth. unfold depthAfter, anonymousType, endLine.
  erewrite bind_normal.
  2:{ erewrite bind_normal by apply write_normal. apply write_normal. }
  erewrite bind_normal by reflexivity.
  apply scoped_body_depth; [exact Hbody | exact Hdepth | reflexivity |].
  intros w2 H2. now apply closing_line_depth.
Qed.

(** C3 (as amended).  [braces], [scope] and [anonymousType] bracket the
    body between a plain increment and a plain decrement of the depth.
    For a body that follows the depth discipline, the depth after the call
    is the depth before it when the call completes; when the body throws,
    nothing restores the depth and it stays at least one higher. *)
Theorem scoped_emission_depth (body : Action unit) (w : World) :
  keepsDepth body ->
  0 <= indent w ->
  (forall text, depthAfter (braces text body) w)
  /\ (forall startTag endTag, depthAfter (scope body startTag endTag) w)
  /\ depthAfter (anonymousType body) w.
Proof.
  intros Hbody Hdepth. split; [| split].
  - intros text. now apply braces_depth.
  - intros startTag endTag. now apply scope_depth.
  - now apply anonymousType_depth.
Qed.

(** *** The callbacks of the translator follow the discipline *)

Lemma depthAfter_keepsDepth (op : Action unit) :
  (forall w, 0 <= indent w -> depthAfter op w) -> keepsDepth op.
Proof.
  intros H w Hw. specialize (H w Hw). unfold depthAfter in H.
  destruct (op w); [exact H | lia | exact I].
Qed.

Lemma keepsDepth_ret {A} (a : A) : keepsDepth (ret a).
Proof. intros w _. reflexivity. Qed.

Lemma keepsDepth_throw {A} e : keepsDepth (@throw A e).
Proof. intros w _. cbn. lia. Qed.

Lemma keepsDepth_cutOff {A} : keepsDepth (@cutOff A).
Proof. intros w _. exact I. Qed.

Lemma keepsDepth_lift {A} (r : Result A) : keepsDepth (lift r).
Proof. destruct r; [apply keepsDepth_ret | apply keepsDepth_throw]. Qed.

Lemma keepsDepth_bind {A B} (m : Action A) (k : A -> Action B) :
  keepsDepth m -> (forall a, keepsDepth (k a)) -> keepsDepth (m ≫= k).
Proof.
  intros Hm Hk w Hw. specialize (Hm w Hw).
  unfold mbind, Action_bind, bind.
  destruct (m w) as [a w1 | e w1 |]; [| exact Hm | exact I].
  specialize (Hk a w1 ltac:(lia)).
  destruct (k a w1) as [b w2 | e w2 |]; [lia | lia | exact I].
Qed.

Lemma keepsDepth_if {A} (b : bool) (m1 m2 : Action A) :
  keepsDepth m1 -> keepsDepth m2 -> keepsDepth (if b then m1 else m2).
Proof. destruct b; auto. Qed.

Lemma keepsDepth_when b m : keepsDepth m -> keepsDepth (when b m).
Proof. intros H. destruct b; [exact H | apply keepsDepth_ret]. Qed.

Lemma keepsDepth_forEach {A} (f : A -> Action unit) xs :
  (forall x, keepsDepth (f x)) -> keepsDepth (forEach f xs).
Proof.
  intros H. induction xs as [| x rest IH]; [apply keepsDepth_ret |].
  cbn [forEach]. apply keepsDepth_bind; [apply H | intros _; exact IH].
Qed.

Lemma keepsDepth_forEachIndexed {A} (f : A -> nat -> Action unit) xs :
  (forall x index, In x xs -> keepsDepth (f x index)) ->
  forall index, keepsDepth (forEachIndexed f index xs).
Proof.
  induction xs as [| x rest IH]; intros H index; [apply keepsDepth_ret |].
  cbn [forEachIndexed]. apply keepsDepth_bind.
  - apply H. now left.
  - intros _. apply IH. intros y i Hy. apply H. now right.
Qed.

Lemma keepsDepth_write chunk : keepsDepth (write chunk).
Proof. intros w _. reflexivity. Qed.

Lemma keepsDepth_getIndent : keepsDepth getIndent.
Proof. intros w _. reflexivity. Qed.

Lemma keepsDepth_seenHas name : keepsDepth (seenHas name).
Proof. intros w _. reflexivity. Qed.

Lemma keepsDepth_seenAdd name : keepsDepth (seenAdd name).
Proof. intros w _. reflexivity. Qed.

Lemma keepsDepth_seenDelete name : keepsDepth (seenDelete name).
Proof. intros w _. reflexivity. Qed.

Lemma keepsDepth_startIndentedLine chunk : keepsDepth (startIndentedLine chunk).
Proof. intros w Hw. now rewrite startIndentedLine_normal. Qed.

Lemma keepsDepth_endIndentedLine chunk : keepsDepth (endIndentedLine chunk).
Proof.
  intros w Hw. unfold endIndentedLine.
  now rewrite (bind_normal _ _ _ _ _ (indentation_normal w Hw)).
Qed.

Lemma keepsDepth_writeLine chunk : keepsDepth (writeLine chunk).
Proof. apply keepsDepth_startIndentedLine. Qed.

Lemma keepsDepth_writeNewLine chunk : keepsDepth (writeNewLine chunk).
Proof. apply keepsDepth_endIndentedLine. Qed.

Lemma keepsDepth_endLine chunk : keepsDepth (endLine chunk).
Proof.
  apply keepsDepth_bind; [apply keepsDepth_write |].
  intros _. apply keepsDepth_write.
Qed.

Lemma keepsDepth_braces text body :
  keepsDepth body -> keepsDepth (braces text body).
Proof. intros H. apply depthAfter_keepsDepth. intros w. now apply braces_depth. Qed.

Lemma keepsDepth_scope body startTag endTag :
  keepsDepth body -> keepsDepth (scope body startTag endTag).
Proof. intros H. apply depthAfter_keepsDepth. intros w. now apply scope_depth. Qed.

Lemma keepsDepth_anonymousType body :
  keepsDepth body -> keepsDepth (anonymousType body).
Proof.
  intros H. apply depthAfter_keepsDepth. intros w. now apply anonymousType_depth.
Qed.

Lemma keepsDepth_interface name body flag :
  keepsDepth body -> keepsDepth (interface name body flag).
Proof.
  intros H. unfold interface. apply keepsDepth_bind.
  - apply keepsDepth_when, keepsDepth_writeLine.
  - intros _. now apply keepsDepth_braces.
Qed.

Lemma keepsDepth_property name ty req :
  rendersInDepth ty -> keepsDepth (property name ty req).
Proof.
  intros H. destruct ty as [token | callback |]; cbn [property].
  - apply keepsDepth_bind; [apply keepsDepth_when, keepsDepth_writeLine |].
    intros _. apply keepsDepth_writeLine.
  - apply keepsDepth_bind; [apply keepsDepth_startIndentedLine | intros _].
    apply keepsDepth_bind; [exact H | intros _; apply keepsDepth_endLine].
  - apply keepsDepth_ret.
Qed.

Lemma keepsDepth_commentBlock lines : keepsDepth (commentBlock lines).
Proof.
  assert (Hline : forall line, keepsDepth (commentLine line)).
  { intros [| c line]; apply keepsDepth_writeLine. }
  destruct lines as [| l1 [| l2 rest]]; cbn [commentBlock].
  - apply keepsDepth_ret.
  - apply keepsDepth_writeLine.
  - apply keepsDepth_bind; [apply keepsDepth_writeLine | intros _].
    apply keepsDepth_bind; [| intros _; apply keepsDepth_writeLine].
    now apply keepsDepth_forEach.
Qed.

Lemma keepsDepth_comment text : keepsDepth (comment text).
Proof.
  unfold comment. apply keepsDepth_if; [apply keepsDepth_ret |].
  apply keepsDepth_bind; [apply keepsDepth_getIndent | intros depth].
  apply keepsDepth_bind; [apply keepsDepth_when, keepsDepth_writeLine |].
  intros _. apply keepsDepth_bind; [apply keepsDepth_commentBlock |].
  intros _. apply keepsDepth_when, keepsDepth_writeLine.
Qed.

Lemma keepsDepth_tsWrite ty : rendersInDepth ty -> keepsDepth (tsWrite ty).
Proof.
  destruct ty as [token | callback |]; cbn;
    [intros _; apply keepsDepth_write | auto | intros _; apply keepsDepth_ret].
Qed.

Lemma keepsDepth_method name params returnType singleLine :
  Forall (fun p => rendersInDepth (parameterType p)) params ->
  keepsDepth (method name params returnType singleLine).
Proof.
  intros Hparams. unfold method.
  apply keepsDepth_bind; [apply keepsDepth_when, keepsDepth_writeLine |].
  intros _. apply keepsDepth_bind; [apply keepsDepth_startIndentedLine |].
  intros _. apply keepsDepth_bind.
  { apply keepsDepth_forEachIndexed. intros p index Hp.
    apply keepsDepth_bind; [apply keepsDepth_when, keepsDepth_writeNewLine |].
    intros _. apply keepsDepth_bind; [apply keepsDepth_write | intros _].
    apply keepsDepth_bind.
    - apply keepsDepth_tsWrite.
      rewrite Forall_forall in Hparams. apply Hparams.
      now apply list_elem_of_In.
    - intros _. apply keepsDepth_when.
      apply keepsDepth_bind; [apply keepsDepth_write | intros _].
      apply keepsDepth_if; [apply keepsDepth_write | apply keepsDepth_writeNewLine]. }
  intros _. apply keepsDepth_bind.
  { apply keepsDepth_when.
    apply keepsDepth_bind; [apply keepsDepth_writeNewLine |].
    intros _. apply keepsDepth_writeNewLine. }
  intros _. apply keepsDepth_bind; [apply keepsDepth_write |].
  intros _. apply keepsDepth_endLine.
Qed.

(** ** The type translator *)

Lemma getType_unfold t registry :
  getType t registry =
  if typeIs t "array" then
    match items t with
    | None => Raise (Error (js "Expected value to be defined, but got undefined"))
    | Some itemsSchema =>
        match getType itemsSchema registry with
        | Raise e => Raise e
        | Ok (Flat child) => Ok (Flat (child ++ js "[]"))
        | Ok (Nested child) =>
            Ok (Nested (write (js "Array<");; child;; write (js ">")))
        | Ok Neither => Ok (Flat (js "[]"))
        end
    end
  else if typeIs t "object" && bool_decide (is_Some (properties t)) then
    Ok (Nested (anonymousType (
      match properties t with
      | Some props =>
          forEach (fun entry : jsstring * JsonSchema =>
            when (truthy (description (snd entry)))
              (comment (formatComment (default [] (description (snd entry)))));;
            ty ← lift (getType (snd entry) registry);
            property (fst entry) ty (required (snd entry))) props
      | None => ret tt
      end;;
      match additionalProperties t with
      | Some valueType =>
          ty ← lift (getType valueType registry);
          property (js "[key: string]") ty true
      | None => ret tt
      end)))
  else if typeIs t "object" && bool_decide (is_Some (additionalProperties t)) then
    Ok (Nested (
      child ← lift (match additionalProperties t with
                    | Some valueType => getType valueType registry
                    | None =>
                        Raise (Error (js "Expected value to be defined, but got undefined"))
                    end);
      write (js "{ [P in string]: ");;
      tsWrite child;;
      write (js " }")))
  else if truthy (type t) then
    let tsType := typesMapValue (default [] (type t)) in
    Ok (if repeated t
        then Flat (valueText tsType ++ js " | " ++ valueText tsType ++ js "[]")
        else valueRendering tsType)
  else if truthy (ref t) then
    let name := default [] (ref t) in
    empty ← isEmptySchema (lookupSchema registry name);
    if (empty : bool) then Ok (Flat (js "any")) else Ok (Flat name)
  else Raise (Error []).
Proof.
  destruct t as [ty rf it props ap rep req descr]. cbn [getType].
  repeat (match goal with |- context [if ?b then _ else _] => destruct b end;
          try reflexivity).
  cbn [properties]. destruct props as [props|]; [| reflexivity].
  do 3 f_equal. f_equal.
  induction props as [| entry rest IH]; [reflexivity |].
  cbn [forEach]. rewrite <- IH. reflexivity.
Qed.

(** Induction on a schema: the item type, the property types and the
    value type of additional properties come first. *)
Lemma JsonSchema_induction (P : JsonSchema -> Prop) :
  (forall t,
     (forall itemsSchema, items t = Some itemsSchema -> P itemsSchema) ->
     (forall props, properties t = Some props ->
        Forall (fun entry => P (snd entry)) props) ->
     (forall valueType, additionalProperties t = Some valueType ->
        P valueType) ->
     P t) ->
  forall t, P t.
Proof.
  intros step. fix IH 1.
  intros [ty rf it props ap rep req descr]. apply step; cbn.
  - destruct it as [itemsSchema |]; intros x [= <-]. apply IH.
  - destruct props as [entries |]; intros x [= <-].
    induction entries as [| entry rest IHrest]; constructor.
    + apply IH.
    + exact IHrest.
  - destruct ap as [valueType |]; intros x [= <-]. apply IH.
Qed.

(** Every callback [getType] returns follows the depth discipline. *)
Lemma valueRendering_keepsDepth value : rendersInDepth (valueRendering value).
Proof.
  destruct value as [token | [name |]]; cbn; [exact I | | exact I].
  apply keepsDepth_lift.
Qed.

Lemma getType_keepsDepth registry t :
  match getType t registry with
  | Ok ty => rendersInDepth ty
  | Raise _ => True
  end.
Proof.
  induction t as [t IHitems IHprops IHvalue] using JsonSchema_induction.
  assert (Hlifted : forall schema,
            match getType schema registry with
            | Ok ty => rendersInDepth ty
            | Raise _ => True
            end ->
            forall k : TypeRendering -> Action unit,
              (forall ty, rendersInDepth ty -> keepsDepth (k ty)) ->
              keepsDepth (lift (getType schema registry) ≫= k)).
  { intros schema Hschema k Hk w Hw.
    destruct (getType schema registry) as [ty | e]; cbn [lift].
    - rewrite (bind_normal _ _ w ty w eq_refl). now apply Hk.
    - rewrite (bind_throw _ _ w e w eq_refl). lia. }
  rewrite getType_unfold.
  destruct (typeIs t "array").
  { destruct (items t) as [itemsSchema |]; [| exact I].
    specialize (IHitems itemsSchema eq_refl).
    destruct (getType itemsSchema registry) as [[token | child |] | e];
      cbn in *; [exact I | | exact I | exact I].
    apply keepsDepth_bind; [apply keepsDepth_write | intros _].
    apply keepsDepth_bind; [exact IHitems | intros _; apply keepsDepth_write]. }
  destruct (typeIs t "object" && bool_decide (is_Some (properties t))).
  { cbn [rendersInDepth]. apply keepsDepth_anonymousType.
    apply keepsDepth_bind.
    - destruct (properties t) as [props |]; [| apply keepsDepth_ret].
      specialize (IHprops props eq_refl).
      induction props as [| entry rest IHrest]; [apply keepsDepth_ret |].
      cbn [forEach]. apply keepsDepth_bind.
      + apply keepsDepth_bind;
          [apply keepsDepth_when, keepsDepth_comment | intros _].
        apply Hlifted; [exact (Forall_inv IHprops) |].
        intros ty Hty. now apply keepsDepth_property.
      + intros _. apply IHrest. exact (Forall_inv_tail IHprops).
    - intros _. destruct (additionalProperties t) as [valueType |];
        [| apply keepsDepth_ret].
      apply Hlifted; [apply IHvalue; reflexivity |].
      intros ty Hty. now apply keepsDepth_property. }
  destruct (typeIs t "object"
            && bool_decide (is_Some (additionalProperties t))).
  { cbn [rendersInDepth].
    destruct (additionalProperties t) as [valueType |].
    - apply Hlifted; [apply IHvalue; reflexivity |].
      intros ty Hty.
      apply keepsDepth_bind; [apply keepsDepth_write | intros _].
      apply keepsDepth_bind; [now apply keepsDepth_tsWrite |].
      intros _. apply keepsDepth_write.
    - intros w Hw.
      erewrite (bind_throw (lift (Raise _)) _ w _ w eq_refl).
      lia. }
  destruct (truthy (type t)).
  { cbv zeta. destruct (repeated t); [exact I |].
    apply valueRendering_keepsDepth. }
  destruct (truthy (ref t)); [| exact I].
  cbv zeta. destruct (isEmptySchema _) as [[] | e]; exact I.
Qed.

Lemma typeIs_kind t kind name :
  type t = Some kind -> typeIs t name = streq kind (js name).
Proof.
  intros H. unfold typeIs, streq. rewrite H.
  apply bool_decide_ext. split; [intros [=]; assumption | intros ->; reflexivity].
Qed.

Lemma typeIs_falsy t name :
  truthy (type t) = false -> js name <> [] -> typeIs t name = false.
Proof.
  intros H Hname. unfold typeIs. apply bool_decide_eq_false_2. intros E.
  rewrite E in H. destruct (js name); [congruence | discriminate H].
Qed.

(** C1.  A reference node whose target in the registry has no named
    properties and no value type for additional properties renders as the
    token [any], whatever the name of the reference. *)
Theorem reference_to_empty_schema_renders_any
    (t : JsonSchema) (registry : gmap jsstring JsonSchema)
    (name : jsstring) (targetSchema : JsonSchema) :
  isReferenceNode t name ->
  registry !! name = Some targetSchema ->
  hasNoMembers targetSchema ->
  getType t registry = Ok (Flat (js "any")).
Proof.
  intros (Hty & Href & Htruthy) Hlookup (Hprops & Hvalue).
  rewrite getType_unfold.
  rewrite !(typeIs_falsy t _ Hty) by discriminate.
  rewrite Hty, Htruthy. cbn [andb].
  rewrite Href. change (default [] (Some name)) with name.
  cbv zeta. unfold lookupSchema. rewrite Hlookup.
  unfold isEmptySchema. rewrite Hprops, Hvalue. reflexivity.
Qed.

Lemma streq_not_in (kind x : jsstring) (l : list jsstring) :
  ~ In kind l -> In x l -> streq kind x = false.
Proof.
  intros Hnot Hin. unfold streq. apply bool_decide_eq_false_2.
  intros ->. exact (Hnot Hin).
Qed.

Lemma streq_ne (a b : jsstring) : a <> b -> streq a b = false.
Proof. intros H. unfold streq. now apply bool_decide_eq_false_2. Qed.

(** C6 (as amended).  A scalar node of kind integer, number, string,
    boolean or any renders as the token of the table, as [T | T[]] when
    repeated.  A kind outside the five raises nothing in [getType].  A
    name that is neither [array] nor [object], and that is not the name of
    a member [typesMap] inherits, is rendered unchanged; for the name of
    an inherited member [getType] returns that member in place of a
    token, and its text in the repeated form.  The error for an unknown
    kind is raised by the stub-value generator, in [writePropertyValue]. *)
Theorem scalar_rendering
    (t : JsonSchema) (registry : gmap jsstring JsonSchema) (kind : jsstring) :
  type t = Some kind ->
  (forall token, In (kind, token) scalarTokens ->
     getType t registry = Ok (Flat (repeatedForm token (repeated t))))
  /\ (~ In kind (List.map fst scalarTokens) -> kind <> [] ->
      kind <> js "array" -> kind <> js "object" ->
      getType t registry
      = match inherited kind with
        | None => Ok (Flat (repeatedForm kind (repeated t)))
        | Some member =>
            Ok (if repeated t
                then Flat (repeatedForm (memberText member) true)
                else memberRendering member)
        end)
  /\ (~ In kind stubKinds ->
      forall fuel api w,
        writePropertyValue (S fuel) api t w
        = Throw (Error (js "Unknown scalar type " ++ kind)) w).
Proof.
  intros Hkind. split; [| split].
  - intros token Hin. rewrite getType_unfold.
    rewrite !(typeIs_kind t kind _ Hkind), Hkind.
    unfold scalarTokens in Hin. cbn [In] in Hin.
    destruct Hin as [E | [E | [E | [E | [E | []]]]]];
      injection E as <- <-; destruct (repeated t); vm_compute; reflexivity.
  - intros Hnot Hne Harr Hobj. rewrite getType_unfold.
    rewrite !(typeIs_kind t kind _ Hkind), Hkind.
    rewrite !streq_ne by assumption. cbn [andb].
    assert (Htruthy : truthy (Some kind) = true)
      by (destruct kind; [congruence | reflexivity]).
    rewrite Htruthy. change (default [] (Some kind)) with kind. cbv zeta.
    assert (Hassoc : assoc kind typesMap = None).
    { unfold assoc, typesMap.
      assert (Hk : forall x, In x [js "integer"; js "string"; js "any"] ->
                             streq x kind = false).
      { intros x Hx. apply streq_ne. intros ->. apply Hnot.
        cbn [In] in Hx. destruct Hx as [<- | [<- | [<- | []]]];
          in_literals. }
      rewrite (Hk (js "integer")) by (in_literals).
      rewrite (streq_ne (js "object") kind) by congruence.
      rewrite (Hk (js "any")), (Hk (js "string")) by (in_literals).
      reflexivity. }
    unfold typesMapValue. rewrite Hassoc.
    destruct (inherited kind) as [member |]; destruct (repeated t);
      reflexivity.
  - intros Hnot fuel api w. cbn [writePropertyValue].
    rewrite !(typeIs_kind t kind _ Hkind).
    rewrite !(streq_not_in kind _ stubKinds Hnot) by (in_literals).
    cbn [orb]. rewrite Hkind. reflexivity.
Qed.

(** C8 (as amended).  An array node renders as the rendering of its item
    type with the array suffix: a flat token with [[]] appended, a nested
    rendering wrapped in [Array<] and [>] around whatever the item
    callback writes, and the bare suffix [[]] when the item type renders as
    neither a string nor a callback; an array of arrays renders as the
    doubly suffixed form. *)
Theorem array_rendering
    (t n : JsonSchema) (registry : gmap jsstring JsonSchema) :
  type t = Some (js "array") ->
  items t = Some n ->
  getType t registry = arraySuffix (getType n registry)
  /\ (forall outer, type outer = Some (js "array") -> items outer = Some t ->
        getType outer registry
        = arraySuffix (arraySuffix (getType n registry)))
  /\ (forall callback wrapped w,
        arraySuffix (Ok (Nested callback)) = Ok (Nested wrapped) ->
        wrapped w
        = match callback (setOutput (output w ++ js "Array<") w) with
          | Normal _ w' => Normal tt (setOutput (output w' ++ js ">") w')
          | Throw e w' => Throw e w'
          | Unfinished => Unfinished
          end).
Proof.
  intros Hty Hitems.
  assert (Hone : forall a b, type a = Some (js "array") -> items a = Some b ->
            getType a registry = arraySuffix (getType b registry)).
  { intros a b Ha Hb. rewrite (getType_unfold a).
    rewrite (typeIs_kind a _ _ Ha), Hb.
    change (streq (js "array") (js "array")) with true. cbv iota.
    unfold arraySuffix.
    destruct (getType b registry) as [[token | callback |] | e];
      reflexivity. }
  split; [| split].
  - apply Hone; assumption.
  - intros outer Houter Hinner.
    rewrite (Hone outer t Houter Hinner). f_equal. apply Hone; assumption.
  - intros callback wrapped w [= <-].
    unfold mbind, Action_bind, bind. cbn [write].
    destruct (callback _) as [[] w' | e w' |]; reflexivity.
Qed.

(** C10.  The wrapper of the return type is [client.Request] exactly when
    the registry has an entry named [Request], and [Request] otherwise,
    in each of the three cases: a response schema with properties, a
    response schema without properties or absent from the registry, no
    response declared.  (A response object without [$ref] makes
    [checkExists] throw: no return type is produced.) *)
Theorem method_return_wrapper
    (m : RestMethod) (registry : gmap jsstring JsonSchema) :
  (requestWrapperName registry = js "client.Request"
   <-> is_Some (registry !! js "Request"))
  /\ (requestWrapperName registry = js "Request"
      <-> registry !! js "Request" = None)
  /\ match response m with
     | None =>
         getMethodReturn m registry
         = Ok (requestWrapperName registry ++ js "<void>")
     | Some resp =>
         match target resp with
         | None => exists e, getMethodReturn m registry = Raise e
         | Some name =>
             getMethodReturn m registry
             = Ok (requestWrapperName registry ++ js "<"
                   ++ match registry !! name with
                      | Some schema =>
                          if isEmpty (properties schema) then js "{}" else name
                      | None => js "{}"
                      end ++ js ">")
         end
     end.
Proof.
  split; [| split].
  - unfold requestWrapperName. case_bool_decide as H.
    + split; [intros _; exact H | reflexivity].
    + split; [intros E; vm_compute in E; discriminate E | intros H'; contradiction].
  - unfold requestWrapperName. case_bool_decide as H.
    + split; [intros E; vm_compute in E; discriminate E |].
      intros E. rewrite E in H. destruct H as [x Hx]. discriminate Hx.
    + split; [intros _ | reflexivity].
      destruct (registry !! js "Request") eqn:E; [| reflexivity].
      exfalso. apply H. eauto.
  - unfold getMethodReturn. fold (requestWrapperName registry).
    destruct (response m) as [resp |]; [| reflexivity].
    destruct (target resp) as [name |]; cbn [checkExists fieldValue mbind Result_bind].
    + unfold lookupSchema.
      destruct (registry !! name) as [schema |].
      * destruct (isEmpty (properties schema)); reflexivity.
      * destruct (inherited name); reflexivity.
    + eexists. reflexivity.
Qed.

(** ** C2: the expansion set of the stub-value generator *)

Lemma keepsSeen_ret {A} (a : A) : keepsSeen (ret a).
Proof. intros w. reflexivity. Qed.

Lemma keepsSeen_throw {A} e : keepsSeen (@throw A e).
Proof. intros w. cbn. set_solver. Qed.

Lemma keepsSeen_cutOff {A} : keepsSeen (@cutOff A).
Proof. intros w. exact I. Qed.

Lemma keepsSeen_bind {A B} (m : Action A) (k : A -> Action B) :
  keepsSeen m -> (forall a, keepsSeen (k a)) -> keepsSeen (m ≫= k).
Proof.
  intros Hm Hk w. specialize (Hm w).
  unfold mbind, Action_bind, bind.
  destruct (m w) as [a w1 | e w1 |]; [| exact Hm | exact I].
  specialize (Hk a w1).
  destruct (k a w1) as [b w2 | e w2 |]; [congruence | | exact I].
  rewrite <- Hm. exact Hk.
Qed.

Lemma keepsSeen_lift {A} (r : Result A) : keepsSeen (lift r).
Proof. destruct r; [apply keepsSeen_ret | apply keepsSeen_throw]. Qed.

Lemma keepsSeen_write chunk : keepsSeen (write chunk).
Proof. intros w. reflexivity. Qed.

Lemma keepsSeen_indentation : keepsSeen indentation.
Proof.
  intros w. unfold indentation.
  destruct (arrayJoin _ _); cbn; set_solver.
Qed.

Lemma keepsSeen_startIndentedLine chunk : keepsSeen (startIndentedLine chunk).
Proof.
  apply keepsSeen_bind; [apply keepsSeen_indentation |].
  intros pre. apply keepsSeen_write.
Qed.

Lemma keepsSeen_endLine chunk : keepsSeen (endLine chunk).
Proof.
  apply keepsSeen_bind; [apply keepsSeen_write |].
  intros _. apply keepsSeen_write.
Qed.

Lemma keepsSeen_indentIncr : keepsSeen indentIncr.
Proof. intros w. reflexivity. Qed.

Lemma keepsSeen_indentDecr : keepsSeen indentDecr.
Proof. intros w. reflexivity. Qed.

Lemma keepsSeen_seenHas name : keepsSeen (seenHas name).
Proof. intros w. reflexivity. Qed.

Lemma keepsSeen_scope context startTag endTag :
  keepsSeen context -> keepsSeen (scope context startTag endTag).
Proof.
  intros H. unfold scope.
  repeat (apply keepsSeen_bind; [| intros _]);
    auto using keepsSeen_write, keepsSeen_indentIncr, keepsSeen_indentDecr,
               keepsSeen_startIndentedLine.
Qed.

Lemma keepsSeen_forEach {A} (f : A -> Action unit) xs :
  (forall x, keepsSeen (f x)) -> keepsSeen (forEach f xs).
Proof.
  intros H. induction xs as [| x rest IH]; [apply keepsSeen_ret |].
  cbn [forEach]. apply keepsSeen_bind; [apply H | intros _; exact IH].
Qed.

Lemma keepsSeen_if {A} (b : bool) (m1 m2 : Action A) :
  keepsSeen m1 -> keepsSeen m2 -> keepsSeen (if b then m1 else m2).
Proof. destruct b; auto. Qed.

Lemma pop_after_push (name : jsstring) (seen : gset jsstring) :
  name ∉ seen -> ({[name]} ∪ seen) ∖ {[name]} = seen.
Proof.
  intros Hfresh. apply set_eq. intros x.
  rewrite elem_of_difference, elem_of_union, elem_of_singleton.
  split; [intros [[-> | Hx] Hne]; [contradiction | exact Hx] |].
  intros Hx. split; [right; exact Hx | intros ->; contradiction].
Qed.

Lemma lookupSchema_own registry name schema :
  registry !! name = Some schema -> lookupSchema registry name = Some schema.
Proof. intros H. unfold lookupSchema. now rewrite H. Qed.

Lemma lookupSchema_inherited registry name member :
  registry !! name = None -> inherited name = Some member ->
  lookupSchema registry name = Some memberAsSchema.
Proof. intros H1 H2. unfold lookupSchema. now rewrite H1, H2. Qed.

Lemma lookupSchema_absent registry name :
  registry !! name = None -> inherited name = None ->
  lookupSchema registry name = None.
Proof. intros H1 H2. unfold lookupSchema. now rewrite H1, H2. Qed.

(** The push and the pop around the recursion into the target. *)
Lemma writeSchemaRef_push_pop fuel api registry name schema w :
  schemas api = Some registry ->
  lookupSchema registry name = Some schema ->
  name ∉ seenSchemaRefs w ->
  writeSchemaRef (S fuel) api name w
  = match writeObject fuel api schema
            (setSeen ({[name]} ∪ seenSchemaRefs w) w) with
    | Normal _ w' => Normal tt (setSeen (seenSchemaRefs w' ∖ {[name]}) w')
    | Throw e w' => Throw e w'
    | Unfinished => Unfinished
    end.
Proof.
  intros Hschemas Hlookup Hfresh. cbn [writeSchemaRef].
  unfold mbind at 1. unfold Action_bind, bind at 1. cbn [seenHas].
  rewrite bool_decide_eq_false_2 by exact Hfresh.
  rewrite Hschemas. cbn [checkExists fieldValue lift].
  unfold mbind at 1. unfold Action_bind, bind at 1. cbn [ret].
  rewrite Hlookup.
  unfold mbind, Action_bind, bind. cbn [seenAdd].
  destruct (writeObject fuel api schema _) as [[] w' | e w' |]; reflexivity.
Qed.

Lemma keepsSeen_writeSchemaRef_step fuel api :
  (forall object, keepsSeen (writeObject fuel api object)) ->
  forall name, keepsSeen (writeSchemaRef (S fuel) api name).
Proof.
  intros IH name w.
  destruct (decide (name ∈ seenSchemaRefs w)) as [Hin | Hfresh].
  - cbn [writeSchemaRef]. unfold mbind, Action_bind, bind. cbn [seenHas].
    rewrite bool_decide_eq_true_2 by exact Hin. reflexivity.
  - destruct (schemas api) as [registry |] eqn:Hschemas.
    + destruct (lookupSchema registry name) as [schema |] eqn:Hlookup.
      * rewrite (writeSchemaRef_push_pop _ _ _ _ _ _ Hschemas Hlookup Hfresh).
        specialize (IH schema (setSeen ({[name]} ∪ seenSchemaRefs w) w)).
        destruct (writeObject fuel api schema _) as [[] w' | e w' |];
          cbn in *; [| | exact I].
        -- rewrite IH. apply pop_after_push, Hfresh.
        -- intros x Hx. apply IH. now apply elem_of_union_r.
      * cbn [writeSchemaRef]. unfold mbind, Action_bind, bind. cbn [seenHas].
        rewrite bool_decide_eq_false_2 by exact Hfresh.
        rewrite Hschemas. cbn [checkExists fieldValue lift ret]. rewrite Hlookup.
        cbn. set_solver.
    + cbn [writeSchemaRef]. unfold mbind, Action_bind, bind. cbn [seenHas].
      rewrite bool_decide_eq_false_2 by exact Hfresh.
      rewrite Hschemas. cbn. set_solver.
Qed.

Lemma keepsSeen_stub_generator fuel api :
  (forall prop, keepsSeen (writePropertyValue fuel api prop))
  /\ (forall itemsSchema, keepsSeen (writeArray fuel api itemsSchema))
  /\ (forall object, keepsSeen (writeObject fuel api object))
  /\ (forall name, keepsSeen (writeSchemaRef fuel api name))
  /\ (forall record, keepsSeen (writeProperties fuel api record)).
Proof.
  induction fuel as [| fuel (IHvalue & IHarray & IHobject & IHref & IHprops)].
  { repeat split; intros; apply keepsSeen_cutOff. }
  split; [| split; [| split; [| split]]].
  - intros prop. cbn [writePropertyValue].
    repeat (apply keepsSeen_if; [apply keepsSeen_write |]).
    apply keepsSeen_if.
    { apply keepsSeen_bind; [apply keepsSeen_lift | intros it; apply IHarray]. }
    apply keepsSeen_if; [apply IHobject |].
    apply keepsSeen_if; [apply keepsSeen_write | apply keepsSeen_throw].
  - intros itemsSchema. cbn [writeArray].
    apply keepsSeen_bind; [apply keepsSeen_seenHas | intros seen].
    apply keepsSeen_if; [apply keepsSeen_write |].
    apply keepsSeen_scope.
    apply keepsSeen_bind; [apply keepsSeen_startIndentedLine | intros _].
    apply keepsSeen_if; [apply IHref | apply IHvalue].
  - intros object. cbn [writeObject].
    apply keepsSeen_bind; [apply keepsSeen_seenHas | intros seen].
    apply keepsSeen_if; [apply keepsSeen_write |].
    destruct (properties object) as [props |].
    { apply keepsSeen_scope, IHprops. }
    destruct (additionalProperties object) as [valueType |]; [| apply IHvalue].
    apply keepsSeen_scope.
    apply keepsSeen_bind; [apply keepsSeen_startIndentedLine | intros _].
    apply keepsSeen_if; [apply IHref | apply IHvalue].
  - apply keepsSeen_writeSchemaRef_step, IHobject.
  - intros record. cbn [writeProperties].
    apply keepsSeen_forEach. intros [name param].
    apply keepsSeen_bind; [apply keepsSeen_startIndentedLine | intros _].
    apply keepsSeen_bind; [| intros _; apply keepsSeen_endLine].
    apply keepsSeen_if; [apply IHobject |].
    apply keepsSeen_if; [apply IHref | apply IHvalue].
Qed.

(** When the recursion into the target throws, the name is still in the
    set. *)
Lemma writeSchemaRef_leaves_name fuel api registry name schema w e w' :
  schemas api = Some registry ->
  lookupSchema registry name = Some schema ->
  name ∉ seenSchemaRefs w ->
  writeSchemaRef (S fuel) api name w = Throw e w' ->
  name ∈ seenSchemaRefs w' /\ seenSchemaRefs w ⊆ seenSchemaRefs w'.
Proof.
  intros Hschemas Hlookup Hfresh.
  rewrite (writeSchemaRef_push_pop _ _ _ _ _ _ Hschemas Hlookup Hfresh).
  destruct (keepsSeen_stub_generator fuel api) as (_ & _ & Hobject & _).
  specialize (Hobject schema (setSeen ({[name]} ∪ seenSchemaRefs w) w)).
  destruct (writeObject fuel api schema _) as [[] w1 | e1 w1 |];
    [discriminate | | discriminate].
  intros [= <- <-]. cbn in Hobject. split.
  - apply Hobject. apply elem_of_union_l. now apply elem_of_singleton.
  - intros x Hx. apply Hobject. now apply elem_of_union_r.
Qed.

(** C2 (as amended).  On a name that is not being expanded and that the
    registry knows, [writeSchemaRef] adds the name to the set, recurses
    into the target and removes the name afterwards; when the call
    completes the set is what it was before the call.  Nothing removes the
    name when the recursion throws: the error leaves the set with the name
    still in it. *)
Theorem writeSchemaRef_expansion_set
    (fuel : nat) (api : RestDescription)
    (registry : gmap jsstring JsonSchema) (name : jsstring)
    (schema : JsonSchema) (w : World) :
  schemas api = Some registry ->
  registry !! name = Some schema ->
  name ∉ seenSchemaRefs w ->
  writeSchemaRef (S fuel) api name w
  = match writeObject fuel api schema
            (setSeen ({[name]} ∪ seenSchemaRefs w) w) with
    | Normal _ w' => Normal tt (setSeen (seenSchemaRefs w' ∖ {[name]}) w')
    | Throw e w' => Throw e w'
    | Unfinished => Unfinished
    end
  /\ match writeSchemaRef (S fuel) api name w with
     | Normal _ w' => seenSchemaRefs w' = seenSchemaRefs w
     | Throw _ w' =>
         name ∈ seenSchemaRefs w' /\ seenSchemaRefs w ⊆ seenSchemaRefs w'
     | Unfinished => True
     end.
Proof.
  intros Hschemas Hlookup Hfresh. apply lookupSchema_own in Hlookup.
  pose proof (writeSchemaRef_push_pop fuel api registry name schema w
                Hschemas Hlookup Hfresh) as Heq.
  split; [exact Heq |].
  rewrite Heq.
  destruct (keepsSeen_stub_generator fuel api) as (_ & _ & Hobject & _).
  specialize (Hobject schema (setSeen ({[name]} ∪ seenSchemaRefs w) w)).
  destruct (writeObject fuel api schema _) as [[] w' | e w' |];
    cbn in *; [| | exact I].
  - rewrite Hobject. apply pop_after_push, Hfresh.
  - split.
    + apply Hobject. apply elem_of_union_l. now apply elem_of_singleton.
    + intros x Hx. apply Hobject. now apply elem_of_union_r.
Qed.

(** ** C9: over-long words in documentation comments *)

Lemma strlen_app a b : strlen (a ++ b) = strlen a + strlen b.
Proof. unfold strlen. rewrite length_app. lia. Qed.

Lemma strlen_nonneg s : 0 <= strlen s.
Proof. unfold strlen. lia. Qed.

Lemma trimStart_length s : (length (trimStart s) <= length s)%nat.
Proof.
  induction s as [| c tl IH]; [reflexivity |].
  cbn [trimStart]. destruct (isWhiteSpace c); cbn [length]; lia.
Qed.

Lemma strlen_trim s : strlen (trim s) <= strlen s.
Proof.
  unfold strlen, trim, trimEnd. rewrite length_rev.
  pose proof (trimStart_length (rev (trimStart s))) as H1.
  rewrite length_rev in H1.
  pose proof (trimStart_length s) as H2. lia.
Qed.

Lemma strlen_replaceChar c s : strlen (replaceChar c s) = strlen s.
Proof. unfold strlen, replaceChar. now rewrite length_map. Qed.

Lemma strlen_normaliseSpaces s : strlen (normaliseSpaces s) = strlen s.
Proof.
  unfold normaliseSpaces. generalize irregularSpaces as spaces.
  intros spaces. revert s.
  induction spaces as [| sp rest IH]; intros s; [reflexivity |].
  cbn [fold_left]. rewrite IH. apply strlen_replaceChar.
Qed.

Lemma commentLines_normalised budget text :
  commentLines budget text
  = List.map normaliseSpaces
      (List.map trim
         (concat (List.map (wrapLine budget) (splitLines (trim text))))).
Proof.
  unfold commentLines, normaliseSpaces.
  generalize (List.map trim
                (concat (List.map (wrapLine budget) (splitLines (trim text)))))
    as lines.
  generalize irregularSpaces as spaces.
  induction spaces as [| sp rest IH]; intros lines.
  - cbn [fold_left]. now rewrite List.map_id.
  - cbn [fold_left]. rewrite IH, List.map_map. reflexivity.
Qed.

Lemma splitChar_piece_length sep s piece :
  In piece (splitChar sep s) -> strlen piece <= strlen s.
Proof.
  revert piece. induction s as [| c tl IH]; intros piece Hin.
  - cbn in Hin. destruct Hin as [<- | []]. reflexivity.
  - cbn [splitChar] in Hin. unfold strlen in *. cbn [length].
    destruct (N.eqb c sep).
    + destruct Hin as [<- | Hin]; [cbn; lia |].
      specialize (IH _ Hin). lia.
    + destruct (splitChar sep tl) as [| p ps] eqn:E; cbn [consHead] in Hin.
      * destruct Hin as [<- | []]. cbn. lia.
      * destruct Hin as [<- | Hin].
        -- specialize (IH p (or_introl eq_refl)). cbn [length]. lia.
        -- specialize (IH piece (or_intror Hin)). lia.
Qed.

Lemma splitChar_nonempty sep s : splitChar sep s <> [].
Proof.
  destruct s as [| c tl]; [discriminate |].
  cbn [splitChar]. destruct (N.eqb c sep); [discriminate |].
  destruct (splitChar sep tl); discriminate.
Qed.

Lemma splitLines_nonempty s : splitLines s <> [].
Proof.
  destruct s as [| c tl]; [discriminate |].
  cbn [splitLines]. destruct (N.eqb c 10); [discriminate |].
  destruct tl as [| d rest]; [discriminate |].
  destruct (N.eqb c 13 && N.eqb d 10); [discriminate |].
  destruct (splitLines (d :: rest)); discriminate.
Qed.

Lemma exceeds_mathMax (xs : list Z) (bound : Z) :
  exceeds (mathMax xs) bound = true <-> exists x, In x xs /\ x > bound.
Proof.
  induction xs as [| x rest IH].
  - cbn. split; [discriminate | intros (x & [] & _)].
  - cbn [mathMax fold_right]. fold (mathMax rest).
    destruct (mathMax rest) as [y |] eqn:E; cbn [exceeds] in *.
    + rewrite Z.gtb_gt. split.
      * intros H. destruct (Z.max_spec x y) as [[_ Hmax] | [_ Hmax]].
        -- assert (Hy : y > bound) by lia.
           apply Z.gtb_gt, IH in Hy. destruct Hy as (z & Hz & Hgt).
           exists z. split; [right; exact Hz | exact Hgt].
        -- exists x. split; [left; reflexivity | lia].
      * intros (z & [<- | Hz] & Hgt); [lia |].
        assert (Hy : (y >? bound) = true) by (apply IH; eauto).
        apply Z.gtb_gt in Hy. lia.
    + rewrite Z.gtb_gt. split.
      * intros H. exists x. split; [left; reflexivity | exact H].
      * intros (z & [<- | Hz] & Hgt); [exact Hgt |].
        assert (Hfalse : false = true) by (apply IH; eauto). discriminate.
Qed.

(** The word loop: a line it produces is the initial line, a word, or
    within the budget. *)
Lemma wrapStep_lines budget words :
  forall lines current lines' current',
    fold_left (wrapStep budget) words (lines, current) = (lines', current') ->
    forall line, In line (lines' ++ [current']) ->
      In line (lines ++ [current]) \/ In line words \/ strlen line <= budget.
Proof.
  induction words as [| word rest IH];
    intros lines current lines' current' Hfold line Hin.
  - cbn in Hfold. injection Hfold as <- <-. now left.
  - cbn [fold_left] in Hfold. unfold wrapStep at 2 in Hfold.
    destruct (Z.gtb_spec (strlen current + strlen (js " ") + strlen word) budget)
      as [Hlong | Hshort].
    + destruct (IH _ _ _ _ Hfold line Hin) as [H | [H | H]].
      * rewrite in_app_iff in H. destruct H as [H | [<- | []]].
        -- left. exact H.
        -- right. left. now left.
      * right. left. now right.
      * right. right. exact H.
    + destruct (streq current []).
      * destruct (IH _ _ _ _ Hfold line Hin) as [H | [H | H]].
        -- rewrite in_app_iff in H. destruct H as [H | [<- | []]].
           ++ left. rewrite in_app_iff. now left.
           ++ right. left. now left.
        -- right. left. now right.
        -- right. right. exact H.
      * destruct (IH _ _ _ _ Hfold line Hin) as [H | [H | H]].
        -- rewrite in_app_iff in H. destruct H as [H | [<- | []]].
           ++ left. rewrite in_app_iff. now left.
           ++ right. right. rewrite !strlen_app. lia.
        -- right. left. now right.
        -- right. right. exact H.
Qed.

(** The word loop: a word over the budget ends up as a line of its own. *)
Lemma wrapStep_long_word budget words :
  forall lines current lines' current',
    fold_left (wrapStep budget) words (lines, current) = (lines', current') ->
    (forall line, In line lines -> In line lines')
    /\ (strlen current > budget -> In current (lines' ++ [current']))
    /\ (forall word, In word words -> strlen word > budget ->
          In word (lines' ++ [current'])).
Proof.
  induction words as [| word rest IH]; intros lines current lines' current' Hfold.
  - cbn in Hfold. injection Hfold as <- <-.
    split; [auto | split].
    + intros _. rewrite in_app_iff. right. now left.
    + intros word [].
  - cbn [fold_left] in Hfold. unfold wrapStep at 2 in Hfold.
    pose proof (strlen_nonneg current) as Hc.
    pose proof (strlen_nonneg word) as Hw.
    change (strlen (js " ")) with 1 in Hfold.
    destruct (Z.gtb_spec (strlen current + 1 + strlen word) budget)
      as [Hlong | Hshort].
    + destruct (IH _ _ _ _ Hfold) as (Hkeep & Hcur & Hwords).
      split; [| split].
      * intros line Hl. apply Hkeep. rewrite in_app_iff. now left.
      * intros _. rewrite in_app_iff. left. apply Hkeep.
        rewrite in_app_iff. right. now left.
      * intros x [<- | Hx] Hgt; [apply Hcur; exact Hgt | now apply Hwords].
    + destruct (streq current []).
      * destruct (IH _ _ _ _ Hfold) as (Hkeep & Hcur & Hwords).
        split; [exact Hkeep | split].
        -- intros Hgt. lia.
        -- intros x [<- | Hx] Hgt; [lia | now apply Hwords].
      * destruct (IH _ _ _ _ Hfold) as (Hkeep & Hcur & Hwords).
        split; [exact Hkeep | split].
        -- intros Hgt. lia.
        -- intros x [<- | Hx] Hgt; [lia | now apply Hwords].
Qed.

Lemma wrapLine_long_word budget line word :
  In word (splitChar 32 line) -> strlen word > budget ->
  In word (wrapLine budget line).
Proof.
  intros Hin Hgt. pose proof (splitChar_piece_length _ _ _ Hin) as Hle.
  unfold wrapLine.
  destruct (Z.gtb_spec (strlen line) budget) as [_ | Hshort]; [| lia].
  destruct (fold_left _ _ _) as [lines current] eqn:Hfold.
  now apply (wrapStep_long_word _ _ _ _ _ _ Hfold).
Qed.

Lemma wrapLine_lines budget line produced :
  In produced (wrapLine budget line) ->
  strlen produced <= budget \/ In produced (splitChar 32 line)
  \/ produced = [].
Proof.
  unfold wrapLine.
  destruct (Z.gtb_spec (strlen line) budget) as [_ | Hshort].
  - destruct (fold_left _ _ _) as [lines current] eqn:Hfold. intros Hin.
    destruct (wrapStep_lines _ _ _ _ _ _ Hfold _ Hin) as [H | [H | H]].
    + right. right. cbn in H. destruct H as [<- | []]. reflexivity.
    + right. left. exact H.
    + left. exact H.
  - intros [<- | []]. left. exact Hshort.
Qed.

(** The comment is too wide exactly when one of its words is. *)
Lemma comment_too_long budget text :
  exceeds (mathMax (List.map strlen (commentLines budget text))) budget = true
  <-> exists word,
        In word (List.map trim
                   (concat (List.map (splitChar 32) (splitLines (trim text)))))
        /\ strlen word > budget.
Proof.
  rewrite exceeds_mathMax, commentLines_normalised. split.
  - intros (x & Hx & Hgt).
    apply in_map_iff in Hx. destruct Hx as (line & <- & Hline).
    apply in_map_iff in Hline. destruct Hline as (trimmed & <- & Htrimmed).
    apply in_map_iff in Htrimmed. destruct Htrimmed as (produced & <- & Hprod).
    rewrite strlen_normaliseSpaces in Hgt.
    apply in_concat in Hprod. destruct Hprod as (chunk & Hchunk & Hprod).
    apply in_map_iff in Hchunk. destruct Hchunk as (source & <- & Hsource).
    destruct (wrapLine_lines _ _ _ Hprod) as [Hshort | [Hword | ->]].
    + pose proof (strlen_trim produced). lia.
    + exists (trim produced). split; [| exact Hgt].
      apply in_map_iff. exists produced. split; [reflexivity |].
      apply in_concat. exists (splitChar 32 source). split; [| exact Hword].
      apply in_map_iff. eauto.
    + destruct (splitChar 32 source) as [| piece pieces] eqn:Hpieces;
        [now apply splitChar_nonempty in Hpieces |].
      exists (trim piece). split.
      * apply in_map_iff. exists piece. split; [reflexivity |].
        apply in_concat. exists (splitChar 32 source). split.
        -- apply in_map_iff. eauto.
        -- rewrite Hpieces. now left.
      * change (strlen (trim [])) with 0 in Hgt.
        pose proof (strlen_nonneg (trim piece)). lia.
  - intros (word & Hword & Hgt).
    apply in_map_iff in Hword. destruct Hword as (piece & <- & Hpiece).
    apply in_concat in Hpiece. destruct Hpiece as (pieces & Hpieces & Hpiece).
    apply in_map_iff in Hpieces. destruct Hpieces as (source & <- & Hsource).
    exists (strlen (normaliseSpaces (trim piece))). split.
    + apply in_map_iff. exists (normaliseSpaces (trim piece)).
      split; [reflexivity |].
      apply in_map_iff. exists (trim piece). split; [reflexivity |].
      apply in_map_iff. exists piece. split; [reflexivity |].
      apply in_concat. exists (wrapLine budget source). split.
      * apply in_map_iff. eauto.
      * apply wrapLine_long_word; [exact Hpiece |].
        pose proof (strlen_trim piece). lia.
    + rewrite strlen_normaliseSpaces. exact Hgt.
Qed.

(** A word over the budget is a line of the comment, whole. *)
Lemma long_word_is_a_line budget text word :
  In word (List.map trim
             (concat (List.map (splitChar 32) (splitLines (trim text))))) ->
  strlen word > budget ->
  In (normaliseSpaces word) (commentLines budget text).
Proof.
  intros Hword Hgt. rewrite commentLines_normalised.
  apply in_map_iff in Hword. destruct Hword as (piece & <- & Hpiece).
  apply in_concat in Hpiece. destruct Hpiece as (pieces & Hpieces & Hpiece).
  apply in_map_iff in Hpieces. destruct Hpieces as (source & <- & Hsource).
  apply in_map_iff. exists (trim piece). split; [reflexivity |].
  apply in_map_iff. exists piece. split; [reflexivity |].
  apply in_concat. exists (wrapLine budget source). split.
  - apply in_map_iff. eauto.
  - apply wrapLine_long_word; [exact Hpiece |].
    pose proof (strlen_trim piece). lia.
Qed.

Lemma comment_unfold text w :
  trim text <> [] ->
  let lines := commentLines (commentBudget (indent w)) (escapeComment text) in
  let tooLong :=
    exceeds (mathMax (List.map strlen lines)) (commentBudget (indent w)) in
  comment text w
  = (when tooLong (writeLine disableMaxLineLength);;
     commentBlock lines;;
     when tooLong (writeLine enableMaxLineLength)) w.
Proof.
  intros Hblank. unfold comment.
  assert (Htext : streq text [] = false).
  { apply streq_ne. intros ->. now apply Hblank. }
  rewrite Htext, (streq_ne _ _ Hblank). reflexivity.
Qed.

Lemma commentLine_text line w :
  0 <= indent w ->
  commentLine line w
  = Normal tt
      (setOutput (output w ++ indentOf w ++ commentLineText line ++ newLine) w).
Proof.
  intros Hw. destruct line; cbn [commentLine commentLineText];
    now rewrite writeLine_normal.
Qed.

Lemma forEach_commentLine_text lines w :
  0 <= indent w ->
  forEach commentLine lines w
  = Normal tt
      (setOutput
         (output w
          ++ concat (List.map (fun line => indentOf w ++ commentLineText line
                                           ++ newLine) lines)) w).
Proof.
  revert w. induction lines as [| line rest IH]; intros w Hw.
  - cbn. rewrite app_nil_r. now destruct w.
  - cbn [forEach List.map concat].
    erewrite bind_normal by (apply commentLine_text; exact Hw).
    rewrite IH by exact Hw. cbn [setOutput output indent seenSchemaRefs].
    unfold indentOf. cbn [indent].
    rewrite <- !app_assoc. reflexivity.
Qed.

Lemma commentBlock_text lines w :
  0 <= indent w ->
  commentBlock lines w
  = Normal tt (setOutput (output w ++ blockText (indentOf w) lines) w).
Proof.
  intros Hw. destruct lines as [| l1 [| l2 rest]].
  - cbn. rewrite app_nil_r. now destruct w.
  - cbn [commentBlock blockText]. now rewrite writeLine_normal.
  - cbn [commentBlock blockText].
    erewrite bind_normal by (apply writeLine_normal; exact Hw).
    erewrite bind_normal by (apply forEach_commentLine_text; exact Hw).
    rewrite writeLine_normal by exact Hw.
    cbn [setOutput output indent seenSchemaRefs]. unfold indentOf.
    cbn [indent]. rewrite <- !app_assoc. reflexivity.
Qed.

(** The word loop: with a word over the budget among the words, at least
    one line has been closed. *)
Lemma wrapStep_closes_a_line budget words :
  forall lines current lines' current',
    fold_left (wrapStep budget) words (lines, current) = (lines', current') ->
    (length lines <= length lines')%nat
    /\ ((exists word, In word words /\ strlen word > budget) ->
        (length lines < length lines')%nat).
Proof.
  induction words as [| word rest IH]; intros lines current lines' current' Hfold.
  - cbn in Hfold. injection Hfold as <- <-.
    split; [lia | intros (x & [] & _)].
  - cbn [fold_left] in Hfold. unfold wrapStep at 2 in Hfold.
    pose proof (strlen_nonneg current) as Hc.
    change (strlen (js " ")) with 1 in Hfold.
    destruct (Z.gtb_spec (strlen current + 1 + strlen word) budget)
      as [Hlong | Hshort].
    + destruct (IH _ _ _ _ Hfold) as (Hle & _).
      rewrite length_app in Hle. cbn [length] in Hle.
      split; [lia | intros _; lia].
    + assert (Hrest : (length lines <= length lines')%nat
                      /\ ((exists x, In x rest /\ strlen x > budget) ->
                          (length lines < length lines')%nat)).
      { destruct (streq current []); exact (IH _ _ _ _ Hfold). }
      destruct Hrest as (Hle & Hlt). split; [exact Hle |].
      intros (x & [<- | Hx] & Hgt); [lia | apply Hlt; eauto].
Qed.

Lemma wrapLine_several_lines budget line word :
  In word (splitChar 32 line) -> strlen word > budget ->
  (1 < length (wrapLine budget line))%nat.
Proof.
  intros Hin Hgt. pose proof (splitChar_piece_length _ _ _ Hin) as Hle.
  unfold wrapLine.
  destruct (Z.gtb_spec (strlen line) budget) as [_ | Hshort]; [| lia].
  destruct (fold_left _ _ _) as [lines current] eqn:Hfold.
  destruct (wrapStep_closes_a_line _ _ _ _ _ _ Hfold) as (_ & Hlt).
  rewrite length_app. cbn [length] in *.
  specialize (Hlt ltac:(eauto)). lia.
Qed.

Lemma long_word_several_lines budget text word :
  In word (List.map trim
             (concat (List.map (splitChar 32) (splitLines (trim text))))) ->
  strlen word > budget ->
  (1 < length (commentLines budget text))%nat.
Proof.
  intros Hword Hgt. rewrite commentLines_normalised, !length_map.
  apply in_map_iff in Hword. destruct Hword as (piece & <- & Hpiece).
  apply in_concat in Hpiece. destruct Hpiece as (pieces & Hpieces & Hpiece).
  apply in_map_iff in Hpieces. destruct Hpieces as (source & <- & Hsource).
  assert (Hlen : (1 < length (wrapLine budget source))%nat).
  { apply (wrapLine_several_lines _ _ piece Hpiece).
    pose proof (strlen_trim piece). lia. }
  revert Hsource Hlen. generalize (splitLines (trim text)) as sources.
  induction sources as [| s rest IH]; intros [] Hlen.
  - subst s. cbn [List.map concat]. rewrite length_app. lia.
  - cbn [List.map concat]. rewrite length_app.
    specialize (IH H Hlen). lia.
Qed.

(** C9 (as amended).  With the budget computed from the maximum line
    length, the current indent and the comment delimiters, and with the
    words taken as the wrapping loop takes them ([commentWords]: the pieces
    between single spaces of a line of the escaped text): when such a
    piece is longer than the budget, what is written is a line that
    disables the width check, the comment block, and a line that enables
    the check again; the block has a line for each of its lines and the
    piece is one of them, unbroken.  When no such piece is longer than the
    budget, only the block is written, without the markers.  The pieces
    are not the words of the text: the escaping lengthens a word, and
    white space other than U+0020 does not separate pieces. *)
Theorem comment_width_markers (text : jsstring) (w : World) :
  0 <= indent w ->
  trim text <> [] ->
  let budget := commentBudget (indent w) in
  let lines := commentLines budget (escapeComment text) in
  (forall word, In word (commentWords text) -> strlen word > budget ->
     comment text w
     = Normal tt
         (setOutput
            (output w
             ++ indentOf w ++ disableMaxLineLength ++ newLine
             ++ blockText (indentOf w) lines
             ++ indentOf w ++ enableMaxLineLength ++ newLine) w)
     /\ In (normaliseSpaces word) lines
     /\ exists before after,
          blockText (indentOf w) lines
          = indentOf w ++ jsdocCommentStart ++ newLine
            ++ before
            ++ indentOf w ++ commentLineText (normaliseSpaces word) ++ newLine
            ++ after
            ++ indentOf w ++ (js " " ++ jsdocCommentEnd) ++ newLine)
  /\ ((forall word, In word (commentWords text) -> strlen word <= budget) ->
      comment text w
      = Normal tt (setOutput (output w ++ blockText (indentOf w) lines) w)).
Proof.
  intros Hdepth Hblank. cbv zeta. split.
  - intros word Hword Hgt.
    pose proof (long_word_is_a_line _ _ _ Hword Hgt) as Hline.
    pose proof (long_word_several_lines _ _ _ Hword Hgt) as Hseveral.
    split; [| split; [exact Hline |]].
    + rewrite (comment_unfold text w Hblank). cbv zeta.
      assert (Hlong : exceeds
                (mathMax (List.map strlen
                   (commentLines (commentBudget (indent w))
                                 (escapeComment text))))
                (commentBudget (indent w)) = true).
      { apply comment_too_long. exists word. split; assumption. }
      rewrite Hlong. cbn [when].
      erewrite bind_normal by (apply writeLine_normal; exact Hdepth).
      erewrite bind_normal by (apply commentBlock_text; exact Hdepth).
      rewrite writeLine_normal by exact Hdepth.
      cbn [setOutput output indent seenSchemaRefs]. unfold indentOf.
      cbn [indent]. rewrite <- !app_assoc. reflexivity.
    + apply in_split in Hline. destruct Hline as (l1 & l2 & Hsplit).
      rewrite Hsplit in *.
      exists (concat (List.map (fun line => indentOf w ++ commentLineText line
                                            ++ newLine) l1)),
             (concat (List.map (fun line => indentOf w ++ commentLineText line
                                            ++ newLine) l2)).
      assert (Hshape : forall ls : list jsstring, (1 < length ls)%nat ->
                blockText (indentOf w) ls
                = indentOf w ++ jsdocCommentStart ++ newLine
                  ++ concat (List.map (fun line => indentOf w
                                         ++ commentLineText line ++ newLine) ls)
                  ++ indentOf w ++ (js " " ++ jsdocCommentEnd) ++ newLine).
      { intros [| a [| b ls]] Hlen; cbn [length] in Hlen; try lia.
        reflexivity. }
      rewrite (Hshape _ Hseveral).
      rewrite List.map_app, concat_app. cbn [List.map concat].
      rewrite <- !app_assoc. reflexivity.
  - intros Hshort. rewrite (comment_unfold text w Hblank). cbv zeta.
    destruct (exceeds _ _) eqn:Hlong.
    + apply comment_too_long in Hlong. destruct Hlong as (word & Hword & Hgt).
      specialize (Hshort word Hword). lia.
    + cbn [when].
      erewrite bind_normal by reflexivity.
      erewrite bind_normal by (apply commentBlock_text; exact Hdepth).
      reflexivity.
Qed.

(** Blank text writes nothing. *)
Lemma comment_blank text w : trim text = [] -> comment text w = Normal tt w.
Proof.
  intros Hblank. unfold comment. rewrite Hblank.
  change (streq [] []) with true. rewrite orb_true_r. reflexivity.
Qed.

(** ** C5: the two overloads of a method with a request body *)

(** C5 (as amended).  For a method with a request-body reference whose
    merged parameters define no [resource], the walker writes exactly two
    call overloads.  The first takes the single argument [request], an
    object type listing the merged parameters and then, under a
    [Request body] comment, the property [resource] typed by the body
    reference; the property is written as required ([resource: T;]),
    not as optional.  The second takes [request], listing the merged
    parameters only, and [body] typed by the body reference. *)
Theorem request_body_overloads
    (params : list (jsstring * JsonSchema))
    (registry : gmap jsstring JsonSchema)
    (methodName : jsstring) (m : RestMethod)
    (bodyRef shortName returnType : jsstring) :
  request m ≫= target = Some bodyRef ->
  bodyRef <> [] ->
  assoc (js "resource") (requestParametersOf params m) = None ->
  getName (Some methodName) = Some shortName ->
  getMethodReturn m registry = Ok returnType ->
  (forall w, 0 <= indent w -> includesBannedType bodyRef = false ->
     property (js "resource") (Flat bodyRef) true w
     = Normal tt
         (setOutput (output w ++ indentOf w
                     ++ (js "resource: " ++ bodyRef ++ js ";") ++ newLine) w))
  /\ writeMethod params registry methodName m
  = (when (truthy (methodDescription m))
       (comment (formatComment (default [] (methodDescription m))));;
     method (formatPropertyName shortName)
       [ mkMethodParameter (js "request")
           (Nested (anonymousType (
              parameterProperties registry (requestParametersOf params m);;
              (comment (js "Request body");;
               property (js "resource") (Flat bodyRef) true))))
           true ]
       returnType false;;
     method (formatPropertyName shortName)
       [ mkMethodParameter (js "request")
           (Nested (anonymousType (
              parameterProperties registry (requestParametersOf params m);;
              ret tt)))
           true;
         mkMethodParameter (js "body") (Flat bodyRef) true ]
       returnType false).
Proof.
  intros Hbody Hne Hresource Hname Hreturn. split.
  { intros w Hw Hbanned. cbn [property]. rewrite Hbanned. cbn [when].
    erewrite bind_normal by reflexivity.
    rewrite writeLine_normal by exact Hw. reflexivity. }
  unfold writeMethod. fold (requestParametersOf params m).
  rewrite Hbody, Hresource, Hname, Hreturn.
  assert (Htruthy : truthy (Some bodyRef) = true)
    by (destruct bodyRef; [congruence | reflexivity]).
  rewrite Htruthy.
  unfold createRequestParameterWriterCallback. rewrite Htruthy.
  reflexivity.
Qed.

(** ** C7: references to schemas the registry does not have *)

(** C7 (as amended).  A response that refers to a schema absent from the
    registry does not make the declaration walker fail: [getMethodReturn]
    renders the wrapper over the empty-object type.  A reference to an
    absent schema is fatal only where its target is looked up, and as an
    unknown schema only when its name is not the name of a member the
    registry inherits: then [getType] on a reference node throws, and so
    does [writeSchemaRef], by which the stub-value generator expands the
    request reference of a method.  Under the name of an inherited member
    the lookup answers that member, which has none of the fields of a
    schema: [getType] renders [any], and [writeSchemaRef] adds the name to
    the expansion set and fails on the member as on a schema without a
    type, leaving the name in the set. *)
Theorem unresolvable_reference
    (registry : gmap jsstring JsonSchema) (name : jsstring) :
  registry !! name = None ->
  (forall m resp, response m = Some resp -> target resp = Some name ->
     getMethodReturn m registry
     = Ok (requestWrapperName registry ++ js "<{}>"))
  /\ match inherited name with
     | None =>
         (forall t, isReferenceNode t name ->
            getType t registry = Raise TypeError)
         /\ (forall fuel api w,
               schemas api = Some registry -> name ∉ seenSchemaRefs w ->
               writeSchemaRef (S fuel) api name w
               = Throw (Error (js "Attempted to generate stub for unknown schema '"
                               ++ name ++ js "'")) w)
     | Some _ =>
         (forall t, isReferenceNode t name ->
            getType t registry = Ok (Flat (js "any")))
         /\ (forall fuel api w,
               schemas api = Some registry -> name ∉ seenSchemaRefs w ->
               writeSchemaRef (S (S (S fuel))) api name w
               = Throw (Error (js "Unknown scalar type undefined"))
                   (setSeen ({[name]} ∪ seenSchemaRefs w) w))
     end.
Proof.
  intros Habsent. split.
  { intros m resp Hresp Htarget. unfold getMethodReturn.
    fold (requestWrapperName registry).
    rewrite Hresp, Htarget. cbn [checkExists fieldValue mbind Result_bind].
    unfold lookupSchema. rewrite Habsent.
    destruct (inherited name); reflexivity. }
  assert (Hnode : forall t, isReferenceNode t name ->
            getType t registry
            = (empty ← isEmptySchema (lookupSchema registry name);
               if (empty : bool) then Ok (Flat (js "any"))
               else Ok (Flat name))).
  { intros t (Hty & Href & Htruthy). rewrite getType_unfold.
    rewrite !(typeIs_falsy t _ Hty) by discriminate.
    rewrite Hty, Htruthy. cbn [andb].
    rewrite Href. reflexivity. }
  destruct (inherited name) as [member |] eqn:Hmember.
  - rewrite (lookupSchema_inherited _ _ _ Habsent Hmember) in Hnode.
    split; [exact Hnode |].
    intros fuel api w Hschemas Hfresh.
    rewrite (writeSchemaRef_push_pop _ _ _ _ _ _ Hschemas
               (lookupSchema_inherited _ _ _ Habsent Hmember) Hfresh).
    reflexivity.
  - rewrite (lookupSchema_absent _ _ Habsent Hmember) in Hnode.
    split; [exact Hnode |].
    intros fuel api w Hschemas Hfresh. cbn [writeSchemaRef].
    unfold mbind, Action_bind, bind. cbn [seenHas].
    rewrite bool_decide_eq_false_2 by exact Hfresh.
    rewrite Hschemas. cbn [checkExists fieldValue lift ret].
    rewrite (lookupSchema_absent _ _ Habsent Hmember).
    reflexivity.
Qed.

(** ** C4: resources without methods *)

Lemma braces_empty text w :
  0 <= indent w ->
  braces text (ret tt) w
  = Normal tt (setOutput (output w ++ indentOf w ++ (text ++ js " {") ++ newLine
                          ++ indentOf w ++ js "}" ++ newLine) w).
Proof.
  intros H. unfold braces.
  rewrite (bind_normal _ _ _ _ _ (writeLine_normal _ w H)).
  unfold mbind, Action_bind, bind. cbn [indentIncr ret indentDecr].
  rewrite writeLine_normal by (cbn; lia).
  cbn [setIndent setOutput output indent seenSchemaRefs].
  unfold indentOf. replace (indent w + 1 - 1) with (indent w) by lia.
  rewrite <- !app_assoc. reflexivity.
Qed.

(** A resource with no methods and no nested resources is written as an
    empty interface; the only directive that may precede it is the one
    for the interface-name rule. *)
Lemma braces_ext text (c1 c2 : Action unit) w :
  (forall w', c1 w' = c2 w') -> braces text c1 w = braces text c2 w.
Proof.
  intros H. unfold braces, mbind, Action_bind, bind.
  destruct (writeLine _ w) as [[] w1 | |]; try reflexivity.
  cbn [indentIncr]. now rewrite H.
Qed.

Lemma interface_bare name w :
  0 <= indent w ->
  interface name (ret tt) false w
  = Normal tt
      (setOutput
         (output w
          ++ (if hasPrefixI name
              then indentOf w ++ js "// tslint:disable-next-line:interface-name"
                   ++ newLine
              else [])
          ++ indentOf w ++ (js "interface " ++ name ++ js " {") ++ newLine
          ++ indentOf w ++ js "}" ++ newLine) w).
Proof.
  intros Hdepth. unfold interface.
  destruct (hasPrefixI name).
  - cbn [app length Z.of_nat Z.ltb Z.compare when join].
    erewrite bind_normal by (apply writeLine_normal; exact Hdepth).
    rewrite braces_empty by exact Hdepth.
    unfold indentOf. cbn [setOutput output indent seenSchemaRefs].
    rewrite <- !app_assoc. reflexivity.
  - cbn [app length Z.of_nat Z.ltb Z.compare when].
    erewrite bind_normal by reflexivity.
    rewrite braces_empty by exact Hdepth. reflexivity.
Qed.

Lemma interface_ext name (c1 c2 : Action unit) flag w :
  (forall w', c1 w' = c2 w') ->
  interface name c1 flag w = interface name c2 flag w.
Proof.
  intros H. unfold interface, mbind, Action_bind, bind.
  destruct (when _ _ w) as [[] w1 | |]; try reflexivity.
  now apply braces_ext.
Qed.

(** A resource with no methods and no nested resources is written as an
    empty interface; the only directive that may precede it is the one
    for the interface-name rule. *)
Lemma writeResource_bare params registry ns resourceName resource w :
  0 <= indent w ->
  default [] (methods resource) = [] ->
  default [] (resources resource) = [] ->
  let name := getResourceTypeName resourceName in
  writeResource params registry ns resourceName resource w
  = Normal [resourceName]
      (setOutput
         (output w
          ++ (if hasPrefixI name
              then indentOf w ++ js "// tslint:disable-next-line:interface-name"
                   ++ newLine
              else [])
          ++ indentOf w ++ (js "interface " ++ name ++ js " {") ++ newLine
          ++ indentOf w ++ js "}" ++ newLine) w).
Proof.
  intros Hdepth Hmethods Hresources. cbv zeta.
  destruct resource as [ms rs]. cbn [methods resources] in *.
  cbn [writeResource resources methods]. rewrite Hmethods.
  unfold supposedToBeEmpty. cbn [methods resources]. rewrite Hmethods.
  assert (Hchildren : rs = None \/ rs = Some []).
  { destruct rs as [[| r rest] |]; [now right | discriminate | now left]. }
  cbn [methodsOfNamespace lift length Z.of_nat Z.eqb andb negb forEach].
  destruct Hchildren as [-> | ->];
    (erewrite bind_normal by reflexivity; cbv beta;
     erewrite bind_normal by reflexivity; cbv beta;
     cbn [length]; change (Z.of_nat 0 =? 0) with true; cbn [negb andb];
     erewrite bind_normal;
     [ reflexivity
     | rewrite (interface_ext _ _ (ret tt)) by reflexivity;
       apply interface_bare; exact Hdepth ]).
Qed.

Lemma writeResource_unfold params registry ns resourceName resource :
  writeResource params registry ns resourceName resource
  = (match resources resource with
     | Some children =>
         forEach (fun entry : jsstring * RestResource =>
           writeResource params registry ns (fst entry) (snd entry);; ret tt)
           children
     | None => ret tt
     end;;
     inNamespace ← lift (methodsOfNamespace ns (default [] (methods resource)));
     if negb (supposedToBeEmpty resource)
        && (Z.of_nat (length inNamespace) =? 0)
     then ret []
     else
       interface (getResourceTypeName resourceName) (
         forEach (fun entry : jsstring * RestMethod =>
           writeMethod params registry (fst entry) (snd entry)) inNamespace;;
         match resources resource with
         | Some children =>
             forEach (fun entry : jsstring * RestResource =>
               property (fst entry) (Flat (getResourceTypeName (fst entry)))
                 true) children
         | None => ret tt
         end) false;;
       ret [resourceName]).
Proof.
  destruct resource as [ms rs]. cbn [writeResource resources].
  destruct rs as [children |]; [| reflexivity].
  f_equal.
  induction children as [| entry rest IH]; [reflexivity |].
  cbn [forEach]. rewrite <- IH. reflexivity.
Qed.

(** A resource that has methods or nested resources, none of its methods
    being of the namespace at hand, gets no interface in this pass: all
    that is written is what its nested resources write. *)
Lemma writeResource_skipped params registry ns resourceName resource w :
  supposedToBeEmpty resource = false ->
  methodsOfNamespace ns (default [] (methods resource)) = Ok [] ->
  writeResource params registry ns resourceName resource w
  = match match resources resource with
          | Some children =>
              forEach (fun entry : jsstring * RestResource =>
                writeResource params registry ns (fst entry) (snd entry);;
                ret tt) children
          | None => ret tt
          end w with
    | Normal _ w' => Normal [] w'
    | Throw e w' => Throw e w'
    | Unfinished => Unfinished
    end.
Proof.
  intros Hmembers Hnone. rewrite writeResource_unfold.
  rewrite Hnone, Hmembers. unfold mbind at 1. unfold Action_bind, bind at 1.
  match goal with
  | |- match ?run with _ => _ end = _ =>
      destruct run as [[] w' | e w' |]; reflexivity
  end.
Qed.

(** ** The depth discipline in the walker and in the stub-value generator *)

Lemma keepsDepth_lifted_getType registry schema
    (k : TypeRendering -> Action unit) :
  (forall ty, rendersInDepth ty -> keepsDepth (k ty)) ->
  keepsDepth (lift (getType schema registry) ≫= k).
Proof.
  intros Hk w Hw. pose proof (getType_keepsDepth registry schema) as H.
  destruct (getType schema registry) as [ty | e]; cbn [lift].
  - rewrite (bind_normal _ _ w ty w eq_refl). now apply Hk.
  - rewrite (bind_throw _ _ w e w eq_refl). lia.
Qed.

Lemma keepsDepth_parameterProperties registry params :
  keepsDepth (parameterProperties registry params).
Proof.
  apply keepsDepth_forEach. intros entry.
  apply keepsDepth_bind; [apply keepsDepth_when, keepsDepth_comment |].
  intros _. apply keepsDepth_lifted_getType.
  intros ty Hty. now apply keepsDepth_property.
Qed.

Lemma keepsDepth_createRequestParameterWriterCallback params registry bodyRef :
  keepsDepth (createRequestParameterWriterCallback params registry bodyRef).
Proof.
  apply keepsDepth_anonymousType.
  apply keepsDepth_bind; [apply keepsDepth_parameterProperties | intros _].
  apply keepsDepth_when.
  apply keepsDepth_bind; [apply keepsDepth_comment | intros _].
  now apply keepsDepth_property.
Qed.

Lemma keepsDepth_writeMethod params registry methodName m :
  keepsDepth (writeMethod params registry methodName m).
Proof.
  unfold writeMethod.
  apply keepsDepth_bind; [apply keepsDepth_when, keepsDepth_comment |].
  intros _. apply keepsDepth_bind; [| intros _]; apply keepsDepth_when;
    (apply keepsDepth_bind; [apply keepsDepth_lift | intros shortName];
     apply keepsDepth_bind; [apply keepsDepth_lift | intros returnType];
     apply keepsDepth_method;
     repeat (constructor;
             try apply keepsDepth_createRequestParameterWriterCallback)).
Qed.

Lemma RestResource_induction (P : RestResource -> Prop) :
  (forall resource,
     (forall children, resources resource = Some children ->
        Forall (fun entry => P (snd entry)) children) ->
     P resource) ->
  forall resource, P resource.
Proof.
  intros step. fix IH 1.
  intros [ms rs]. apply step; cbn.
  destruct rs as [children |]; intros x [= <-].
  induction children as [| entry rest IHrest]; constructor.
  - apply IH.
  - exact IHrest.
Qed.

Lemma keepsDepth_writeResource params registry ns resource :
  forall resourceName,
    keepsDepth (writeResource params registry ns resourceName resource).
Proof.
  induction resource as [resource IHchildren] using RestResource_induction.
  intros resourceName. rewrite writeResource_unfold.
  apply keepsDepth_bind.
  { destruct (resources resource) as [children |]; [| apply keepsDepth_ret].
    specialize (IHchildren children eq_refl).
    induction children as [| entry rest IHrest]; [apply keepsDepth_ret |].
    cbn [forEach]. apply keepsDepth_bind.
    - apply keepsDepth_bind; [apply (Forall_inv IHchildren) |].
      intros _. apply keepsDepth_ret.
    - intros _. apply IHrest. exact (Forall_inv_tail IHchildren). }
  intros _. apply keepsDepth_bind; [apply keepsDepth_lift | intros inNamespace].
  apply keepsDepth_if; [apply keepsDepth_ret |].
  apply keepsDepth_bind; [| intros _; apply keepsDepth_ret].
  apply keepsDepth_interface.
  apply keepsDepth_bind.
  - apply keepsDepth_forEach. intros entry. apply keepsDepth_writeMethod.
  - intros _. destruct (resources resource) as [children |];
      [| apply keepsDepth_ret].
    apply keepsDepth_forEach. intros entry. now apply keepsDepth_property.
Qed.

Lemma keepsDepth_stub_generator fuel api :
  (forall prop, keepsDepth (writePropertyValue fuel api prop))
  /\ (forall itemsSchema, keepsDepth (writeArray fuel api itemsSchema))
  /\ (forall object, keepsDepth (writeObject fuel api object))
  /\ (forall name, keepsDepth (writeSchemaRef fuel api name))
  /\ (forall record, keepsDepth (writeProperties fuel api record)).
Proof.
  induction fuel as [| fuel (IHvalue & IHarray & IHobject & IHref & IHprops)].
  { repeat split; intros; apply keepsDepth_cutOff. }
  split; [| split; [| split; [| split]]].
  - intros prop. cbn [writePropertyValue].
    repeat (apply keepsDepth_if; [apply keepsDepth_write |]).
    apply keepsDepth_if.
    { apply keepsDepth_bind; [apply keepsDepth_lift | intros it; apply IHarray]. }
    apply keepsDepth_if; [apply IHobject |].
    apply keepsDepth_if; [apply keepsDepth_write | apply keepsDepth_throw].
  - intros itemsSchema. cbn [writeArray].
    apply keepsDepth_bind; [apply keepsDepth_seenHas | intros seen].
    apply keepsDepth_if; [apply keepsDepth_write |].
    apply keepsDepth_scope.
    apply keepsDepth_bind; [apply keepsDepth_startIndentedLine | intros _].
    apply keepsDepth_if; [apply IHref | apply IHvalue].
  - intros object. cbn [writeObject].
    apply keepsDepth_bind; [apply keepsDepth_seenHas | intros seen].
    apply keepsDepth_if; [apply keepsDepth_write |].
    destruct (properties object) as [props |].
    { apply keepsDepth_scope, IHprops. }
    destruct (additionalProperties object) as [valueType |]; [| apply IHvalue].
    apply keepsDepth_scope.
    apply keepsDepth_bind; [apply keepsDepth_startIndentedLine | intros _].
    apply keepsDepth_if; [apply IHref | apply IHvalue].
  - intros name. cbn [writeSchemaRef].
    apply keepsDepth_bind; [apply keepsDepth_seenHas | intros seen].
    apply keepsDepth_if; [apply keepsDepth_write |].
    apply keepsDepth_bind; [apply keepsDepth_lift | intros registry].
    destruct (lookupSchema registry name) as [schema |];
      [| apply keepsDepth_throw].
    apply keepsDepth_bind; [apply keepsDepth_seenAdd | intros _].
    apply keepsDepth_bind; [apply IHobject | intros _].
    apply keepsDepth_seenDelete.
  - intros record. cbn [writeProperties].
    apply keepsDepth_forEach. intros [name param].
    apply keepsDepth_bind; [apply keepsDepth_startIndentedLine | intros _].
    apply keepsDepth_bind; [| intros _; apply keepsDepth_endLine].
    apply keepsDepth_if; [apply IHobject |].
    apply keepsDepth_if; [apply IHref | apply IHvalue].
Qed.

(** ** The step bound of the stub-value generator *)

Lemma settledBy_refl {A} (m : Action A) : settledBy m m.
Proof. intros w _. reflexivity. Qed.

Lemma settledBy_trans {A} (m1 m2 m3 : Action A) :
  settledBy m1 m2 -> settledBy m2 m3 -> settledBy m1 m3.
Proof.
  intros H12 H23 w Hw. rewrite <- (H12 w Hw). apply H23.
  now rewrite (H12 w Hw).
Qed.

Lemma settledBy_bind {A B} (m m' : Action A) (k k' : A -> Action B) :
  settledBy m m' -> (forall a, settledBy (k a) (k' a)) ->
  settledBy (m ≫= k) (m' ≫= k').
Proof.
  intros Hm Hk w. unfold mbind, Action_bind, bind. intros Hw.
  rewrite (Hm w) by (intros E; now rewrite E in Hw).
  destruct (m w) as [a w1 | e w1 |]; [| reflexivity | reflexivity].
  now apply Hk.
Qed.

Lemma settledBy_if {A} (b : bool) (m1 m1' m2 m2' : Action A) :
  settledBy m1 m1' -> settledBy m2 m2' ->
  settledBy (if b then m1 else m2) (if b then m1' else m2').
Proof. destruct b; auto. Qed.

Lemma settledBy_forEach {A} (f f' : A -> Action unit) xs :
  (forall x, settledBy (f x) (f' x)) ->
  settledBy (forEach f xs) (forEach f' xs).
Proof.
  intros H. induction xs as [| x rest IH]; [apply settledBy_refl |].
  cbn [forEach]. apply settledBy_bind; [apply H | intros _; exact IH].
Qed.

Lemma settledBy_scope context context' startTag endTag :
  settledBy context context' ->
  settledBy (scope context startTag endTag) (scope context' startTag endTag).
Proof.
  intros H. unfold scope.
  do 3 (apply settledBy_bind; [apply settledBy_refl | intros _]).
  apply settledBy_bind; [exact H | intros _; apply settledBy_refl].
Qed.

Lemma stub_generator_step fuel api :
  (forall prop, settledBy (writePropertyValue fuel api prop)
                          (writePropertyValue (S fuel) api prop))
  /\ (forall itemsSchema, settledBy (writeArray fuel api itemsSchema)
                                    (writeArray (S fuel) api itemsSchema))
  /\ (forall object, settledBy (writeObject fuel api object)
                               (writeObject (S fuel) api object))
  /\ (forall name, settledBy (writeSchemaRef fuel api name)
                             (writeSchemaRef (S fuel) api name))
  /\ (forall record, settledBy (writeProperties fuel api record)
                               (writeProperties (S fuel) api record)).
Proof.
  induction fuel as [| fuel (IHvalue & IHarray & IHobject & IHref & IHprops)].
  { repeat split; intros x w Hw; now contradiction Hw. }
  split; [| split; [| split; [| split]]].
  - intros prop.
    cbn [writePropertyValue].
    repeat (apply settledBy_if; [apply settledBy_refl |]).
    apply settledBy_if.
    { apply settledBy_bind; [apply settledBy_refl | intros it; apply IHarray]. }
    apply settledBy_if; [apply IHobject | apply settledBy_refl].
  - intros itemsSchema.
    cbn [writeArray].
    apply settledBy_bind; [apply settledBy_refl | intros seen].
    apply settledBy_if; [apply settledBy_refl |].
    apply settledBy_scope.
    apply settledBy_bind; [apply settledBy_refl | intros _].
    apply settledBy_if; [apply IHref | apply IHvalue].
  - intros object.
    cbn [writeObject].
    apply settledBy_bind; [apply settledBy_refl | intros seen].
    apply settledBy_if; [apply settledBy_refl |].
    destruct (properties object) as [props |].
    { apply settledBy_scope, IHprops. }
    destruct (additionalProperties object) as [valueType |]; [| apply IHvalue].
    apply settledBy_scope.
    apply settledBy_bind; [apply settledBy_refl | intros _].
    apply settledBy_if; [apply IHref | apply IHvalue].
  - intros name.
    cbn [writeSchemaRef].
    apply settledBy_bind; [apply settledBy_refl | intros seen].
    apply settledBy_if; [apply settledBy_refl |].
    apply settledBy_bind; [apply settledBy_refl | intros registry].
    destruct (lookupSchema registry name) as [schema |];
      [| apply settledBy_refl].
    apply settledBy_bind; [apply settledBy_refl | intros _].
    apply settledBy_bind; [apply IHobject | intros _; apply settledBy_refl].
  - intros record.
    cbn [writeProperties].
    apply settledBy_forEach. intros [name param].
    apply settledBy_bind; [apply settledBy_refl | intros _].
    apply settledBy_bind; [| intros _; apply settledBy_refl].
    apply settledBy_if; [apply IHobject |].
    apply settledBy_if; [apply IHref | apply IHvalue].
Qed.

(** A run of [writeSchemaRef] that was not cut off ends the same way under
    every larger bound. *)
Lemma writeSchemaRef_settled api name fuel extra :
  settledBy (writeSchemaRef fuel api name)
            (writeSchemaRef (extra + fuel) api name).
Proof.
  induction extra as [| extra IH]; [apply settledBy_refl |].
  eapply settledBy_trans; [exact IH |].
  apply (stub_generator_step (extra + fuel) api).
Qed.

(** * Further properties *)

(** ** Splitting and joining *)

Lemma join_cons sep p ps :
  ps <> [] -> join sep (p :: ps) = p ++ sep ++ join sep ps.
Proof. destruct ps; [congruence | reflexivity]. Qed.

Lemma join_splitChar sep s : join [sep] (splitChar sep s) = s.
Proof.
  induction s as [| c tl IH]; [reflexivity |].
  cbn [splitChar]. destruct (N.eqb_spec c sep) as [-> | Hne].
  - rewrite join_cons by apply splitChar_nonempty. now rewrite IH.
  - destruct (splitChar sep tl) as [| p ps] eqn:E;
      [now apply splitChar_nonempty in E |].
    cbn [consHead]. rewrite <- IH.
    destruct ps; reflexivity.
Qed.

Lemma splitChar_pieces_free sep s :
  Forall (sepFree sep) (splitChar sep s).
Proof.
  induction s as [| c tl IH]; [repeat constructor |].
  cbn [splitChar]. destruct (N.eqb c sep) eqn:E.
  - constructor; [reflexivity | exact IH].
  - destruct (splitChar sep tl) as [| p ps]; cbn [consHead].
    + repeat constructor. unfold sepFree. cbn. now rewrite E.
    + inversion IH as [| ? ? Hp Hps]; subst. constructor; [| exact Hps].
      unfold sepFree in *. cbn. now rewrite E.
Qed.

Lemma splitChar_app sep a b :
  splitChar sep (a ++ sep :: b) = splitChar sep a ++ splitChar sep b.
Proof.
  induction a as [| c a IH]; cbn [app splitChar].
  - now rewrite N.eqb_refl.
  - rewrite IH. destruct (N.eqb c sep); [reflexivity |].
    destruct (splitChar sep a) as [| p ps] eqn:E;
      [now apply splitChar_nonempty in E | reflexivity].
Qed.

Lemma splitChar_of_free sep s : sepFree sep s -> splitChar sep s = [s].
Proof.
  unfold sepFree. induction s as [| c tl IH]; [reflexivity |].
  cbn [forallb splitChar]. intros H. apply andb_prop in H as [Hc Htl].
  apply negb_true_iff in Hc. rewrite Hc, (IH Htl). reflexivity.
Qed.

Lemma sepFree_includesChar sep s :
  sepFree sep s -> includesChar sep s = false.
Proof.
  unfold sepFree, includesChar. induction s as [| c tl IH]; [reflexivity |].
  cbn [forallb existsb]. intros H. apply andb_prop in H as [Hc Htl].
  apply negb_true_iff in Hc. rewrite N.eqb_sym, Hc. now apply IH.
Qed.

(** ** [getName]: the last segment of a dotted name *)

(** X1.  [getName] answers [undefined] on the empty path only.  On any
    other path it answers the text after the last dot: a segment without a
    dot, at the end of the path, preceded by nothing or by a dot. *)
Theorem getName_last_segment (path : jsstring) :
  match getName (Some path) with
  | None => path = []
  | Some segment =>
      path <> []
      /\ includesChar 46 segment = false
      /\ exists prefix,
           path = prefix ++ segment
           /\ (prefix = [] \/ last prefix = Some 46%N)
  end.
Proof.
  destruct path as [| c tl]; [reflexivity |].
  unfold getName. cbn [truthy].
  pose proof (join_splitChar 46 (c :: tl)) as Hjoin.
  pose proof (splitChar_pieces_free 46 (c :: tl)) as Hfree.
  destruct (last (splitChar 46 (c :: tl))) as [segment |] eqn:Hlast.
  - apply last_Some in Hlast. destruct Hlast as [init Hinit].
    rewrite Hinit in Hjoin, Hfree.
    split; [discriminate | split].
    + apply sepFree_includesChar.
      apply Forall_app in Hfree as [_ Hseg]. now inversion Hseg.
    + clear Hfree Hinit. revert Hjoin. generalize (c :: tl) as s.
      induction init as [| p init IH]; intros s Hjoin.
      * exists []. split; [now rewrite <- Hjoin | now left].
      * rewrite <- app_comm_cons, join_cons in Hjoin
          by (destruct init; discriminate).
        destruct (IH _ eq_refl) as (prefix & Hprefix & Hdot).
        exists (p ++ [46%N] ++ prefix). split.
        -- rewrite <- Hjoin, Hprefix, <- !app_assoc. reflexivity.
        -- right. destruct Hdot as [-> | Hdot].
           ++ rewrite app_nil_r. now rewrite last_snoc.
           ++ rewrite app_assoc. rewrite last_app, Hdot. reflexivity.
  - apply last_None in Hlast. now apply splitChar_nonempty in Hlast.
Qed.

(** ** The merged parameters of a method *)

Lemma streq_refl (a : jsstring) : streq a a = true.
Proof. unfold streq. now apply bool_decide_eq_true_2. Qed.

Lemma assoc_assign {V} key key' (v : V) l :
  assoc key (assign key' v l)
  = if streq key' key then Some v else assoc key l.
Proof.
  induction l as [| [k old] rest IH]; cbn [assign assoc].
  - reflexivity.
  - destruct (decide (k = key')) as [-> | Hk].
    + rewrite (streq_refl key'). cbn [assoc].
      destruct (streq key' key); reflexivity.
    + rewrite (streq_ne _ _ Hk). cbn [assoc]. rewrite IH.
      destruct (decide (k = key)) as [-> | Hk'].
      * rewrite streq_refl, streq_ne by congruence. reflexivity.
      * rewrite (streq_ne _ _ Hk'). reflexivity.
Qed.

Lemma assoc_app {V} key (l1 l2 : list (jsstring * V)) :
  assoc key (l1 ++ l2)
  = match assoc key l1 with Some v => Some v | None => assoc key l2 end.
Proof.
  induction l1 as [| [k v] rest IH]; [reflexivity |].
  cbn [app assoc]. destruct (streq k key); [reflexivity | exact IH].
Qed.

Lemma assoc_fold_assign {V} key (l acc : list (jsstring * V)) :
  assoc key (fold_left (fun acc entry => assign (fst entry) (snd entry) acc)
               l acc)
  = match assoc key (rev l) with
    | Some v => Some v
    | None => assoc key acc
    end.
Proof.
  revert acc. induction l as [| [k v] rest IH]; intros acc; [reflexivity |].
  cbn [fold_left rev fst snd]. rewrite IH, assoc_app, assoc_assign.
  cbn [assoc]. destruct (assoc key (rev rest)); [reflexivity |].
  destruct (streq k key); reflexivity.
Qed.

Lemma assoc_absent {V} key (l : list (jsstring * V)) :
  ~ In key (List.map fst l) -> assoc key l = None.
Proof.
  induction l as [| [k v] rest IH]; [reflexivity |].
  cbn [List.map fst In assoc]. intros H.
  rewrite streq_ne by (intros ->; apply H; now left).
  apply IH. intros Hin. apply H. now right.
Qed.

Lemma assoc_rev {V} key (l : list (jsstring * V)) :
  List.NoDup (List.map fst l) -> assoc key (rev l) = assoc key l.
Proof.
  induction l as [| [k v] rest IH]; [reflexivity |].
  cbn [List.map fst]. intros Hnodup.
  apply List.NoDup_cons_iff in Hnodup as [Hfresh Hrest].
  cbn [rev assoc]. rewrite assoc_app, (IH Hrest). cbn [assoc].
  destruct (streq k key) eqn:E.
  - apply bool_decide_eq_true_1 in E. subst k.
    now rewrite (assoc_absent _ _ Hfresh).
  - destruct (assoc key rest); reflexivity.
Qed.

(** X2.  In [{...parameters, ...method.parameters}] a key of the method
    has the value the method gives it; any other key has the value of the
    shared parameters.  (Keys are unique in an object.) *)
Theorem spread_lookup {V} (shared own : list (jsstring * V)) (key : jsstring) :
  List.NoDup (List.map fst shared) ->
  List.NoDup (List.map fst own) ->
  assoc key (spread shared own)
  = match assoc key own with
    | Some v => Some v
    | None => assoc key shared
    end.
Proof.
  intros Hshared Hown. unfold spread.
  rewrite assoc_fold_assign, rev_app_distr, assoc_app.
  rewrite (assoc_rev _ _ Hown), (assoc_rev _ _ Hshared).
  destruct (assoc key own); [reflexivity |].
  destruct (assoc key shared); reflexivity.
Qed.

(** ** The word loop keeps the words *)

Lemma nonEmptyWords_app a b :
  nonEmptyWords (a ++ 32%N :: b) = nonEmptyWords a ++ nonEmptyWords b.
Proof. unfold nonEmptyWords. now rewrite splitChar_app, List.filter_app. Qed.

Lemma nonEmptyWords_word word :
  sepFree 32 word ->
  nonEmptyWords word = List.filter (fun w => negb (streq w [])) [word].
Proof. intros H. unfold nonEmptyWords. now rewrite splitChar_of_free. Qed.

Lemma wrapStep_words budget words :
  Forall (sepFree 32) words ->
  forall lines current lines' current',
    fold_left (wrapStep budget) words (lines, current) = (lines', current') ->
    concat (List.map nonEmptyWords (lines' ++ [current']))
    = concat (List.map nonEmptyWords (lines ++ [current]))
      ++ List.filter (fun w => negb (streq w [])) words.
Proof.
  induction 1 as [| word rest Hword Hrest IH];
    intros lines current lines' current' Hfold.
  - cbn in Hfold. injection Hfold as <- <-. now rewrite app_nil_r.
  - cbn [fold_left] in Hfold. unfold wrapStep at 2 in Hfold.
    change (word :: rest) with ([word] ++ rest). rewrite List.filter_app.
    rewrite <- (nonEmptyWords_word word Hword).
    destruct (strlen current + strlen (js " ") + strlen word >? budget).
    + rewrite (IH _ _ _ _ Hfold).
      rewrite !List.map_app, !concat_app. cbn [List.map concat].
      rewrite !app_nil_r, <- !app_assoc. reflexivity.
    + destruct (streq current []) eqn:E.
      * apply bool_decide_eq_true_1 in E. subst current.
        rewrite (IH _ _ _ _ Hfold).
        rewrite !List.map_app, !concat_app. cbn [List.map concat].
        rewrite !app_nil_r, <- !app_assoc. reflexivity.
      * rewrite (IH _ _ _ _ Hfold).
        rewrite !List.map_app, !concat_app. cbn [List.map concat].
        change (current ++ js " " ++ word) with (current ++ 32%N :: word).
        rewrite nonEmptyWords_app, !app_nil_r, <- !app_assoc. reflexivity.
Qed.

(** X3.  Wrapping a line loses no word, splits none and keeps their
    order: the words of the produced lines, one line after the other, are
    the words of the line. *)
Theorem wrapLine_keeps_words (budget : Z) (line : jsstring) :
  concat (List.map nonEmptyWords (wrapLine budget line)) = nonEmptyWords line.
Proof.
  unfold wrapLine. destruct (strlen line >? budget).
  - destruct (fold_left _ _ _) as [lines current] eqn:Hfold.
    rewrite (wrapStep_words budget _ (splitChar_pieces_free 32 line)
               _ _ _ _ Hfold).
    reflexivity.
  - cbn. apply app_nil_r.
Qed.

(** X4.  A line of a comment is within the width budget, unless it is
    empty or a single word of the text, which wrapping does not break. *)
Theorem comment_line_width (budget : Z) (text line : jsstring) :
  In line (commentLines budget text) ->
  strlen line <= budget
  \/ line = []
  \/ exists word,
       In word (concat (List.map (splitChar 32) (splitLines (trim text))))
       /\ line = normaliseSpaces (trim word).
Proof.
  rewrite commentLines_normalised. intros Hline.
  apply in_map_iff in Hline. destruct Hline as (trimmed & <- & Htrimmed).
  apply in_map_iff in Htrimmed. destruct Htrimmed as (produced & <- & Hprod).
  apply in_concat in Hprod. destruct Hprod as (chunk & Hchunk & Hprod).
  apply in_map_iff in Hchunk. destruct Hchunk as (source & <- & Hsource).
  destruct (wrapLine_lines _ _ _ Hprod) as [Hshort | [Hword | ->]].
  - left. rewrite strlen_normaliseSpaces.
    pose proof (strlen_trim produced). lia.
  - right. right. exists produced. split; [| reflexivity].
    apply in_concat. exists (splitChar 32 source). split; [| exact Hword].
    apply in_map_iff. eauto.
  - right. left. reflexivity.
Qed.

(** ** Comments: what is written, and what never is *)

Lemma includesChar_app c a b :
  includesChar c (a ++ b) = includesChar c a || includesChar c b.
Proof. unfold includesChar. apply existsb_app. Qed.

Lemma setOutput_same w : setOutput (output w ++ []) w = w.
Proof. rewrite app_nil_r. now destruct w. Qed.

Lemma setOutput_twice o o' w : setOutput o (setOutput o' w) = setOutput o w.
Proof. reflexivity. Qed.

Lemma indent_setOutput o w : indent (setOutput o w) = indent w.
Proof. reflexivity. Qed.

Lemma output_setOutput o w : output (setOutput o w) = o.
Proof. reflexivity. Qed.

Lemma hasCommentEnd_step x y s :
  hasCommentEnd (x :: y :: s)
  = (N.eqb x 42 && N.eqb y 47) || hasCommentEnd (y :: s).
Proof. reflexivity. Qed.

Lemma hasCommentEnd_app a b :
  hasCommentEnd (a ++ b)
  = hasCommentEnd a || hasCommentEnd b || (lastIs 42 a && headIs 47 b).
Proof.
  induction a as [| x a IH]; [cbn; now rewrite orb_false_r |].
  destruct a as [| y a'].
  - cbn [app hasCommentEnd]. unfold lastIs. cbn [last headIs].
    destruct b as [| d b']; cbn [headIs].
    + now rewrite andb_false_r.
    + destruct (N.eqb x 42 && N.eqb d 47), (hasCommentEnd (d :: b'));
        reflexivity.
  - change ((x :: y :: a') ++ b) with (x :: y :: (a' ++ b)).
    rewrite !hasCommentEnd_step.
    change (y :: (a' ++ b)) with ((y :: a') ++ b). rewrite IH.
    change (lastIs 42 (x :: y :: a')) with (lastIs 42 (y :: a')).
    now rewrite <- !orb_assoc.
Qed.

Lemma noCommentEnd_app a b :
  hasCommentEnd (a ++ b) = false ->
  hasCommentEnd a = false /\ hasCommentEnd b = false.
Proof.
  rewrite hasCommentEnd_app. intros H.
  apply orb_false_elim in H as [H _].
  now apply orb_false_elim in H.
Qed.

Lemma noCommentEnd_infix pre x suf :
  hasCommentEnd (pre ++ x ++ suf) = false -> hasCommentEnd x = false.
Proof.
  intros H. apply noCommentEnd_app in H as [_ H].
  now apply noCommentEnd_app in H as [H _].
Qed.

Lemma noCommentEnd_cons c s :
  hasCommentEnd s = false ->
  N.eqb c 42 && headIs 47 s = false ->
  hasCommentEnd (c :: s) = false.
Proof.
  intros Hs Hc. change (c :: s) with ([c] ++ s).
  rewrite hasCommentEnd_app, Hs. unfold lastIs. cbn [last hasCommentEnd orb].
  exact Hc.
Qed.

Lemma noCommentEnd_tail c s :
  hasCommentEnd (c :: s) = false ->
  hasCommentEnd s = false /\ N.eqb c 42 && headIs 47 s = false.
Proof.
  change (c :: s) with ([c] ++ s). rewrite hasCommentEnd_app.
  unfold lastIs. cbn [last hasCommentEnd orb]. intros H.
  now apply orb_false_elim in H.
Qed.

Lemma replaceCommentEnd_step zwj c d rest :
  replaceCommentEnd zwj (c :: d :: rest)
  = if N.eqb c 42 && N.eqb d 47
    then [42%N] ++ zwj ++ [47%N] ++ replaceCommentEnd zwj rest
    else c :: replaceCommentEnd zwj (d :: rest).
Proof. reflexivity. Qed.

Section Joiner.

(** A joiner that is not empty and holds neither a star nor a slash. *)
Variable joiner : jsstring.
Hypothesis joiner_not_empty : joiner <> [].
Hypothesis joiner_plain : Forall (fun c => c <> 42%N /\ c <> 47%N) joiner.

Lemma joiner_facts :
  hasCommentEnd joiner = false
  /\ headIs 47 joiner = false
  /\ lastIs 42 joiner = false.
Proof using joiner_plain.
  clear joiner_not_empty. revert joiner_plain. generalize joiner as z.
  induction 1 as [| c z [H42 H47] Hz (IHend & IHhead & IHlast)].
  - repeat split.
  - split; [| split].
    + apply noCommentEnd_cons; [exact IHend |].
      now rewrite (proj2 (N.eqb_neq c 42) H42).
    + cbn. now apply N.eqb_neq.
    + unfold lastIs in *. destruct z as [| d z'].
      * cbn. now apply N.eqb_neq.
      * exact IHlast.
Qed.

Lemma bracketed_by_joiner (before after : jsstring) :
  hasCommentEnd before = false ->
  hasCommentEnd after = false ->
  hasCommentEnd (before ++ joiner ++ after) = false.
Proof using joiner_not_empty joiner_plain.
  intros Hbefore Hafter.
  destruct joiner_facts as (Hend & Hhead & Hlast).
  rewrite !hasCommentEnd_app, Hbefore, Hend, Hafter, Hlast. cbn [orb andb].
  destruct joiner as [| c z] eqn:E; [congruence |].
  cbn [app headIs] in *. rewrite Hhead. now rewrite andb_false_r.
Qed.

Lemma replaceCommentEnd_safe n :
  forall s, (length s <= n)%nat ->
    hasCommentEnd (replaceCommentEnd joiner s) = false
    /\ headIs 47 (replaceCommentEnd joiner s) = headIs 47 s.
Proof using joiner_not_empty joiner_plain.
  induction n as [| n IH]; intros s Hlen.
  { destruct s; [now split | cbn in Hlen; lia]. }
  destruct s as [| c [| d rest]]; [now split | now split |].
  rewrite replaceCommentEnd_step.
  destruct (N.eqb c 42 && N.eqb d 47) eqn:E.
  - apply andb_prop in E as [Ec Ed]. apply N.eqb_eq in Ec. subst c.
    split; [| reflexivity].
    destruct (IH rest ltac:(cbn in Hlen; lia)) as [Hrest _].
    change ([42%N] ++ joiner ++ [47%N] ++ replaceCommentEnd joiner rest)
      with ([42%N] ++ joiner ++ (47%N :: replaceCommentEnd joiner rest)).
    apply bracketed_by_joiner; [reflexivity |].
    now apply noCommentEnd_cons.
  - destruct (IH (d :: rest) ltac:(cbn in Hlen |- *; lia)) as [Htl Hhead].
    split; [| reflexivity].
    apply noCommentEnd_cons; [exact Htl |].
    rewrite Hhead. exact E.
Qed.

Lemma escapeJsdocTags_safe s :
  hasCommentEnd s = false ->
  hasCommentEnd (escapeJsdocTags joiner s) = false
  /\ headIs 47 (escapeJsdocTags joiner s) = headIs 47 s.
Proof using joiner_not_empty joiner_plain.
  induction s as [| c tl IH]; [now split |].
  intros Hs. apply noCommentEnd_tail in Hs as [Htl Hc].
  destruct (IH Htl) as [IHend IHhead].
  cbn [escapeJsdocTags].
  destruct (N.eqb c 64 && existsb _ jsdocTags) eqn:E.
  - apply andb_prop in E as [Ec _]. apply N.eqb_eq in Ec. subst c.
    split; [| reflexivity].
    apply (bracketed_by_joiner [64%N]); [reflexivity | exact IHend].
  - split; [| reflexivity].
    apply noCommentEnd_cons; [exact IHend | now rewrite IHhead].
Qed.

End Joiner.

Lemma escapeComment_safe text :
  zeroWidthJoinerCharacter <> [] ->
  Forall (fun c => c <> 42%N /\ c <> 47%N) zeroWidthJoinerCharacter ->
  hasCommentEnd (escapeComment text) = false.
Proof.
  intros Hjoiner Hplain. unfold escapeComment.
  apply escapeJsdocTags_safe; [exact Hjoiner | exact Hplain |].
  now apply (replaceCommentEnd_safe _ Hjoiner Hplain (length text)).
Qed.

Lemma trimStart_suffix s : exists pre, s = pre ++ trimStart s.
Proof.
  induction s as [| c tl (pre & IH)]; [now exists [] |].
  cbn [trimStart]. destruct (isWhiteSpace c).
  - exists (c :: pre). cbn. now rewrite <- IH.
  - now exists [].
Qed.

Lemma trim_infix s : exists pre suf, s = pre ++ trim s ++ suf.
Proof.
  destruct (trimStart_suffix s) as [pre Hpre].
  destruct (trimStart_suffix (rev (trimStart s))) as [suf Hsuf].
  exists pre, (rev suf). unfold trim, trimEnd.
  rewrite <- rev_app_distr, <- Hsuf, rev_involutive. exact Hpre.
Qed.

Lemma splitLines_pieces n :
  forall s, (length s <= n)%nat ->
    (exists first rest suf, splitLines s = first :: rest /\ s = first ++ suf)
    /\ forall piece, In piece (splitLines s) ->
         exists pre suf, s = pre ++ piece ++ suf.
Proof.
  induction n as [| n IH]; intros s Hlen.
  { destruct s; [| cbn in Hlen; lia]. split.
    - now exists [], [], [].
    - intros piece [<- | []]. now exists [], []. }
  destruct s as [| c tl].
  { split.
    - now exists [], [], [].
    - intros piece [<- | []]. now exists [], []. }
  cbn [splitLines]. destruct (N.eqb c 10).
  { destruct (IH tl ltac:(cbn in Hlen; lia)) as [_ Hpieces]. split.
    - now exists [], (splitLines tl), (c :: tl).
    - intros piece [<- | Hin]; [now exists [], (c :: tl) |].
      destruct (Hpieces piece Hin) as (pre & suf & ->).
      now exists (c :: pre), suf. }
  destruct tl as [| d rest].
  { split.
    - now exists [c], [], [].
    - intros piece [<- | []]. now exists [], []. }
  destruct (N.eqb c 13 && N.eqb d 10).
  { destruct (IH rest ltac:(cbn in Hlen; lia)) as [_ Hpieces]. split.
    - now exists [], (splitLines rest), (c :: d :: rest).
    - intros piece [<- | Hin]; [now exists [], (c :: d :: rest) |].
      destruct (Hpieces piece Hin) as (pre & suf & ->).
      now exists (c :: d :: pre), suf. }
  destruct (IH (d :: rest) ltac:(cbn in Hlen |- *; lia))
    as [(first & others & suf & Hsplit & Hfirst) Hpieces].
  rewrite Hsplit in *. cbn [consHead]. split.
  - exists (c :: first), others, suf. split; [reflexivity |].
    cbn. now rewrite <- Hfirst.
  - intros piece [<- | Hin].
    + exists [], suf. cbn. now rewrite <- Hfirst.
    + destruct (Hpieces piece (or_intror Hin)) as (pre & suf' & Heq).
      exists (c :: pre), suf'. cbn. now rewrite <- Heq.
Qed.

Lemma join_piece_infix sep pieces piece :
  In piece pieces -> exists pre suf, join sep pieces = pre ++ piece ++ suf.
Proof.
  induction pieces as [| p ps IH]; [intros [] |].
  intros [<- | Hin].
  - destruct ps as [| q qs].
    + exists [], []. cbn. now rewrite app_nil_r.
    + exists [], (sep ++ join sep (q :: qs)). reflexivity.
  - destruct (IH Hin) as (pre & suf & Heq).
    rewrite join_cons by (destruct ps; [destruct Hin | discriminate]).
    exists (p ++ sep ++ pre), suf. rewrite Heq, <- !app_assoc. reflexivity.
Qed.

(** A property of strings that passes to the parts of a string, to two
    strings joined by a space and to a string with some characters made
    spaces passes from a text to the lines of its comment. *)
Section CleanLines.

Variable clean : jsstring -> Prop.
Hypothesis clean_nil : clean [].
Hypothesis clean_infix : forall pre x suf, clean (pre ++ x ++ suf) -> clean x.
Hypothesis clean_join : forall a b, clean a -> clean b -> clean (a ++ 32%N :: b).
Hypothesis clean_replace : forall c s, clean s -> clean (replaceChar c s).

Lemma wrapStep_clean budget words :
  Forall clean words ->
  forall lines current lines' current',
    fold_left (wrapStep budget) words (lines, current) = (lines', current') ->
    Forall clean (lines ++ [current]) ->
    Forall clean (lines' ++ [current']).
Proof using clean_join.
  induction 1 as [| word rest Hword Hrest IH];
    intros lines current lines' current' Hfold Hstate.
  - cbn in Hfold. now injection Hfold as <- <-.
  - cbn [fold_left] in Hfold. unfold wrapStep at 2 in Hfold.
    apply Forall_app in Hstate as [Hlines Hcurrent].
    destruct (strlen current + strlen (js " ") + strlen word >? budget).
    + apply (IH _ _ _ _ Hfold). apply Forall_app. split.
      * apply Forall_app. now split.
      * now repeat constructor.
    + destruct (streq current []).
      * apply (IH _ _ _ _ Hfold). apply Forall_app. split; [exact Hlines |].
        now repeat constructor.
      * apply (IH _ _ _ _ Hfold). apply Forall_app. split; [exact Hlines |].
        repeat constructor. inversion Hcurrent as [| ? ? Hc _]; subst.
        now apply clean_join.
Qed.

Lemma wrapLine_clean budget line :
  clean line -> Forall clean (wrapLine budget line).
Proof using clean_nil clean_infix clean_join.
  intros Hline. unfold wrapLine. destruct (strlen line >? budget).
  - destruct (fold_left _ _ _) as [lines current] eqn:Hfold.
    apply (wrapStep_clean budget (splitChar 32 line)) with (lines := [])
                                                         (current := []).
    + apply Forall_forall. intros word Hword.
      apply list_elem_of_In in Hword.
      destruct (join_piece_infix [32%N] _ _ Hword) as (pre & suf & Heq).
      rewrite join_splitChar in Heq. rewrite Heq in Hline.
      now apply clean_infix in Hline.
    + exact Hfold.
    + now repeat constructor.
  - now repeat constructor.
Qed.

Lemma normaliseSpaces_clean s : clean s -> clean (normaliseSpaces s).
Proof using clean_replace.
  unfold normaliseSpaces. generalize irregularSpaces as spaces.
  intros spaces. revert s.
  induction spaces as [| sp rest IH]; intros s Hs; [exact Hs |].
  cbn [fold_left]. now apply IH, clean_replace.
Qed.

(** From the lines of the text to the lines of the comment. *)
Lemma commentLines_clean_from budget text line :
  (forall source, In source (splitLines (trim text)) -> clean source) ->
  In line (commentLines budget text) -> clean line.
Proof using clean_nil clean_infix clean_join clean_replace.
  intros Hsources Hline.
  rewrite commentLines_normalised in Hline.
  apply in_map_iff in Hline. destruct Hline as (trimmed & <- & Htrimmed).
  apply in_map_iff in Htrimmed. destruct Htrimmed as (produced & <- & Hprod).
  apply in_concat in Hprod. destruct Hprod as (chunk & Hchunk & Hprod).
  apply in_map_iff in Hchunk. destruct Hchunk as (source & <- & Hsource).
  apply normaliseSpaces_clean.
  destruct (trim_infix produced) as (pre & suf & Hproduced).
  assert (Hp : clean produced).
  { pose proof (wrapLine_clean budget source) as Hwrap.
    rewrite Forall_forall in Hwrap.
    apply Hwrap; [| now apply list_elem_of_In].
    now apply Hsources. }
  rewrite Hproduced in Hp. now apply clean_infix in Hp.
Qed.

Lemma commentLines_clean budget text line :
  clean text -> In line (commentLines budget text) -> clean line.
Proof using clean_nil clean_infix clean_join clean_replace.
  intros Htext. apply commentLines_clean_from. intros source Hsource.
  destruct (splitLines_pieces _ (trim text) (le_n _)) as [_ Hpieces].
  destruct (Hpieces source Hsource) as (pre' & suf' & Heq).
  destruct (trim_infix text) as (p & q & Htrim).
  rewrite Htrim, Heq in Htext.
  apply clean_infix in Htext. now apply clean_infix in Htext.
Qed.

End CleanLines.

(** *** The lines of a comment, one by one *)

Lemma no_feed_cons c s :
  N.eqb c 10 = false -> includesChar 10 s = false ->
  includesChar 10 (c :: s) = false.
Proof.
  intros Hc Hs. change (includesChar 10 (c :: s))
    with (N.eqb 10 c || includesChar 10 s).
  now rewrite N.eqb_sym, Hc, Hs.
Qed.

Lemma no_feed_tail c s :
  includesChar 10 (c :: s) = false ->
  N.eqb c 10 = false /\ includesChar 10 s = false.
Proof.
  change (includesChar 10 (c :: s)) with (N.eqb 10 c || includesChar 10 s).
  intros H. apply orb_false_elim in H as [Hc Hs].
  now rewrite N.eqb_sym.
Qed.

Lemma splitLines_no_feed n :
  forall s, (length s <= n)%nat ->
    Forall (fun piece => includesChar 10 piece = false) (splitLines s).
Proof.
  induction n as [| n IH]; intros s Hlen.
  { destruct s; [now repeat constructor | cbn in Hlen; lia]. }
  destruct s as [| c tl]; [now repeat constructor |].
  cbn [splitLines]. destruct (N.eqb c 10) eqn:Hc.
  { constructor; [reflexivity | apply IH; cbn in Hlen; lia]. }
  destruct tl as [| d rest].
  { repeat constructor. now apply no_feed_cons. }
  destruct (N.eqb c 13 && N.eqb d 10).
  { constructor; [reflexivity | apply IH; cbn in Hlen; lia]. }
  specialize (IH (d :: rest) ltac:(cbn in Hlen |- *; lia)).
  destruct (splitLines (d :: rest)) as [| first others]; cbn [consHead].
  - repeat constructor. now apply no_feed_cons.
  - inversion IH as [| ? ? Hfirst Hothers]; subst.
    constructor; [| exact Hothers]. now apply no_feed_cons.
Qed.

Lemma replaceChar_no_feed c s :
  includesChar 10 s = false -> includesChar 10 (replaceChar c s) = false.
Proof.
  induction s as [| x tl IH]; [reflexivity |].
  intros H. apply no_feed_tail in H as [Hx Htl].
  unfold replaceChar. cbn [List.map]. fold (replaceChar c tl).
  apply no_feed_cons; [| now apply IH].
  destruct (N.eqb x c); [reflexivity | exact Hx].
Qed.

Lemma commentLines_no_feed budget text line :
  In line (commentLines budget text) -> includesChar 10 line = false.
Proof.
  apply (commentLines_clean_from (fun s => includesChar 10 s = false)).
  - reflexivity.
  - intros pre x suf H. rewrite !includesChar_app in H.
    apply orb_false_elim in H as [_ H]. now apply orb_false_elim in H.
  - intros a b Ha Hb. change (a ++ 32%N :: b) with (a ++ [32%N] ++ b).
    now rewrite !includesChar_app, Ha, Hb.
  - apply replaceChar_no_feed.
  - intros source Hsource.
    pose proof (splitLines_no_feed _ (trim text) (le_n _)) as Hall.
    rewrite Forall_forall in Hall. apply Hall. now apply list_elem_of_In.
Qed.

Lemma blockText_blockLines pre lines :
  blockText pre lines
  = concat (List.map (fun l => pre ++ l ++ newLine) (blockLines lines)).
Proof.
  destruct lines as [| l1 [| l2 rest]].
  - reflexivity.
  - cbn [blockText blockLines List.map concat]. now rewrite app_nil_r.
  - cbn [blockText blockLines].
    rewrite !List.map_app, !concat_app, List.map_map.
    cbn [List.map concat]. rewrite !app_nil_r, <- !app_assoc. reflexivity.
Qed.

Lemma blockLines_no_feed lines :
  Forall (fun l => includesChar 10 l = false) lines ->
  Forall (fun l => includesChar 10 l = false) (blockLines lines).
Proof.
  intros Hlines.
  assert (Hline : Forall (fun l => includesChar 10 l = false)
                    (List.map commentLineText lines)).
  { apply Forall_forall. intros l Hl. apply list_elem_of_In in Hl.
    apply in_map_iff in Hl as (line & <- & Hin).
    rewrite Forall_forall in Hlines.
    specialize (Hlines line ltac:(now apply list_elem_of_In)).
    destruct line as [| c line]; [reflexivity |].
    unfold commentLineText. now rewrite includesChar_app, Hlines. }
  destruct lines as [| l1 [| l2 rest]]; cbn [blockLines].
  - constructor.
  - repeat constructor. inversion Hlines as [| ? ? H1 _]; subst.
    now rewrite !includesChar_app, H1.
  - apply Forall_app. split; [now repeat constructor |].
    apply Forall_app. split; [exact Hline | now repeat constructor].
Qed.

(** X5.  At a depth that is not negative [comment] never throws, whatever
    the text: it completes, and what it appends to the output is a
    sequence of whole lines, each made of the indentation of the current
    depth, a text without a line feed in it, and a line feed.  The texts
    are the lines of the comment block, between the two markers when one
    of them is over the budget; for blank text there is none. *)
Theorem comment_appends_lines (text : jsstring) (w : World) :
  0 <= indent w ->
  comment text w
  = Normal tt
      (setOutput
         (output w
          ++ concat (List.map (fun l => indentOf w ++ l ++ newLine)
                       (writtenLines (indent w) text)))
         w)
  /\ Forall (fun l => includesChar 10 l = false)
       (writtenLines (indent w) text).
Proof.
  intros Hdepth. unfold writtenLines.
  destruct (decide (trim text = [])) as [Hblank | Hblank].
  - rewrite Hblank. change (streq [] []) with true. cbv iota. split.
    + rewrite (comment_blank text w Hblank). cbn [List.map concat].
      now rewrite setOutput_same.
    + constructor.
  - rewrite (streq_ne _ _ Hblank). cbv iota zeta. split.
    + rewrite (comment_unfold text w Hblank). cbv zeta.
      destruct (exceeds _ _); cbn [when].
      * erewrite bind_normal by (apply writeLine_normal; exact Hdepth).
        erewrite bind_normal by (apply commentBlock_text; exact Hdepth).
        rewrite writeLine_normal by exact Hdepth.
        unfold indentOf in *.
        rewrite !setOutput_twice, !indent_setOutput, !output_setOutput.
        rewrite blockText_blockLines.
        rewrite !List.map_app, !concat_app. cbn [List.map concat].
        rewrite !app_nil_r, <- !app_assoc. reflexivity.
      * erewrite bind_normal by reflexivity.
        erewrite bind_normal by (apply commentBlock_text; exact Hdepth).
        cbn [ret app]. rewrite app_nil_r. now rewrite blockText_blockLines.
    + assert (Hblock : Forall (fun l => includesChar 10 l = false)
                         (blockLines
                            (commentLines (commentBudget (indent w))
                               (escapeComment text)))).
      { apply blockLines_no_feed. apply Forall_forall. intros line Hline.
        apply list_elem_of_In in Hline.
        exact (commentLines_no_feed _ _ _ Hline). }
      destruct (exceeds _ _).
      * apply Forall_app. split; [now repeat constructor |].
        apply Forall_app. split; [exact Hblock | now repeat constructor].
      * cbn [app]. now rewrite app_nil_r.
Qed.

Lemma replaceChar_safe c s :
  hasCommentEnd s = false -> hasCommentEnd (replaceChar c s) = false.
Proof.
  induction s as [| x tl IH]; [reflexivity |].
  intros Hs. apply noCommentEnd_tail in Hs as [Htl Hx].
  unfold replaceChar. cbn [List.map]. fold (replaceChar c tl).
  apply noCommentEnd_cons; [now apply IH |].
  destruct (N.eqb x c); [reflexivity |].
  destruct (N.eqb x 42); [| reflexivity]. cbn [andb] in *.
  destruct tl as [| y tl']; [reflexivity |].
  cbn [headIs replaceChar List.map] in *.
  destruct (N.eqb y c); [reflexivity | exact Hx].
Qed.

Lemma noCommentEnd_join a b :
  hasCommentEnd a = false -> hasCommentEnd b = false ->
  hasCommentEnd (a ++ 32%N :: b) = false.
Proof.
  intros Ha Hb. rewrite hasCommentEnd_app, Ha.
  rewrite (noCommentEnd_cons 32 b Hb eq_refl).
  cbn [orb headIs]. now rewrite andb_false_r.
Qed.

(** X6.  With a joiner that is not empty and holds neither a star nor a
    slash, no line of a comment holds the end-of-comment sequence, whatever
    the text: the text cannot close the comment it is written in. *)
Theorem comment_lines_never_close (budget : Z) (text line : jsstring) :
  zeroWidthJoinerCharacter <> [] ->
  Forall (fun c => c <> 42%N /\ c <> 47%N) zeroWidthJoinerCharacter ->
  In line (commentLines budget (escapeComment text)) ->
  hasCommentEnd line = false.
Proof.
  intros Hjoiner Hplain.
  apply (commentLines_clean (fun s => hasCommentEnd s = false)).
  - reflexivity.
  - apply noCommentEnd_infix.
  - apply noCommentEnd_join.
  - apply replaceChar_safe.
  - now apply escapeComment_safe.
Qed.

(** *** The escaped tags *)

Lemma startsWith_spec p : forall s,
  startsWith p s = true <-> exists suf, s = p ++ suf.
Proof.
  induction p as [| a p IH]; intros s.
  - split; [intros _; now exists s | reflexivity].
  - destruct s as [| b s]; cbn [startsWith].
    + split; [discriminate | intros (suf & [=])].
    + rewrite andb_true_iff, IH, N.eqb_eq. split.
      * intros [-> (suf & ->)]. now exists suf.
      * intros (suf & [= -> ->]). split; [reflexivity | now exists suf].
Qed.

(** [hasJsdocTag] finds the occurrences of the tags. *)
Lemma hasJsdocTag_spec s :
  hasJsdocTag s = true <->
  exists tag pre suf, In tag jsdocTags /\ s = pre ++ (64%N :: tag) ++ suf.
Proof.
  induction s as [| c tl IH]; cbn [hasJsdocTag].
  - split; [discriminate |].
    intros (tag & pre & suf & _ & H). destruct pre; discriminate H.
  - rewrite orb_true_iff, andb_true_iff, IH, N.eqb_eq, existsb_exists. split.
    + intros [[-> (tag & Htag & Hstarts)] | (tag & pre & suf & Htag & ->)].
      * apply startsWith_spec in Hstarts as (suf & ->).
        now exists tag, [], suf.
      * now exists tag, (c :: pre), suf.
    + intros (tag & pre & suf & Htag & Heq). destruct pre as [| d pre].
      * injection Heq as -> ->. left. split; [reflexivity |].
        exists tag. split; [exact Htag |]. apply startsWith_spec. now exists suf.
      * injection Heq as -> ->. right. now exists tag, pre, suf.
Qed.

Lemma noJsdocTag_spec s :
  hasJsdocTag s = false <->
  forall tag pre suf, In tag jsdocTags -> s <> pre ++ (64%N :: tag) ++ suf.
Proof.
  rewrite <- not_true_iff_false, hasJsdocTag_spec. split.
  - intros Hnone tag pre suf Htag Heq. apply Hnone. now exists tag, pre, suf.
  - intros Hnone (tag & pre & suf & Htag & Heq). exact (Hnone _ _ _ Htag Heq).
Qed.

(** A pattern without [x] in a string cut at an [x] lies on one side. *)
Lemma prefix_before_separator (x : N) (p : jsstring) :
  ~ In x p ->
  forall a b suf, a ++ x :: b = p ++ suf -> exists suf', a = p ++ suf'.
Proof.
  induction p as [| y p IH]; intros Hx a b suf Heq; [now exists a |].
  destruct a as [| y' a].
  - injection Heq as -> _. contradiction Hx. now left.
  - injection Heq as -> Heq.
    destruct (IH (fun H => Hx (or_intror H)) a b suf Heq) as (suf' & ->).
    now exists suf'.
Qed.

Lemma occurrence_beside_separator (x : N) (p : jsstring) :
  ~ In x p ->
  forall pre a b suf, a ++ x :: b = pre ++ p ++ suf ->
    (exists suf', a = pre ++ p ++ suf') \/ (exists pre', b = pre' ++ p ++ suf).
Proof.
  intros Hx. induction pre as [| y pre IH]; intros a b suf Heq.
  - left. destruct (prefix_before_separator x p Hx a b suf Heq) as (suf' & ->).
    now exists suf'.
  - destruct a as [| y' a].
    + injection Heq as _ ->. right. now exists pre.
    + injection Heq as -> Heq.
      destruct (IH a b suf Heq) as [(suf' & ->) | Hright].
      * left. now exists suf'.
      * now right.
Qed.

Lemma tag_has_no_space tag :
  In tag jsdocTags -> ~ In 32%N (64%N :: tag).
Proof.
  intros Htag. unfold jsdocTags in Htag.
  repeat (destruct Htag as [<- | Htag]; [not_in_literals |]).
  destruct Htag.
Qed.

Lemma noJsdocTag_infix pre x suf :
  hasJsdocTag (pre ++ x ++ suf) = false -> hasJsdocTag x = false.
Proof.
  rewrite !noJsdocTag_spec. intros Hnone tag p q Htag ->.
  apply (Hnone tag (pre ++ p) (q ++ suf) Htag).
  now rewrite <- !app_assoc.
Qed.

Lemma noJsdocTag_join a b :
  hasJsdocTag a = false -> hasJsdocTag b = false ->
  hasJsdocTag (a ++ 32%N :: b) = false.
Proof.
  rewrite !noJsdocTag_spec. intros Ha Hb tag pre suf Htag Heq.
  pose proof (tag_has_no_space tag Htag) as Hspace.
  destruct (occurrence_beside_separator 32 _ Hspace pre a b suf Heq)
    as [(suf' & Hin) | (pre' & Hin)].
  - exact (Ha tag pre suf' Htag Hin).
  - exact (Hb tag pre' suf Htag Hin).
Qed.

Lemma replaceChar_occurrence c p :
  ~ In 32%N p ->
  forall s pre suf, replaceChar c s = pre ++ p ++ suf ->
    exists pre' suf', s = pre' ++ p ++ suf'.
Proof.
  intros Hspace s pre suf Heq. unfold replaceChar in Heq.
  apply List.map_eq_app in Heq as (pre' & rest & -> & _ & Heq).
  apply List.map_eq_app in Heq as (p' & suf' & -> & Hp & _).
  exists pre', suf'. f_equal. f_equal.
  clear -Hspace Hp. revert p Hspace Hp.
  induction p' as [| x p' IH]; intros [| y p] Hspace Hp; try discriminate Hp.
  - reflexivity.
  - injection Hp as Hy Hp. f_equal.
    + destruct (N.eqb x c); [| exact Hy].
      contradiction Hspace. left. symmetry. exact Hy.
    + apply IH; [| exact Hp]. intros H. apply Hspace. now right.
Qed.

Lemma noJsdocTag_replaceChar c s :
  hasJsdocTag s = false -> hasJsdocTag (replaceChar c s) = false.
Proof.
  rewrite !noJsdocTag_spec. intros Hs tag pre suf Htag Heq.
  pose proof (tag_has_no_space tag Htag) as Hspace.
  destruct (replaceChar_occurrence c _ Hspace s pre suf Heq)
    as (pre' & suf' & Hin).
  exact (Hs tag pre' suf' Htag Hin).
Qed.

Section TagJoiner.

(** A joiner that holds no [@] and starts with none of the first letters
    of the tags: [c], [t] and [p]. *)
Variable joiner : jsstring.
Hypothesis joiner_no_at : Forall (fun c => c <> 64%N) joiner.
Hypothesis joiner_head :
  exists c rest, joiner = c :: rest /\ c <> 99%N /\ c <> 116%N /\ c <> 112%N.

Lemma no_tag_at_joiner rest :
  existsb (fun tag => startsWith tag (joiner ++ rest)) jsdocTags = false.
Proof using joiner_head.
  clear joiner_no_at. destruct joiner_head as (c & z & -> & Hc & Ht & Hp).
  assert (Hne : forall a p, a <> c ->
            startsWith (a :: p) ((c :: z) ++ rest) = false).
  { intros a p Ha. cbn [app startsWith].
    now rewrite (proj2 (N.eqb_neq a c) Ha). }
  unfold jsdocTags. cbn [existsb].
  change (js "class") with (99%N :: js "lass").
  change (js "this") with (116%N :: js "his").
  change (js "type") with (116%N :: js "ype").
  change (js "property") with (112%N :: js "roperty").
  rewrite !Hne by congruence. reflexivity.
Qed.

Lemma hasJsdocTag_behind_joiner rest :
  hasJsdocTag (joiner ++ rest) = hasJsdocTag rest.
Proof using joiner_no_at.
  clear joiner_head. revert joiner_no_at. generalize joiner as z.
  induction 1 as [| c z Hc Hz IH]; [reflexivity |].
  cbn [app hasJsdocTag]. rewrite IH.
  now rewrite (proj2 (N.eqb_neq c 64) Hc).
Qed.

(** What starts with a tag after the escape started with it before. *)
Lemma startsWith_escaped tag :
  ~ In 64%N tag ->
  forall s, startsWith tag (escapeJsdocTags joiner s) = startsWith tag s.
Proof.
  induction tag as [| a tag IH]; intros Hat s; [reflexivity |].
  destruct s as [| c tl]; [reflexivity |].
  cbn [escapeJsdocTags].
  destruct (N.eqb c 64 && existsb _ jsdocTags) eqn:E.
  - apply andb_prop in E as [Ec _]. apply N.eqb_eq in Ec. subst c.
    cbn [app startsWith].
    assert (Ha : N.eqb a 64 = false).
    { apply N.eqb_neq. intros ->. apply Hat. now left. }
    now rewrite Ha.
  - cbn [startsWith]. rewrite IH; [reflexivity |].
    intros H. apply Hat. now right.
Qed.

Lemma escapeJsdocTags_no_tag s :
  hasJsdocTag (escapeJsdocTags joiner s) = false.
Proof using joiner_no_at joiner_head.
  induction s as [| c tl IH]; [reflexivity |].
  cbn [escapeJsdocTags].
  destruct (N.eqb c 64 && existsb _ jsdocTags) eqn:E.
  - change ([64%N] ++ joiner ++ escapeJsdocTags joiner tl)
      with (64%N :: (joiner ++ escapeJsdocTags joiner tl)).
    cbn [hasJsdocTag].
    rewrite no_tag_at_joiner, hasJsdocTag_behind_joiner, IH.
    now rewrite andb_false_r.
  - cbn [hasJsdocTag]. rewrite IH, orb_false_r.
    destruct (N.eqb c 64); [| reflexivity]. cbn [andb] in *.
    unfold jsdocTags in *. cbn [existsb] in *.
    rewrite !startsWith_escaped by not_in_literals. exact E.
Qed.

End TagJoiner.

(** X13.  With a joiner that holds no [@] and starts with none of the
    letters [c], [t] and [p], no line of a comment holds one of the tags
    [@class], [@this], [@type], [@typedef] and [@property], whatever the
    text: every such tag of the text has been split behind its [@]. *)
Theorem comment_lines_hold_no_tag (budget : Z) (text line : jsstring) :
  Forall (fun c => c <> 64%N) zeroWidthJoinerCharacter ->
  (exists c rest,
     zeroWidthJoinerCharacter = c :: rest
     /\ c <> 99%N /\ c <> 116%N /\ c <> 112%N) ->
  In line (commentLines budget (escapeComment text)) ->
  hasJsdocTag line = false.
Proof.
  intros Hat Hhead.
  apply (commentLines_clean (fun s => hasJsdocTag s = false)).
  - reflexivity.
  - apply noJsdocTag_infix.
  - apply noJsdocTag_join.
  - apply noJsdocTag_replaceChar.
  - unfold escapeComment. now apply escapeJsdocTags_no_tag.
Qed.

(** ** The text of a signature *)

Lemma separator_text (singleLine : bool) w :
  0 <= indent w ->
  (write (js ",");; if singleLine then write (js " ") else writeNewLine []) w
  = Normal tt (setOutput (output w ++ parameterSeparator singleLine w) w).
Proof.
  intros Hdepth. erewrite bind_normal by apply write_normal.
  unfold parameterSeparator. destruct singleLine.
  - rewrite write_normal, setOutput_twice, output_setOutput, <- app_assoc.
    reflexivity.
  - unfold writeNewLine, endIndentedLine.
    erewrite bind_normal by (apply indentation_normal; exact Hdepth).
    rewrite write_normal, setOutput_twice, output_setOutput, indent_setOutput.
    rewrite <- !app_assoc. reflexivity.
Qed.

Lemma method_parameters_text (params : list MethodParameter)
    (singleLine : bool) :
  forall xs index w,
    0 <= indent w ->
    Forall plainParameter xs ->
    (index + length xs = length params)%nat ->
    forEachIndexed (fun p index =>
      when (match parameterType p with
            | Flat token => includesBannedType token
            | Nested _ | Neither => false
            end) (writeNewLine ignoreBannedType);;
      write (parameter p ++ (if parameterRequired p then [] else js "?")
             ++ js ": ");;
      tsWrite (parameterType p);;
      when (Z.of_nat index + 1 <? Z.of_nat (length params))
        (write (js ",");;
         if singleLine then write (js " ") else writeNewLine []))
      index xs w
    = Normal tt
        (setOutput
           (output w
            ++ join (parameterSeparator singleLine w)
                 (List.map parameterText xs)) w).
Proof.
  induction xs as [| p rest IH]; intros index w Hdepth Hplain Hindex.
  - cbn. now rewrite setOutput_same.
  - inversion Hplain as [| ? ? Hp Hrest]; subst.
    cbn [forEachIndexed]. unfold plainParameter in Hp.
    assert (Hbody :
      exists w1, w1 = setOutput (output w ++ parameterText p) w
        /\ forall k : unit -> Action unit,
             ((when (match parameterType p with
                     | Flat token => includesBannedType token
                     | Nested _ | Neither => false
                     end) (writeNewLine ignoreBannedType);;
               write (parameter p
                      ++ (if parameterRequired p then [] else js "?")
                      ++ js ": ");;
               tsWrite (parameterType p);;
               when (Z.of_nat index + 1 <? Z.of_nat (length params))
                 (write (js ",");;
                  if singleLine then write (js " ") else writeNewLine []))
              ≫= k) w
             = (when (Z.of_nat index + 1 <? Z.of_nat (length params))
                  (write (js ",");;
                   if singleLine then write (js " ") else writeNewLine [])
                ≫= k) w1).
    { eexists. split; [reflexivity |]. intros k.
      unfold parameterText. destruct (parameterType p) as [token | |];
        [| contradiction | contradiction].
      rewrite Hp.
      replace (output w ++ (parameter p
                            ++ (if parameterRequired p then [] else js "?")
                            ++ js ": " ++ token))
        with ((output w ++ (parameter p
                            ++ (if parameterRequired p then [] else js "?")
                            ++ js ": ")) ++ token)
        by (rewrite <- !app_assoc; reflexivity).
      reflexivity. }
    destruct Hbody as (w1 & Hw1 & Hbody). rewrite Hbody. clear Hbody.
    assert (Hdepth1 : 0 <= indent w1) by now subst w1.
    destruct rest as [| q rest'].
    + cbn [length] in Hindex.
      replace (Z.of_nat index + 1 <? Z.of_nat (length params)) with false
        by (symmetry; apply Z.ltb_ge; lia).
      subst w1. cbn [List.map join]. reflexivity.
    + replace (Z.of_nat index + 1 <? Z.of_nat (length params)) with true
        by (symmetry; apply Z.ltb_lt; cbn [length] in Hindex; lia).
      cbn [when]. erewrite bind_normal by (apply separator_text; exact Hdepth1).
      rewrite IH; [| now subst w1 | exact Hrest
                   | cbn [length] in Hindex |- *; lia].
      subst w1. unfold parameterSeparator, indentOf.
      rewrite !setOutput_twice, !output_setOutput, !indent_setOutput.
      change (List.map parameterText (p :: q :: rest'))
        with (parameterText p :: List.map parameterText (q :: rest')).
      rewrite join_cons by discriminate.
      rewrite <- !app_assoc. reflexivity.
Qed.

(** X7.  The text of a signature.  For parameters whose types are tokens,
    with no banned type among them or in the return type, [method] at a
    depth that is not negative appends exactly one signature: the
    indentation, the name, the bracketed parameters, each as
    [name: type] with a question mark after the name of an optional one,
    the return type, a semicolon and a line feed.  The parameters are
    separated by a comma and a space on a single line, and otherwise by a
    comma, a line feed and the indentation of the signature itself: the
    continuation lines are not indented any deeper. *)
Theorem method_signature_text (name : jsstring)
    (params : list MethodParameter) (returnType : jsstring)
    (singleLine : bool) (w : World) :
  0 <= indent w ->
  Forall plainParameter params ->
  includesBannedType returnType = false ->
  method name params returnType singleLine w
  = Normal tt
      (setOutput
         (output w ++ indentOf w ++ name ++ js "("
          ++ join (parameterSeparator singleLine w)
               (List.map parameterText params)
          ++ js "): " ++ returnType ++ js ";" ++ newLine) w).
Proof.
  intros Hdepth Hplain Hreturn. unfold method. cbv zeta. rewrite Hreturn.
  rewrite !andb_false_r. cbn [when].
  erewrite bind_normal by reflexivity.
  erewrite bind_normal by (apply startIndentedLine_normal; exact Hdepth).
  erewrite bind_normal
    by (apply method_parameters_text; [exact Hdepth | exact Hplain | reflexivity]).
  erewrite bind_normal by reflexivity.
  erewrite bind_normal by apply write_normal.
  unfold endLine. erewrite bind_normal by apply write_normal.
  rewrite write_normal. unfold parameterSeparator, indentOf.
  rewrite !setOutput_twice, !output_setOutput, !indent_setOutput.
  rewrite app_nil_r, <- !app_assoc. reflexivity.
Qed.

(** ** The stub-value generator: when it settles *)

Lemma typeIs_exclusive t (name other : string) :
  typeIs t name = true -> js other <> js name -> typeIs t other = false.
Proof.
  unfold typeIs. intros H Hne. apply bool_decide_eq_true_1 in H.
  apply bool_decide_eq_false_2. rewrite H. intros [= E]. now apply Hne.
Qed.

Lemma bareObject_fields t :
  bareObject t = true ->
  typeIs t "object" = true /\ properties t = None
  /\ additionalProperties t = None.
Proof.
  unfold bareObject. intros H.
  apply andb_prop in H as [H Hvalue]. apply andb_prop in H as [Htype Hprops].
  destruct (properties t); [discriminate |].
  destruct (additionalProperties t); [discriminate |]. now repeat split.
Qed.

(** X8.  A bare object node, of type [object] with neither [properties]
    nor [additionalProperties], is never settled by the stub-value
    generator: [writePropertyValue] hands it to [writeObject], which hands
    it back to [writePropertyValue], and so on under every bound, whatever
    the registry and the state.  Nothing is written on the way. *)
Theorem bare_object_never_settles (fuel : nat) (api : RestDescription)
    (t : JsonSchema) (w : World) :
  bareObject t = true ->
  writePropertyValue fuel api t w = Unfinished
  /\ writeObject fuel api t w = Unfinished.
Proof.
  intros Hbare. apply bareObject_fields in Hbare as (Htype & Hprops & Hvalue).
  revert w. induction fuel as [| fuel IH]; intros w; [now split |].
  split.
  - cbn [writePropertyValue].
    rewrite (typeIs_exclusive t "object" "number" Htype) by discriminate.
    rewrite (typeIs_exclusive t "object" "integer" Htype) by discriminate.
    rewrite (typeIs_exclusive t "object" "boolean" Htype) by discriminate.
    rewrite (typeIs_exclusive t "object" "string" Htype) by discriminate.
    rewrite (typeIs_exclusive t "object" "array" Htype) by discriminate.
    rewrite Htype. cbn [orb]. apply IH.
  - cbn [writeObject]. rewrite Hprops, Hvalue. cbv zeta.
    erewrite bind_normal by reflexivity. cbn. apply IH.
Qed.

Section Settling.

Variable api : RestDescription.
Variable n : nat.

Lemma settles_ret {A} (a : A) : settlesAt api n (ret a).
Proof. intros w _. reflexivity. Qed.

Lemma settles_throw {A} e : settlesAt api n (@throw A e).
Proof. intros w _. exact I. Qed.

Lemma settles_lift {A} (r : Result A) : settlesAt api n (lift r).
Proof. intros w _. destruct r; [reflexivity | exact I]. Qed.

Lemma settles_write chunk : settlesAt api n (write chunk).
Proof. intros w _. reflexivity. Qed.

Lemma settles_seenHas name : settlesAt api n (seenHas name).
Proof. intros w _. reflexivity. Qed.

Lemma settles_indentIncr : settlesAt api n indentIncr.
Proof. intros w _. reflexivity. Qed.

Lemma settles_indentDecr : settlesAt api n indentDecr.
Proof. intros w _. reflexivity. Qed.

Lemma settles_bind {A B} (m : Action A) (k : A -> Action B) :
  settlesAt api n m -> (forall a, settlesAt api n (k a)) ->
  settlesAt api n (m ≫= k).
Proof.
  intros Hm Hk w Hw. specialize (Hm w Hw).
  destruct (m w) as [a w' | e w' |] eqn:E.
  - rewrite (bind_normal _ _ _ _ _ E).
    assert (Hw' : (unseen api w' <= n)%nat) by (unfold unseen; now rewrite Hm).
    specialize (Hk a w' Hw').
    destruct (k a w'); [now rewrite Hk | exact I | exact Hk].
  - now rewrite (bind_throw _ _ _ _ _ E).
  - contradiction.
Qed.

Lemma settles_startIndentedLine chunk :
  settlesAt api n (startIndentedLine chunk).
Proof.
  apply settles_bind; [| intros pre; apply settles_write].
  intros w _. unfold indentation. now destruct (arrayJoin _ _).
Qed.

Lemma settles_endLine chunk : settlesAt api n (endLine chunk).
Proof. apply settles_bind; [| intros _]; apply settles_write. Qed.

Lemma settles_scope context startTag endTag :
  settlesAt api n context -> settlesAt api n (scope context startTag endTag).
Proof.
  intros H. unfold scope.
  apply settles_bind; [apply settles_write | intros _].
  apply settles_bind; [apply settles_write | intros _].
  apply settles_bind; [apply settles_indentIncr | intros _].
  apply settles_bind; [exact H | intros _].
  apply settles_bind; [apply settles_indentDecr | intros _].
  apply settles_startIndentedLine.
Qed.

Lemma settles_forEach {A} (f : A -> Action unit) xs :
  Forall (fun x => settlesAt api n (f x)) xs -> settlesAt api n (forEach f xs).
Proof.
  induction 1 as [| x rest Hx Hrest IH]; [apply settles_ret |].
  cbn [forEach]. apply settles_bind; [exact Hx | intros _; exact IH].
Qed.

Lemma settles_bind_lift {A B} (r : Result A) (k : A -> Action B) :
  (forall a, r = Ok a -> settlesAt api n (k a)) ->
  settlesAt api n (lift r ≫= k).
Proof.
  intros Hk. destruct r as [a | e].
  - intros w Hw. erewrite bind_normal by reflexivity. now apply Hk.
  - intros w _. exact I.
Qed.

(** One round of each of the five methods. *)
Lemma writePropertyValue_settles fuel t :
  (forall itemsSchema, items t = Some itemsSchema ->
     settlesAt api n (writeArray fuel api itemsSchema)) ->
  (typeIs t "object" = true -> settlesAt api n (writeObject fuel api t)) ->
  settlesAt api n (writePropertyValue (S fuel) api t).
Proof.
  intros Hitems Hobject. cbn [writePropertyValue].
  destruct (_ || _); [apply settles_write |].
  destruct (typeIs t "boolean"); [apply settles_write |].
  destruct (typeIs t "string"); [apply settles_write |].
  destruct (typeIs t "array").
  { apply settles_bind_lift. intros it Hit. apply Hitems.
    destruct (items t); [now injection Hit as -> | discriminate Hit]. }
  destruct (typeIs t "object"); [now apply Hobject |].
  destruct (typeIs t "any"); [apply settles_write | apply settles_throw].
Qed.

Lemma writeArray_settles fuel t :
  (forall name, settlesAt api n (writeSchemaRef fuel api name)) ->
  settlesAt api n (writePropertyValue fuel api t) ->
  settlesAt api n (writeArray (S fuel) api t).
Proof.
  intros Href Hvalue. cbn [writeArray]. cbv zeta.
  apply settles_bind; [apply settles_seenHas | intros seen].
  destruct (_ && _); [apply settles_write |].
  apply settles_scope.
  apply settles_bind; [apply settles_startIndentedLine | intros _].
  destruct (truthy (ref t)); [apply Href | exact Hvalue].
Qed.

Lemma writeObject_settles fuel t :
  (forall name, settlesAt api n (writeSchemaRef fuel api name)) ->
  (forall props, properties t = Some props ->
     settlesAt api n (writeProperties fuel api props)) ->
  (forall valueType, additionalProperties t = Some valueType ->
     settlesAt api n (writePropertyValue fuel api valueType)) ->
  (properties t = None -> additionalProperties t = None ->
   settlesAt api n (writePropertyValue fuel api t)) ->
  settlesAt api n (writeObject (S fuel) api t).
Proof.
  intros Href Hprops Hvalue Hself. cbn [writeObject]. cbv zeta.
  apply settles_bind; [apply settles_seenHas | intros seen].
  destruct (_ && _); [apply settles_write |].
  destruct (properties t) as [props |].
  { apply settles_scope. now apply Hprops. }
  destruct (additionalProperties t) as [valueType |]; [| now apply Hself].
  apply settles_scope.
  apply settles_bind; [apply settles_startIndentedLine | intros _].
  destruct (truthy _); [apply Href | now apply Hvalue].
Qed.

Lemma writeProperties_settles fuel props :
  (forall name, settlesAt api n (writeSchemaRef fuel api name)) ->
  Forall (fun entry : jsstring * JsonSchema =>
            settlesAt api n (writeObject fuel api (snd entry))
            /\ settlesAt api n (writePropertyValue fuel api (snd entry)))
    props ->
  settlesAt api n (writeProperties (S fuel) api props).
Proof.
  intros Href Hprops. cbn [writeProperties]. apply settles_forEach.
  eapply Forall_impl; [exact Hprops |].
  intros [name param] [Hobject Hvalue]. cbn [snd] in *.
  apply settles_bind; [apply settles_startIndentedLine | intros _].
  apply settles_bind; [| intros _; apply settles_endLine].
  destruct (typeIs param "object"); [exact Hobject |].
  destruct (truthy (ref param)); [apply Href | exact Hvalue].
Qed.

Lemma unseen_after_push name w :
  name ∉ seenSchemaRefs w ->
  is_Some (registryOf api !! name) ->
  (unseen api (setSeen ({[name]} ∪ seenSchemaRefs w) w) < unseen api w)%nat.
Proof.
  intros Hfresh Hknown. unfold unseen. cbn [seenSchemaRefs setSeen].
  apply subset_size. split.
  - intros x. rewrite !elem_of_difference, elem_of_union.
    intros [Hx Hnot]. split; [exact Hx |]. intros Hseen. apply Hnot.
    now right.
  - intros Hsub. assert (Hin : name ∈ dom (registryOf api) ∖ seenSchemaRefs w).
    { apply elem_of_difference. split; [now apply elem_of_dom | exact Hfresh]. }
    apply Hsub in Hin. apply elem_of_difference in Hin as [_ Hnot].
    apply Hnot, elem_of_union. left. now apply elem_of_singleton.
Qed.

(** An inherited member is expanded as a schema without a type. *)
Lemma writeObject_member fuel w :
  writeObject (S (S fuel)) api memberAsSchema w
  = Throw (Error (js "Unknown scalar type undefined")) w.
Proof. reflexivity. Qed.

Lemma writeSchemaRef_settles fuel :
  (2 <= fuel)%nat ->
  (forall name schema m,
     registryOf api !! name = Some schema -> S m = n ->
     forall w, (unseen api w <= m)%nat ->
       match writeObject fuel api schema w with
       | Normal _ w' => seenSchemaRefs w' = seenSchemaRefs w
       | Throw _ _ => True
       | Unfinished => False
       end) ->
  forall name, settlesAt api n (writeSchemaRef (S fuel) api name).
Proof.
  intros Hfuel Hobject name w Hw. cbn [writeSchemaRef].
  erewrite bind_normal by reflexivity.
  destruct (bool_decide (name ∈ seenSchemaRefs w)) eqn:Hseen; [reflexivity |].
  apply bool_decide_eq_false_1 in Hseen.
  unfold registryOf in *.
  destruct (schemas api) as [registry |] eqn:Hschemas; [| exact I].
  erewrite bind_normal by reflexivity. cbn [default] in *.
  unfold lookupSchema.
  destruct (registry !! name) as [schema |] eqn:Hlookup.
  2: { destruct (inherited name) as [member |]; [| exact I].
       erewrite bind_normal by reflexivity.
       destruct fuel as [| [| fuel']]; [lia | lia |].
       erewrite bind_throw by apply writeObject_member. exact I. }
  erewrite bind_normal by reflexivity.
  assert (Hless : (unseen api (setSeen ({[name]} ∪ seenSchemaRefs w) w)
                   < unseen api w)%nat).
  { apply unseen_after_push; [exact Hseen |].
    unfold registryOf. rewrite Hschemas.
    change (is_Some (registry !! name)). now rewrite Hlookup. }
  destruct n as [| m]; [lia |].
  specialize (Hobject name schema m Hlookup eq_refl
                (setSeen ({[name]} ∪ seenSchemaRefs w) w) ltac:(lia)).
  destruct (writeObject fuel api schema _) as [[] w' | e w' |] eqn:E.
  - rewrite (bind_normal _ _ _ _ _ E). cbn [seenDelete seenSchemaRefs setSeen].
    rewrite Hobject. cbn [seenSchemaRefs setSeen].
    now apply pop_after_push.
  - now rewrite (bind_throw _ _ _ _ _ E).
  - contradiction.
Qed.

End Settling.

Lemma noBareObject_fields t :
  noBareObject t = true ->
  bareObject t = false
  /\ (forall itemsSchema, items t = Some itemsSchema ->
        noBareObject itemsSchema = true)
  /\ (forall props, properties t = Some props ->
        Forall (fun entry => noBareObject (snd entry) = true) props)
  /\ (forall valueType, additionalProperties t = Some valueType ->
        noBareObject valueType = true).
Proof.
  destruct t as [ty rf it props ap rep req descr].
  cbn [noBareObject items properties additionalProperties]. intros H.
  apply andb_prop in H as [H Hvalue]. apply andb_prop in H as [H Hprops].
  apply andb_prop in H as [Hbare Hitems].
  split; [now apply negb_true_iff in Hbare |].
  split; [| split].
  - intros x [= ->]. exact Hitems.
  - intros x [= ->]. clear Hbare Hitems Hvalue.
    induction x as [| entry rest IH]; constructor;
      apply andb_prop in Hprops as [Hentry Hrest].
    + exact Hentry.
    + apply IH. exact Hrest.
  - intros x [= ->]. exact Hvalue.
Qed.

(** A bound for each entry of a list gives one bound for all of them. *)
Lemma common_bound {A} (Q : nat -> A -> Prop) (l : list A) :
  Forall (fun x => exists fuel, forall f, (fuel <= f)%nat -> Q f x) l ->
  exists fuel, forall f, (fuel <= f)%nat -> Forall (Q f) l.
Proof.
  induction 1 as [| x rest [fx Hx] _ [frest Hrest]].
  - exists O. constructor.
  - exists (fx + frest)%nat. intros f Hf. constructor.
    + apply Hx. lia.
    + apply Hrest. lia.
Qed.

(** The same for the schemas of a registry. *)
Lemma registry_bound (Q : nat -> JsonSchema -> Prop)
    (registry : gmap jsstring JsonSchema) :
  (forall name schema, registry !! name = Some schema ->
     exists fuel, forall f, (fuel <= f)%nat -> Q f schema) ->
  exists fuel, forall f, (fuel <= f)%nat ->
    forall name schema, registry !! name = Some schema -> Q f schema.
Proof.
  induction registry as [| name schema registry Hfresh IH] using map_ind.
  - intros _. exists O. intros f _ name schema Hlookup.
    now rewrite lookup_empty in Hlookup.
  - intros Hall.
    destruct (Hall name schema (lookup_insert_eq _ _ _)) as [fx Hx].
    destruct IH as [frest Hrest].
    { intros other s Hlookup. apply (Hall other).
      rewrite lookup_insert_ne; [exact Hlookup |].
      intros <-. rewrite Hfresh in Hlookup. discriminate. }
    exists (fx + frest)%nat. intros f Hf other s Hlookup.
    apply lookup_insert_Some in Hlookup as [[_ <-] | [_ Hlookup]].
    + apply Hx. lia.
    + apply (Hrest f ltac:(lia) other). exact Hlookup.
Qed.

(** With a bound for [writeSchemaRef] at [n], every schema free of bare
    objects has a bound for the calls that take it. *)
Lemma schema_settles api n :
  (exists fuel, forall f, (fuel <= f)%nat ->
     forall name, settlesAt api n (writeSchemaRef f api name)) ->
  forall t, noBareObject t = true ->
    exists fuel, forall f, (fuel <= f)%nat ->
      settlesAt api n (writePropertyValue f api t)
      /\ settlesAt api n (writeObject f api t)
      /\ settlesAt api n (writeArray f api t).
Proof.
  intros [fuelRef Href].
  induction t as [t IHitems IHprops IHvalue] using JsonSchema_induction.
  intros Hfree.
  apply noBareObject_fields in Hfree as (Hbare & Hitems & Hprops & Hvalue).
  assert (HI : exists fuel, forall f, (fuel <= f)%nat ->
            forall itemsSchema, items t = Some itemsSchema ->
              settlesAt api n (writeArray f api itemsSchema)).
  { destruct (items t) as [it |]; [| exists O; intros f _ x [=]].
    destruct (IHitems it eq_refl (Hitems it eq_refl)) as [fuel H].
    exists fuel. intros f Hf x [= <-]. now apply H. }
  assert (HP : exists fuel, forall f, (fuel <= f)%nat ->
            forall props, properties t = Some props ->
              settlesAt api n (writeProperties f api props)).
  { destruct (properties t) as [props |]; [| exists O; intros f _ x [=]].
    specialize (IHprops props eq_refl). specialize (Hprops props eq_refl).
    destruct (common_bound
                (fun f (entry : jsstring * JsonSchema) =>
                   settlesAt api n (writeObject f api (snd entry))
                   /\ settlesAt api n (writePropertyValue f api (snd entry)))
                props) as [fuel H].
    { rewrite Forall_forall in IHprops, Hprops. apply Forall_forall.
      intros entry Hentry.
      destruct (IHprops entry Hentry (Hprops entry Hentry)) as [fuel H].
      exists fuel. intros f Hf. destruct (H f Hf) as (Hv & Ho & _).
      now split. }
    exists (S (fuelRef + fuel)). intros f Hf x [= <-].
    destruct f as [| f]; [lia |].
    apply writeProperties_settles; [apply Href; lia | apply H; lia]. }
  assert (HV : exists fuel, forall f, (fuel <= f)%nat ->
            forall valueType, additionalProperties t = Some valueType ->
              settlesAt api n (writePropertyValue f api valueType)).
  { destruct (additionalProperties t) as [vt |]; [| exists O; intros f _ x [=]].
    destruct (IHvalue vt eq_refl (Hvalue vt eq_refl)) as [fuel H].
    exists fuel. intros f Hf x [= <-]. now apply H. }
  destruct HI as [fuelItems HI], HP as [fuelProps HP], HV as [fuelValue HV].
  set (bound := (fuelRef + fuelItems + fuelProps + fuelValue)%nat).
  assert (Hscalar : forall f, (bound + 1 <= f)%nat ->
            typeIs t "object" = false ->
            settlesAt api n (writePropertyValue f api t)).
  { intros [| f] Hf Htype; [lia |].
    apply writePropertyValue_settles.
    - intros it Hit. apply HI; [lia | exact Hit].
    - rewrite Htype. discriminate. }
  assert (Hobject : forall f, (bound + 2 <= f)%nat ->
            settlesAt api n (writeObject f api t)).
  { intros [| f] Hf; [lia |].
    apply writeObject_settles.
    - apply Href. lia.
    - intros props Hp. apply HP; [lia | exact Hp].
    - intros vt Hvt. apply HV; [lia | exact Hvt].
    - intros Hp Hvt. apply Hscalar; [lia |].
      unfold bareObject in Hbare. rewrite Hp, Hvt in Hbare.
      now rewrite !andb_true_r in Hbare. }
  assert (Hany : forall f, (bound + 3 <= f)%nat ->
            settlesAt api n (writePropertyValue f api t)).
  { intros [| f] Hf; [lia |].
    apply writePropertyValue_settles.
    - intros it Hit. apply HI; [lia | exact Hit].
    - intros _. apply Hobject. lia. }
  exists (bound + 4)%nat. intros f Hf. split; [| split].
  - apply Hany. lia.
  - apply Hobject. lia.
  - destruct f as [| f]; [lia |].
    apply writeArray_settles; [apply Href | apply Hany]; lia.
Qed.

Lemma writeSchemaRef_bound api :
  (forall name schema, registryOf api !! name = Some schema ->
     noBareObject schema = true) ->
  forall n, exists fuel, forall f, (fuel <= f)%nat ->
    forall name, settlesAt api n (writeSchemaRef f api name).
Proof.
  intros Hfree. induction n as [| m IH].
  - exists 3%nat. intros [| f] Hf name; [lia |].
    apply writeSchemaRef_settles; [lia |]. intros ? ? ? _ [=].
  - destruct (registry_bound
                (fun f schema => settlesAt api m (writeObject f api schema))
                (registryOf api)) as [fuel Hobject].
    { intros name schema Hlookup.
      destruct (schema_settles api m IH schema (Hfree name schema Hlookup))
        as [fuel H].
      exists fuel. intros f Hf. now apply H. }
    exists (S (fuel + 2)). intros [| f] Hf name; [lia |].
    apply writeSchemaRef_settles; [lia |].
    intros other schema m' Hlookup [= ->].
    apply (Hobject f ltac:(lia) other schema Hlookup).
Qed.

(** X9.  When no schema of the registry holds a bare object node, the
    stub-value generator settles: some bound on the depth of the calls is
    enough for [writeSchemaRef] to run to its end for every name and from
    every state, by completing or by throwing, however the schemas refer
    to each other and to themselves; and a run that completes leaves the
    expansion set as it found it. *)
Theorem stub_generator_settles (api : RestDescription) :
  (forall name schema, registryOf api !! name = Some schema ->
     noBareObject schema = true) ->
  exists fuel, forall extra name w,
    match writeSchemaRef (extra + fuel) api name w with
    | Normal _ w' => seenSchemaRefs w' = seenSchemaRefs w
    | Throw _ _ => True
    | Unfinished => False
    end.
Proof.
  intros Hfree.
  destruct (writeSchemaRef_bound api Hfree (size (dom (registryOf api))))
    as [fuel H].
  exists fuel. intros extra name w. apply (H (extra + fuel)%nat); [lia |].
  unfold unseen. apply subseteq_size. intros x Hx.
  now apply elem_of_difference in Hx as [Hx _].
Qed.

(** ** The walker and the generator as a whole *)

(** X10.  The depth discipline holds for whole runs.  From a depth that is
    not negative the interface walker [writeResources], over any resources,
    and the stub-value generator, entered at [writeSchemaRef] or at
    [writeProperties], end at the depth they started from when they
    complete, and never below it when they throw: every bracket they open
    is closed on the way out of a run that completes. *)
Theorem runs_keep_depth :
  (forall rs params registry ns,
     keepsDepth (writeResources rs params registry ns))
  /\ (forall fuel api name, keepsDepth (writeSchemaRef fuel api name))
  /\ (forall fuel api record, keepsDepth (writeProperties fuel api record)).
Proof.
  split; [| split].
  - intros rs params registry ns. unfold writeResources.
    apply keepsDepth_bind; [| intros written; apply keepsDepth_ret].
    induction rs as [| [resourceName resource] rest IH];
      [apply keepsDepth_ret |].
    cbn [writeResourceEntries].
    apply keepsDepth_bind; [apply keepsDepth_writeResource | intros written].
    apply keepsDepth_bind; [exact IH | intros more; apply keepsDepth_ret].
  - intros fuel api name. apply (keepsDepth_stub_generator fuel api).
  - intros fuel api record. apply (keepsDepth_stub_generator fuel api).
Qed.

Lemma bind_normal_inv {A B} (m : Action A) (k : A -> Action B) w b w' :
  (m ≫= k) w = Normal b w' ->
  exists a w1, m w = Normal a w1 /\ k a w1 = Normal b w'.
Proof.
  unfold mbind, Action_bind, bind.
  destruct (m w) as [a w1 | e w1 |]; [| discriminate | discriminate].
  intros H. now exists a, w1.
Qed.

Lemma strleb_total a : forall b, strleb a b = false -> strleb b a = true.
Proof.
  induction a as [| x a IH]; intros [| y b]; cbn; try congruence.
  intros H. apply orb_false_elim in H as [Hlt H].
  apply N.ltb_ge in Hlt.
  destruct (N.eqb_spec x y) as [-> | Hne].
  - cbn [andb] in H. rewrite N.eqb_refl, (IH b H). cbn.
    now rewrite orb_true_r.
  - assert (Hyx : (y < x)%N) by lia.
    apply N.ltb_lt in Hyx. now rewrite Hyx.
Qed.

Lemma ascending_cons a l :
  ascending (a :: l) = true <->
  (forall b tl, l = b :: tl -> strleb a b = true) /\ ascending l = true.
Proof.
  destruct l as [| b tl]; cbn [ascending].
  - split; [intros _; split; [intros ? ? [=] | reflexivity] | reflexivity].
  - rewrite andb_true_iff. split.
    + intros [Hab Htl]. split; [| exact Htl]. now intros ? ? [= <- <-].
    + intros [Hhead Htl]. split; [now apply (Hhead b tl) | exact Htl].
Qed.

Lemma insertSorted_ascending x l :
  ascending l = true -> ascending (insertSorted x l) = true.
Proof.
  induction l as [| y ys IH]; [reflexivity |].
  intros Hl. cbn [insertSorted].
  destruct (strleb x y) eqn:Hxy.
  - apply ascending_cons. split; [| exact Hl]. now intros ? ? [= <- <-].
  - apply ascending_cons in Hl as [Hhead Hys].
    apply ascending_cons. split; [| now apply IH].
    intros b tl Heq. destruct ys as [| z zs]; cbn [insertSorted] in Heq.
    + injection Heq as <- <-. now apply strleb_total.
    + destruct (strleb x z).
      * injection Heq as <- <-. now apply strleb_total.
      * injection Heq as <- <-. now apply (Hhead z zs).
Qed.

Lemma insertSorted_In x l y : In y (insertSorted x l) <-> y = x \/ In y l.
Proof.
  induction l as [| z zs IH]; cbn [insertSorted].
  - cbn. split; [intros [<- | []]; now left | intros [-> | []]; now left].
  - destruct (strleb x z); cbn [In].
    + split; [intros [<- | H]; [now left | now right]
             | intros [-> | H]; [now left | now right]].
    + rewrite IH. split.
      * intros [<- | [-> | H]]; [right; now left | now left | right; now right].
      * intros [-> | [<- | H]]; [right; now left | now left | right; now right].
Qed.

Lemma insertSorted_NoDup x l :
  ~ In x l -> List.NoDup l -> List.NoDup (insertSorted x l).
Proof.
  induction l as [| z zs IH]; intros Hx Hl; cbn [insertSorted].
  - constructor; [intros [] | constructor].
  - destruct (strleb x z); [now constructor |].
    inversion Hl as [| ? ? Hz Hzs]; subst. constructor.
    + rewrite insertSorted_In. intros [-> | Hin]; [| contradiction].
      apply Hx. now left.
    + apply IH; [| exact Hzs]. intros Hin. apply Hx. now right.
Qed.

Lemma sortStrings_In l y : In y (sortStrings l) <-> In y l.
Proof.
  induction l as [| x xs IH]; [reflexivity |].
  cbn [sortStrings fold_right]. fold (sortStrings xs).
  rewrite insertSorted_In, IH. cbn [In]. split.
  - intros [-> | H]; [now left | now right].
  - intros [<- | H]; [now left | now right].
Qed.

Lemma sortStrings_sorted l :
  ascending (sortStrings l) = true
  /\ (List.NoDup l -> List.NoDup (sortStrings l)).
Proof.
  induction l as [| x xs [IHasc IHnodup]]; [split; [reflexivity | auto] |].
  cbn [sortStrings fold_right]. fold (sortStrings xs). split.
  - now apply insertSorted_ascending.
  - intros Hl. inversion Hl as [| ? ? Hx Hxs]; subst.
    apply insertSorted_NoDup; [| now apply IHnodup].
    now rewrite sortStrings_In.
Qed.

Lemma uniq_In l y : In y (uniq l) <-> In y l.
Proof.
  induction l as [| x xs IH]; [reflexivity |].
  cbn [uniq In]. rewrite List.filter_In, IH. split.
  - intros [-> | [Hin _]]; [now left | now right].
  - intros [-> | Hin]; [now left |].
    destruct (decide (x = y)) as [-> | Hne]; [now left | right].
    split; [exact Hin |]. now rewrite (streq_ne _ _ Hne).
Qed.

Lemma uniq_NoDup l : List.NoDup (uniq l).
Proof.
  induction l as [| x xs IH]; [constructor |].
  cbn [uniq]. constructor.
  - rewrite List.filter_In. intros [_ H]. now rewrite streq_refl in H.
  - now apply List.NoDup_filter.
Qed.

Lemma writeResource_names params registry ns resourceName resource w names w' :
  writeResource params registry ns resourceName resource w = Normal names w' ->
  names = [] \/ names = [resourceName].
Proof.
  rewrite writeResource_unfold. intros H.
  apply bind_normal_inv in H as (_ & w1 & _ & H).
  apply bind_normal_inv in H as (inNamespace & w2 & _ & H).
  destruct (_ && _).
  - injection H as <- _. now left.
  - apply bind_normal_inv in H as (_ & w3 & _ & H).
    injection H as <- _. now right.
Qed.

Lemma writeResourceEntries_names params registry ns rs :
  forall w names w',
    writeResourceEntries params registry ns rs w = Normal names w' ->
    forall name, In name names -> In name (List.map fst rs).
Proof.
  induction rs as [| [resourceName resource] rest IH]; intros w names w' H.
  - injection H as <- _. intros name [].
  - cbn [writeResourceEntries] in H.
    apply bind_normal_inv in H as (written & w1 & Hfirst & H).
    apply bind_normal_inv in H as (more & w2 & Hrest & H).
    injection H as <- _. intros name Hin.
    apply in_app_or in Hin as [Hin | Hin].
    + left. cbn [fst].
      apply writeResource_names in Hfirst as [-> | ->]; [destruct Hin |].
      destruct Hin as [<- | []]. reflexivity.
    + right. exact (IH _ _ _ Hrest name Hin).
Qed.

(** X11.  The names [writeResources] returns when it completes are in
    ascending code-unit order, without repetition, and each is the name of
    one of the resources it was given: a nested resource is never among
    them. *)
Theorem writeResources_names (rs : list (jsstring * RestResource))
    (params : list (jsstring * JsonSchema))
    (registry : gmap jsstring JsonSchema) (ns : jsstring)
    (w w' : World) (names : list jsstring) :
  writeResources rs params registry ns w = Normal names w' ->
  ascending names = true
  /\ List.NoDup names
  /\ forall name, In name names -> In name (List.map fst rs).
Proof.
  unfold writeResources. intros H.
  apply bind_normal_inv in H as (written & w1 & Hwritten & H).
  injection H as <- _. split; [| split].
  - apply sortStrings_sorted.
  - apply sortStrings_sorted, uniq_NoDup.
  - intros name Hin. rewrite sortStrings_In, uniq_In in Hin.
    exact (writeResourceEntries_names _ _ _ _ _ _ _ Hwritten name Hin).
Qed.

(** ** The test writer *)

(** X12.  The test writer reaches the nested resources of a resource only
    from inside the round of a method of the namespace.  A resource whose
    methods are all passed over, or that has no method at all, gets
    nothing written, whatever its nested resources hold: their methods
    are not tested. *)
Theorem tests_need_a_method (fuel : nat) (api : RestDescription)
    (ancestors resourceName : jsstring) (resource : RestResource)
    (ns : jsstring) (w : World) :
  Forall (outsideTests ns) (default [] (methods resource)) ->
  writeResourceTests fuel api ancestors resourceName resource ns w
  = Normal tt w.
Proof.
  destruct resource as [ms children]. cbn [writeResourceTests methods].
  generalize (default [] ms) as entries. intros entries Hall. revert w.
  induction Hall as [| entry rest (methodId & Hid & Hprefix) _ IH]; intros w.
  - reflexivity.
  - cbn [forEach]. erewrite bind_normal; [apply IH |].
    rewrite Hid. erewrite bind_normal by reflexivity.
    now rewrite Hprefix.
Qed.

(** ** The failures of the type translator *)

Lemma spineEnd_unfold t :
  spineEnd t
  = if typeIs t "array"
    then match items t with
         | Some itemsSchema => spineEnd itemsSchema
         | None => None
         end
    else Some t.
Proof. destruct t. reflexivity. Qed.

Lemma typeIs_truthy t (name : string) :
  typeIs t name = true -> js name <> [] -> truthy (type t) = true.
Proof.
  unfold typeIs. intros H Hname. apply bool_decide_eq_true_1 in H.
  rewrite H. destruct (js name); [congruence | reflexivity].
Qed.

(** X14.  [getType] fails at one node only, the end of the array spine of
    the node it is given: the first node, going down through [items],
    that is not an array.  It fails with the error of [checkExists] when
    an array on the way has no [items]; with a [TypeError] when the end of
    the spine has no type and a reference that the registry answers
    neither by an entry nor by an inherited member; with an error without
    a message when the end of the spine has neither a type nor a
    reference; and in no other case.  A failure below an object node is
    not among them: it is raised when the callback [getType] returns is
    run. *)
Theorem getType_failures (t : JsonSchema)
    (registry : gmap jsstring JsonSchema) (e : exn) :
  getType t registry = Raise e <->
  match spineEnd t with
  | None => e = Error (js "Expected value to be defined, but got undefined")
  | Some node =>
      truthy (type node) = false
      /\ (if truthy (ref node)
          then lookupSchema registry (default [] (ref node)) = None
               /\ e = TypeError
          else e = Error [])
  end.
Proof.
  induction t as [t IHitems _ _] using JsonSchema_induction.
  rewrite getType_unfold, spineEnd_unfold.
  destruct (typeIs t "array") eqn:Harray.
  { destruct (items t) as [itemsSchema |].
    - rewrite <- (IHitems itemsSchema eq_refl).
      destruct (getType itemsSchema registry) as [[child | child |] | e'];
        split; congruence.
    - split; congruence. }
  destruct (typeIs t "object") eqn:Hobject.
  { assert (Htruthy : truthy (type t) = true)
      by (apply (typeIs_truthy t "object" Hobject); discriminate).
    rewrite Htruthy. cbn [andb].
    destruct (bool_decide (is_Some (properties t)));
      [| destruct (bool_decide (is_Some (additionalProperties t)))];
      (split; [discriminate | intros [H _]; discriminate H]). }
  cbn [andb].
  destruct (truthy (type t)).
  { split; [discriminate | intros [H _]; discriminate H]. }
  destruct (truthy (ref t)).
  - cbv zeta. destruct (lookupSchema registry _) as [schema |];
      unfold isEmptySchema.
    + destruct (isEmpty (properties schema) && _);
        (split; [discriminate | intros [_ [H _]]; discriminate H]).
    + split.
      * intros [= <-]. now repeat split.
      * intros [_ [_ ->]]. reflexivity.
  - split.
    + intros [= <-]. now split.
    + intros [_ ->]. reflexivity.
Qed.

(** ** What a run does to the state *)

Section Frame.

(** A relation between states that holds along every step of the writers:
    it is a preorder, and writing a chunk and changing the depth are
    steps of it. *)
Variable R : World -> World -> Prop.
Hypothesis R_refl : forall w, R w w.
Hypothesis R_trans : forall a b c, R a b -> R b c -> R a c.
Hypothesis R_write : forall chunk w, R w (setOutput (output w ++ chunk) w).
Hypothesis R_indent : forall depth w, R w (setIndent depth w).

Lemma respects_ret {A} (a : A) : respects R (ret a).
Proof using R_refl. intros w. apply R_refl. Qed.

Lemma respects_throw {A} e : respects R (@throw A e).
Proof using R_refl. intros w. apply R_refl. Qed.

Lemma respects_cutOff {A} : respects R (@cutOff A).
Proof using Type. intros w. exact I. Qed.

Lemma respects_lift {A} (r : Result A) : respects R (lift r).
Proof using R_refl. intros w. destruct r; apply R_refl. Qed.

Lemma respects_write chunk : respects R (write chunk).
Proof using R_write. intros w. apply R_write. Qed.

Lemma respects_getIndent : respects R getIndent.
Proof using R_refl. intros w. apply R_refl. Qed.

Lemma respects_seenHas name : respects R (seenHas name).
Proof using R_refl. intros w. apply R_refl. Qed.

Lemma respects_indentIncr : respects R indentIncr.
Proof using R_indent. intros w. apply R_indent. Qed.

Lemma respects_indentDecr : respects R indentDecr.
Proof using R_indent. intros w. apply R_indent. Qed.

Lemma respects_indentation : respects R indentation.
Proof using R_refl.
  intros w. unfold indentation. destruct (arrayJoin _ _); apply R_refl.
Qed.

Lemma respects_bind {A B} (m : Action A) (k : A -> Action B) :
  respects R m -> (forall a, respects R (k a)) -> respects R (m ≫= k).
Proof using R_trans.
  intros Hm Hk w. specialize (Hm w).
  destruct (m w) as [a w1 | e w1 |] eqn:E.
  - rewrite (bind_normal _ _ _ _ _ E). specialize (Hk a w1).
    destruct (k a w1); [| | exact I]; now apply (R_trans _ w1).
  - now rewrite (bind_throw _ _ _ _ _ E).
  - now rewrite (bind_unfinished _ _ _ E).
Qed.

Lemma respects_when (b : bool) m : respects R m -> respects R (when b m).
Proof using R_refl. destruct b; [auto | intros _; apply respects_ret]. Qed.

Lemma respects_forEach {A} (f : A -> Action unit) xs :
  (forall x, respects R (f x)) -> respects R (forEach f xs).
Proof using R_refl R_trans.
  intros H. induction xs as [| x rest IH]; [apply respects_ret |].
  cbn [forEach]. apply respects_bind; [apply H | intros _; exact IH].
Qed.

Lemma respects_forEachIndexed {A} (f : A -> nat -> Action unit) xs :
  (forall x index, In x xs -> respects R (f x index)) ->
  forall index, respects R (forEachIndexed f index xs).
Proof using R_refl R_trans.
  induction xs as [| x rest IH]; intros H index; [apply respects_ret |].
  cbn [forEachIndexed]. apply respects_bind.
  - apply H. now left.
  - intros _. apply IH. intros y i Hy. apply H. now right.
Qed.

(** The straight-line part of a method: sequencing, tests and the
    operations of the writers. *)
Ltac frame :=
  repeat first
    [ assumption
    | apply respects_ret
    | apply respects_throw
    | apply respects_lift
    | apply respects_write
    | apply respects_getIndent
    | apply respects_seenHas
    | apply respects_indentIncr
    | apply respects_indentDecr
    | apply respects_indentation
    | apply respects_when
    | apply respects_forEach; intros ?
    | apply respects_bind; [| intros ?]
    | match goal with
      | |- respects _ (if ?b then _ else _) => destruct b
      end ].

Lemma respects_writeLine chunk : respects R (writeLine chunk).
Proof using R_refl R_trans R_write. frame. Qed.

Lemma respects_writeNewLine chunk : respects R (writeNewLine chunk).
Proof using R_refl R_trans R_write. frame. Qed.

Lemma respects_endLine chunk : respects R (endLine chunk).
Proof using R_trans R_write. frame. Qed.

Lemma respects_braces text body :
  respects R body -> respects R (braces text body).
Proof using R_refl R_trans R_write R_indent. intros H. frame. Qed.

Lemma respects_scope body startTag endTag :
  respects R body -> respects R (scope body startTag endTag).
Proof using R_refl R_trans R_write R_indent. intros H. frame. Qed.

Lemma respects_anonymousType body :
  respects R body -> respects R (anonymousType body).
Proof using R_refl R_trans R_write R_indent. intros H. frame. Qed.

Lemma respects_interface name body flag :
  respects R body -> respects R (interface name body flag).
Proof using R_refl R_trans R_write R_indent. intros H. frame. Qed.

Lemma respects_tsWrite ty : rendersWith R ty -> respects R (tsWrite ty).
Proof using R_refl R_write.
  destruct ty as [token | callback |]; cbn;
    [intros _; apply respects_write | auto | intros _; apply respects_ret].
Qed.

Lemma respects_property name ty req :
  rendersWith R ty -> respects R (property name ty req).
Proof using R_refl R_trans R_write.
  intros H. destruct ty as [token | callback |]; cbn [property rendersWith] in *;
    frame.
Qed.

Lemma respects_commentLine line : respects R (commentLine line).
Proof using R_refl R_trans R_write. destruct line; apply respects_writeLine. Qed.

Lemma respects_commentBlock lines : respects R (commentBlock lines).
Proof using R_refl R_trans R_write.
  destruct lines as [| l1 [| l2 rest]]; cbn [commentBlock].
  - apply respects_ret.
  - apply respects_writeLine.
  - apply respects_bind; [apply respects_writeLine | intros _].
    apply respects_bind; [| intros _; apply respects_writeLine].
    apply respects_forEach. apply respects_commentLine.
Qed.

Lemma respects_comment text : respects R (comment text).
Proof using R_refl R_trans R_write.
  unfold comment. destruct (_ || _); [apply respects_ret |].
  apply respects_bind; [apply respects_getIndent | intros depth].
  apply respects_bind; [apply respects_when, respects_writeLine | intros _].
  apply respects_bind; [apply respects_commentBlock | intros _].
  apply respects_when, respects_writeLine.
Qed.

Lemma respects_method name params returnType singleLine :
  Forall (fun p => rendersWith R (parameterType p)) params ->
  respects R (method name params returnType singleLine).
Proof using R_refl R_trans R_write.
  intros Hparams. unfold method.
  apply respects_bind; [apply respects_when, respects_writeLine | intros _].
  apply respects_bind; [frame | intros _].
  apply respects_bind.
  { apply respects_forEachIndexed. intros p index Hp.
    apply respects_bind; [apply respects_when, respects_writeNewLine |].
    intros _. apply respects_bind; [apply respects_write | intros _].
    apply respects_bind.
    - apply respects_tsWrite.
      rewrite Forall_forall in Hparams. apply Hparams.
      now apply list_elem_of_In.
    - intros _. apply respects_when.
      apply respects_bind; [apply respects_write | intros _].
      destruct singleLine; [apply respects_write | apply respects_writeNewLine]. }
  intros _. apply respects_bind.
  { apply respects_when.
    apply respects_bind; [| intros _]; apply respects_writeNewLine. }
  intros _. apply respects_bind; [apply respects_write | intros _].
  apply respects_endLine.
Qed.

Lemma respects_lifted (r : Result TypeRendering)
    (k : TypeRendering -> Action unit) :
  match r with Ok ty => rendersWith R ty | Raise _ => True end ->
  (forall ty, rendersWith R ty -> respects R (k ty)) ->
  respects R (lift r ≫= k).
Proof using R_refl.
  intros Hr Hk w. destruct r as [ty | e]; cbn [lift].
  - rewrite (bind_normal _ _ w ty w eq_refl). now apply Hk.
  - rewrite (bind_throw _ _ w e w eq_refl). apply R_refl.
Qed.

(** Every callback [getType] returns respects the relation. *)
Lemma getType_respects registry t :
  match getType t registry with
  | Ok ty => rendersWith R ty
  | Raise _ => True
  end.
Proof using R_refl R_trans R_write R_indent.
  induction t as [t IHitems IHprops IHvalue] using JsonSchema_induction.
  rewrite getType_unfold.
  destruct (typeIs t "array").
  { destruct (items t) as [itemsSchema |]; [| exact I].
    specialize (IHitems itemsSchema eq_refl).
    destruct (getType itemsSchema registry) as [[token | child |] | e];
      cbn in *; [exact I | | exact I | exact I].
    apply respects_bind; [apply respects_write | intros _].
    apply respects_bind; [exact IHitems | intros _; apply respects_write]. }
  destruct (typeIs t "object" && bool_decide (is_Some (properties t))).
  { cbn [rendersWith]. apply respects_anonymousType.
    apply respects_bind.
    - destruct (properties t) as [props |]; [| apply respects_ret].
      specialize (IHprops props eq_refl).
      induction props as [| entry rest IHrest]; [apply respects_ret |].
      cbn [forEach]. apply respects_bind.
      + apply respects_bind;
          [apply respects_when, respects_comment | intros _].
        apply respects_lifted; [exact (Forall_inv IHprops) |].
        intros ty Hty. now apply respects_property.
      + intros _. apply IHrest. exact (Forall_inv_tail IHprops).
    - intros _. destruct (additionalProperties t) as [valueType |];
        [| apply respects_ret].
      apply respects_lifted; [apply IHvalue; reflexivity |].
      intros ty Hty. now apply respects_property. }
  destruct (typeIs t "object"
            && bool_decide (is_Some (additionalProperties t))).
  { cbn [rendersWith].
    destruct (additionalProperties t) as [valueType |].
    - apply respects_lifted; [apply IHvalue; reflexivity |].
      intros ty Hty.
      apply respects_bind; [apply respects_write | intros _].
      apply respects_bind; [now apply respects_tsWrite |].
      intros _. apply respects_write.
    - intros w.
      erewrite (bind_throw (lift (Raise _)) _ w _ w eq_refl).
      apply R_refl. }
  destruct (truthy (type t)).
  { cbv zeta. destruct (repeated t); [exact I |].
    destruct (typesMapValue _) as [token | [name |]]; cbn;
      [exact I | apply respects_lift | exact I]. }
  destruct (truthy (ref t)); [| exact I].
  cbv zeta. destruct (isEmptySchema _) as [[] | e]; exact I.
Qed.

Lemma respects_createRequestParameterWriterCallback params registry bodyRef :
  respects R (createRequestParameterWriterCallback params registry bodyRef).
Proof using R_refl R_trans R_write R_indent.
  apply respects_anonymousType.
  apply respects_bind.
  - apply respects_forEach. intros entry.
    apply respects_bind; [apply respects_when, respects_comment | intros _].
    apply respects_lifted; [apply getType_respects |].
    intros ty Hty. now apply respects_property.
  - intros _. apply respects_when.
    apply respects_bind; [apply respects_comment | intros _].
    now apply respects_property.
Qed.

Lemma respects_writeMethod params registry methodName m :
  respects R (writeMethod params registry methodName m).
Proof using R_refl R_trans R_write R_indent.
  unfold writeMethod.
  apply respects_bind; [apply respects_when, respects_comment |].
  intros _. apply respects_bind; [| intros _]; apply respects_when;
    (apply respects_bind; [apply respects_lift | intros shortName];
     apply respects_bind; [apply respects_lift | intros returnType];
     apply respects_method;
     repeat (constructor;
             try apply respects_createRequestParameterWriterCallback)).
Qed.

Lemma respects_writeResource params registry ns resource :
  forall resourceName,
    respects R (writeResource params registry ns resourceName resource).
Proof using R_refl R_trans R_write R_indent.
  induction resource as [resource IHchildren] using RestResource_induction.
  intros resourceName. rewrite writeResource_unfold.
  apply respects_bind.
  { destruct (resources resource) as [children |]; [| apply respects_ret].
    specialize (IHchildren children eq_refl).
    induction children as [| entry rest IHrest]; [apply respects_ret |].
    cbn [forEach]. apply respects_bind.
    - apply respects_bind; [apply (Forall_inv IHchildren) |].
      intros _. apply respects_ret.
    - intros _. apply IHrest. exact (Forall_inv_tail IHchildren). }
  intros _. apply respects_bind; [apply respects_lift | intros inNamespace].
  destruct (_ && _); [apply respects_ret |].
  apply respects_bind; [| intros _; apply respects_ret].
  apply respects_interface.
  apply respects_bind.
  - apply respects_forEach. intros entry. apply respects_writeMethod.
  - intros _. destruct (resources resource) as [children |];
      [| apply respects_ret].
    apply respects_forEach. intros entry. now apply respects_property.
Qed.

Lemma respects_writeResources rs params registry ns :
  respects R (writeResources rs params registry ns).
Proof using R_refl R_trans R_write R_indent.
  unfold writeResources.
  apply respects_bind; [| intros written; apply respects_ret].
  induction rs as [| [resourceName resource] rest IH]; [apply respects_ret |].
  cbn [writeResourceEntries].
  apply respects_bind; [apply respects_writeResource | intros written].
  apply respects_bind; [exact IH | intros more; apply respects_ret].
Qed.

(** The stub-value generator and the test writer also change the
    expansion set. *)
Hypothesis R_seen : forall seen w, R w (setSeen seen w).

Lemma respects_stub_generator fuel api :
  (forall prop, respects R (writePropertyValue fuel api prop))
  /\ (forall itemsSchema, respects R (writeArray fuel api itemsSchema))
  /\ (forall object, respects R (writeObject fuel api object))
  /\ (forall name, respects R (writeSchemaRef fuel api name))
  /\ (forall record, respects R (writeProperties fuel api record)).
Proof using R_refl R_trans R_write R_indent R_seen.
  induction fuel as [| fuel (IHvalue & IHarray & IHobject & IHref & IHprops)].
  { repeat split; intros; apply respects_cutOff. }
  split; [| split; [| split; [| split]]].
  - intros prop. cbn [writePropertyValue]. frame.
    + apply IHarray.
    + apply IHobject.
  - intros itemsSchema. cbn [writeArray]. cbv zeta.
    apply respects_bind; [apply respects_seenHas | intros seen].
    destruct (_ && _); [apply respects_write |].
    apply respects_scope. apply respects_bind; [frame | intros _].
    destruct (truthy _); [apply IHref | apply IHvalue].
  - intros object. cbn [writeObject]. cbv zeta.
    apply respects_bind; [apply respects_seenHas | intros seen].
    destruct (_ && _); [apply respects_write |].
    destruct (properties object) as [props |].
    { apply respects_scope, IHprops. }
    destruct (additionalProperties object) as [valueType |]; [| apply IHvalue].
    apply respects_scope. apply respects_bind; [frame | intros _].
    destruct (truthy _); [apply IHref | apply IHvalue].
  - intros name. cbn [writeSchemaRef].
    apply respects_bind; [apply respects_seenHas | intros seen].
    destruct seen; [apply respects_write |].
    apply respects_bind; [apply respects_lift | intros registry].
    destruct (lookupSchema registry name) as [schema |];
      [| apply respects_throw].
    apply respects_bind; [intros w; apply R_seen | intros _].
    apply respects_bind; [apply IHobject | intros _].
    intros w. apply R_seen.
  - intros record. cbn [writeProperties].
    apply respects_forEach. intros [name param].
    apply respects_bind; [frame | intros _].
    apply respects_bind; [| intros _; apply respects_endLine].
    destruct (typeIs param "object"); [apply IHobject |].
    destruct (truthy (ref param)); [apply IHref | apply IHvalue].
Qed.

Lemma respects_writeResourceTests fuel api ns resource :
  forall ancestors resourceName,
    respects R (writeResourceTests fuel api ancestors resourceName resource ns).
Proof using R_refl R_trans R_write R_indent R_seen.
  induction resource as [resource IHchildren] using RestResource_induction.
  intros ancestors resourceName.
  destruct resource as [ms children]. cbn [writeResourceTests methods resources].
  cbn [resources] in IHchildren.
  apply respects_forEach. intros entry.
  apply respects_bind; [apply respects_lift | intros methodId].
  destruct (negb _); [apply respects_ret |].
  apply respects_bind; [apply respects_comment | intros _].
  apply respects_bind; [frame | intros _].
  apply respects_bind.
  { destruct (parameters (snd entry)) as [params |]; [| apply respects_ret].
    apply respects_scope, (respects_stub_generator fuel api). }
  intros _. apply respects_bind.
  { apply respects_when.
    apply respects_bind; [apply respects_when, respects_write | intros _].
    apply respects_bind; [apply respects_write | intros _].
    apply (respects_stub_generator fuel api). }
  intros _. apply respects_bind; [apply respects_endLine | intros _].
  destruct children as [nested |]; [| apply respects_ret].
  specialize (IHchildren nested eq_refl).
  induction nested as [| child rest IHrest]; [apply respects_ret |].
  apply respects_bind.
  - apply (Forall_inv IHchildren).
  - intros _. apply IHrest. exact (Forall_inv_tail IHchildren).
Qed.

End Frame.

Lemma appends_same w w' : output w' = output w -> appends w w'.
Proof. intros H. exists []. now rewrite app_nil_r. Qed.

Lemma appends_refl w : appends w w.
Proof. now apply appends_same. Qed.

Lemma appends_trans a b c : appends a b -> appends b c -> appends a c.
Proof.
  intros [t1 H1] [t2 H2]. exists (t1 ++ t2). now rewrite H2, H1, app_assoc.
Qed.

Lemma appends_write chunk w : appends w (setOutput (output w ++ chunk) w).
Proof. now exists chunk. Qed.

(** X15.  No run takes back what has been written.  The interface walker
    [writeResources], the stub-value generator entered at
    [writeSchemaRef] or at [writeProperties] and the test writer
    [writeResourceTests] only append to the output, whether they complete
    or throw; and the interface walker, with all the callbacks of the type
    translator it runs, leaves the expansion set of the stub-value
    generator untouched. *)
Theorem runs_only_append :
  (forall rs params registry ns,
     respects appendsAside (writeResources rs params registry ns))
  /\ (forall fuel api name, respects appends (writeSchemaRef fuel api name))
  /\ (forall fuel api record,
        respects appends (writeProperties fuel api record))
  /\ (forall fuel api ancestors resourceName resource ns,
        respects appends
          (writeResourceTests fuel api ancestors resourceName resource ns)).
Proof.
  assert (Hrefl : forall w, appendsAside w w)
    by (intros w; split; [apply appends_refl | reflexivity]).
  assert (Htrans : forall a b c,
            appendsAside a b -> appendsAside b c -> appendsAside a c).
  { intros a b c [H1 E1] [H2 E2]. split.
    - exact (appends_trans _ _ _ H1 H2).
    - now rewrite E2. }
  assert (Hseen : forall seen w, appends w (setSeen seen w))
    by (intros seen w; now apply appends_same).
  assert (Hindent : forall depth w, appends w (setIndent depth w))
    by (intros depth w; now apply appends_same).
  split; [| split; [| split]].
  - intros rs params registry ns.
    apply respects_writeResources; [exact Hrefl | exact Htrans | |].
    + intros chunk w. split; [apply appends_write | reflexivity].
    + intros depth w. split; [now apply appends_same | reflexivity].
  - intros fuel api name.
    apply (respects_stub_generator appends appends_refl appends_trans
             appends_write Hindent Hseen fuel api).
  - intros fuel api record.
    apply (respects_stub_generator appends appends_refl appends_trans
             appends_write Hindent Hseen fuel api).
  - intros fuel api ancestors resourceName resource ns.
    apply (respects_writeResourceTests appends appends_refl appends_trans
             appends_write Hindent Hseen).
Qed.

(** ** The two tests for the namespace of a method *)

Lemma startsWith_app_l a b : forall s,
  startsWith (a ++ b) s = true -> startsWith a s = true.
Proof.
  induction a as [| x a IH]; intros s; [reflexivity |].
  destruct s as [| y s]; cbn [app startsWith]; [discriminate |].
  intros H. apply andb_prop in H as [Hxy H]. now rewrite Hxy, (IH s H).
Qed.

(** X16.  The interface walker and the test writer test the namespace of
    a method in two ways: the walker asks for the namespace and a dot at
    the start of the id, the test writer for the namespace at the start of
    the id without its leading [gapi.client.].  Every method the walker
    keeps has an id, and unless that id starts with [gapi.client.] the
    test writer keeps the method too: no method with a signature goes
    without a test for the reason of its namespace. *)
Theorem kept_methods_are_tested (ns : jsstring)
    (allMethods kept : list (jsstring * RestMethod)) :
  methodsOfNamespace ns allMethods = Ok kept ->
  forall entry, In entry kept ->
    In entry allMethods
    /\ exists methodId,
         id (snd entry) = Some methodId
         /\ (startsWith (js "gapi.client.") methodId = false ->
             startsWith ns (removePrefix (js "gapi.client.") methodId) = true).
Proof.
  revert kept. induction allMethods as [| [methodName m] rest IH];
    intros kept Hkept entry Hentry.
  - injection Hkept as <-. destruct Hentry.
  - cbn [methodsOfNamespace] in Hkept.
    destruct (id m) as [methodId |] eqn:Hid; [| discriminate Hkept].
    cbn [checkExists fieldValue mbind Result_bind] in Hkept.
    destruct (methodsOfNamespace ns rest) as [more | e]; [| discriminate Hkept].
    cbn [mbind Result_bind] in Hkept. injection Hkept as <-.
    assert (Hmore : In entry more ->
              In entry ((methodName, m) :: rest)
              /\ exists methodId',
                   id (snd entry) = Some methodId'
                   /\ (startsWith (js "gapi.client.") methodId' = false ->
                       startsWith ns
                         (removePrefix (js "gapi.client.") methodId') = true)).
    { intros Hin. destruct (IH more eq_refl entry Hin) as [Hrest Hid'].
      split; [now right | exact Hid']. }
    destruct (startsWith (ns ++ js ".") methodId) eqn:Hprefix;
      [| now apply Hmore].
    destruct Hentry as [<- | Hin]; [| now apply Hmore].
    split; [now left |]. exists methodId. split; [exact Hid |].
    intros Hplain. unfold removePrefix. rewrite Hplain.
    exact (startsWith_app_l ns (js ".") methodId Hprefix).
Qed.

(** ** Property names *)

Lemma formatPropertyName_cases name :
  (formatPropertyName name = name
   /\ includesChar 46 name = false /\ includesChar 45 name = false
   /\ includesChar 64 name = false)
  \/ (formatPropertyName name = doubleQuote ++ name ++ doubleQuote
      /\ (includesChar 46 name = true \/ includesChar 45 name = true
          \/ includesChar 64 name = true)).
Proof.
  unfold formatPropertyName.
  destruct (includesChar 46 name), (includesChar 45 name),
    (includesChar 64 name); cbn [orb]; auto 10.
Qed.

(** X17.  [formatPropertyName] keeps names apart: two names that are
    written the same way, quoted or not, are the same name.  A quoted name
    holds the dot, dash or at sign it was quoted for, so it is never the
    plain form of another name. *)
Theorem formatPropertyName_keeps_names_apart (a b : jsstring) :
  formatPropertyName a = formatPropertyName b -> a = b.
Proof.
  assert (Hmixed : forall plain quoted,
            includesChar 46 plain = false -> includesChar 45 plain = false ->
            includesChar 64 plain = false ->
            includesChar 46 quoted = true \/ includesChar 45 quoted = true
            \/ includesChar 64 quoted = true ->
            plain <> doubleQuote ++ quoted ++ doubleQuote).
  { intros plain quoted Hdot Hdash Hat Hquoted ->.
    rewrite !includesChar_app in Hdot, Hdash, Hat.
    apply orb_false_elim in Hdot as [_ Hdot], Hdash as [_ Hdash],
      Hat as [_ Hat].
    apply orb_false_elim in Hdot as [Hdot _], Hdash as [Hdash _],
      Hat as [Hat _].
    destruct Hquoted as [H | [H | H]]; congruence. }
  destruct (formatPropertyName_cases a) as [(-> & Ha) | (-> & Ha)],
    (formatPropertyName_cases b) as [(-> & Hb) | (-> & Hb)].
  - auto.
  - intros H. destruct Ha as (H1 & H2 & H3).
    now contradiction (Hmixed a b H1 H2 H3 Hb).
  - intros H. destruct Hb as (H1 & H2 & H3).
    now contradiction (Hmixed b a H1 H2 H3 Ha).
  - intros H. apply app_inv_head in H. now apply app_inv_tail in H.
Qed.

(** ** The revision gate *)

(** X18.  When only new revisions are asked for, the declaration file
    exists and its revision cannot be read, the previous revision counts
    as [Infinity], and [Infinity] is greater than every finite number: the
    service is passed over as older than the local copy for every fetched
    revision that is a finite number, and regenerated only when the
    fetched revision is not a number, or is [Infinity] itself. *)
Theorem unreadable_revision_is_passed_over
    (toNumber : jsstring -> JsNumber) (revision : option jsstring)
    (previous : option JsNumber) :
  truthy revision = true ->
  unreadable previous = true ->
  revisionGate toNumber true true revision previous
  = match toNumber (default [] revision) with
    | Finite _ | MinusInfinity => LocalIsNewer
    | PlusInfinity | NaN => Regenerate
    end.
Proof.
  intros Hrevision Hprevious. unfold revisionGate. cbn [andb].
  rewrite Hrevision. cbn [negb]. cbv zeta.
  assert (Hexisting : match previous with
                      | Some x => if numberTruthy x then x else PlusInfinity
                      | None => PlusInfinity
                      end = PlusInfinity).
  { destruct previous as [x |]; [| reflexivity].
    cbn [unreadable] in Hprevious. apply negb_true_iff in Hprevious.
    now rewrite Hprevious. }
  rewrite Hexisting. now destruct (toNumber _).
Qed.

End Translator.

(** * The translator under the sample configuration *)

(** The sample name transform on the inputs of [test/utils.spec.ts], and
    the sample prefix test on the name quoted in [interface]. *)
Example sampleResourceTypeName_tests :
  sampleResourceTypeName (js "marketplaceprivateauction")
  = js "MarketplaceprivateauctionResource"
  /\ sampleResourceTypeName (js "marketplacePrivateAuction")
     = js "MarketplacePrivateAuctionResource"
  /\ sampleResourceTypeName (js "marketplace-privateauction")
     = js "MarketplacePrivateauctionResource"
  /\ sampleResourceTypeName (js "marketplace-private-auction")
     = js "MarketplacePrivateAuctionResource"
  /\ sampleHasPrefixI (js "IPAllocationPolicy") = true
  /\ sampleHasPrefixI (js "Instance") = false.
Proof. repeat split; vm_compute; reflexivity. Qed.

(** C1 at the reference to [Empty] of the sample registry. *)
Lemma reference_to_empty_schema_renders_any_witness :
  isReferenceNode (referenceTo "Empty") (js "Empty")
  /\ sampleRegistry !! js "Empty" = Some (objectOf [])
  /\ hasNoMembers (objectOf [])
  /\ getType sampleJoiner sampleMatchesWord sampleMaxLineLength
       sampleBannedTypes (referenceTo "Empty") sampleRegistry
     = Ok (Flat (js "any")).
Proof.
  assert (H1 : isReferenceNode (referenceTo "Empty") (js "Empty"))
    by (repeat split).
  assert (H2 : sampleRegistry !! js "Empty" = Some (objectOf []))
    by (vm_compute; reflexivity).
  assert (H3 : hasNoMembers (objectOf [])) by (split; reflexivity).
  split; [exact H1 | split; [exact H2 | split; [exact H3 |]]].
  exact (reference_to_empty_schema_renders_any sampleJoiner sampleMatchesWord
           sampleMaxLineLength sampleBannedTypes _ _ _ _ H1 H2 H3).
Defined.

(** C3 at a body that writes one chunk. *)
Lemma scoped_emission_depth_witness :
  keepsDepth (write (js "x;"))
  /\ 0 <= indent emptyWorld
  /\ (forall text, depthAfter (braces text (write (js "x;"))) emptyWorld)
  /\ (forall startTag endTag,
        depthAfter (scope (write (js "x;")) startTag endTag) emptyWorld)
  /\ depthAfter (anonymousType (write (js "x;"))) emptyWorld.
Proof.
  assert (H1 : keepsDepth (write (js "x;"))) by (intros w _; reflexivity).
  assert (H2 : 0 <= indent emptyWorld) by (cbn; lia).
  split; [exact H1 | split; [exact H2 |]].
  exact (scoped_emission_depth (write (js "x;")) emptyWorld H1 H2).
Defined.

(** C3, the claim as stated fails: a body that throws leaves the depth
    incremented under each of the three operations. *)
Lemma scoped_emission_depth_counterexample :
  let body : Action unit := throw (Error (js "abort")) in
  (exists w', braces (js "interface A") body emptyWorld
              = Throw (Error (js "abort")) w'
              /\ indent w' = 1 /\ indent w' <> indent emptyWorld)
  /\ (exists w', scope body (js "{") (js "}") emptyWorld
                 = Throw (Error (js "abort")) w'
                 /\ indent w' = 1 /\ indent w' <> indent emptyWorld)
  /\ (exists w', anonymousType body emptyWorld = Throw (Error (js "abort")) w'
                 /\ indent w' = 1 /\ indent w' <> indent emptyWorld).
Proof.
  cbv zeta. repeat split; eexists; (split; [vm_compute; reflexivity |]);
    split; cbn; lia.
Qed.

(** C2 at the schema [Body] of the sample registry. *)
Lemma writeSchemaRef_expansion_set_witness :
  schemas sampleApi = Some sampleRegistry
  /\ sampleRegistry !! js "Body" = Some (objectOf [(js "a", schemaOfKind "string")])
  /\ (js "Body" ∉ seenSchemaRefs emptyWorld)
  /\ (exists w', writeSchemaRef 6 sampleApi (js "Body") emptyWorld = Normal tt w'
                 /\ seenSchemaRefs w' = seenSchemaRefs emptyWorld).
Proof.
  assert (H1 : schemas sampleApi = Some sampleRegistry) by reflexivity.
  assert (H2 : sampleRegistry !! js "Body"
               = Some (objectOf [(js "a", schemaOfKind "string")]))
    by (vm_compute; reflexivity).
  assert (H3 : js "Body" ∉ seenSchemaRefs emptyWorld)
    by apply not_elem_of_empty.
  split; [exact H1 | split; [exact H2 | split; [exact H3 |]]].
  destruct (writeSchemaRef_expansion_set 5 sampleApi sampleRegistry
              (js "Body") _ emptyWorld H1 H2 H3) as [_ Hafter].
  destruct (writeSchemaRef 6 sampleApi (js "Body") emptyWorld)
    as [[] w' | e w' |] eqn:Hrun.
  - exists w'. split; [reflexivity | exact Hafter].
  - vm_compute in Hrun. discriminate Hrun.
  - vm_compute in Hrun. discriminate Hrun.
Defined.

(** C2, the claim as stated fails: the target [Event] has a property of
    an unknown kind, the recursion throws, and the name stays in the set. *)
Lemma writeSchemaRef_expansion_set_counterexample :
  (js "Event" ∉ seenSchemaRefs emptyWorld)
  /\ exists w',
       writeSchemaRef 6 sampleApi (js "Event") emptyWorld
       = Throw (Error (js "Unknown scalar type date")) w'
       /\ (js "Event" ∈ seenSchemaRefs w')
       /\ seenSchemaRefs w' <> seenSchemaRefs emptyWorld.
Proof.
  assert (Hfresh : js "Event" ∉ seenSchemaRefs emptyWorld)
    by apply not_elem_of_empty.
  split; [exact Hfresh |].
  destruct (writeSchemaRef 6 sampleApi (js "Event") emptyWorld)
    as [[] w' | e w' |] eqn:Hrun.
  - vm_compute in Hrun. discriminate Hrun.
  - exists w'.
    assert (He : e = Error (js "Unknown scalar type date")).
    { vm_compute in Hrun. injection Hrun as He _. subst e.
      vm_compute. reflexivity. }
    subst e. split; [reflexivity |].
    destruct (writeSchemaRef_leaves_name 5 sampleApi sampleRegistry
                (js "Event") (objectOf [(js "when", schemaOfKind "date")])
                emptyWorld _ w' eq_refl ltac:(vm_compute; reflexivity)
                Hfresh Hrun) as [Hin _].
    split; [exact Hin |].
    intros Heq. rewrite Heq in Hin. exact (Hfresh Hin).
  - vm_compute in Hrun. discriminate Hrun.
Qed.

(** C4, the code at a resource without methods and nested resources: the
    empty interface is written, and no directive for the empty-interface
    rule before it.  [interface] has the flag that writes the directive and
    the schema interfaces pass it; [writeResources] does not. *)
Theorem bare_resource_interface_lacks_directive :
  writeResources sampleJoiner sampleHasPrefixI sampleResourceTypeName
    sampleSortObject sampleMatchesWord sampleMaxLineLength sampleBannedTypes
    [(js "foo", bareResource)] [] sampleRegistry (js "ns") emptyWorld
  = Normal [js "foo"]
      (mkWorld (unlines [js "interface FooResource {"; js "}"]) 0 ∅)
  /\ interface sampleHasPrefixI (js "FooResource") (ret tt) true emptyWorld
     = Normal tt
         (mkWorld (unlines [js "// tslint:disable-next-line:no-empty-interface";
                            js "interface FooResource {"; js "}"]) 0 ∅).
Proof. split; vm_compute; reflexivity. Qed.

(** C5 at the sample method. *)
Lemma request_body_overloads_witness :
  request sampleMethod ≫= target = Some (js "Body")
  /\ js "Body" <> []
  /\ assoc (js "resource") (requestParametersOf sampleSortObject [] sampleMethod)
     = None
  /\ getName (Some (js "get")) = Some (js "get")
  /\ getMethodReturn sampleMethod sampleRegistry = Ok (js "Request<{}>")
  /\ writeMethod sampleJoiner sampleSortObject sampleMatchesWord
       sampleMaxLineLength sampleBannedTypes
       [] sampleRegistry (js "get") sampleMethod emptyWorld
     = Normal tt
         (mkWorld
            (unlines [ js "get(request: {";
                       js "    a: string;";
                       js "    /** Request body */";
                       js "    resource: Body;";
                       js "}): Request<{}>;";
                       js "get(request: {";
                       js "    a: string;";
                       js "},";
                       js "body: Body): Request<{}>;" ]) 0 ∅).
Proof.
  assert (H1 : request sampleMethod ≫= target = Some (js "Body"))
    by reflexivity.
  assert (H2 : js "Body" <> []) by discriminate.
  assert (H3 : assoc (js "resource")
                 (requestParametersOf sampleSortObject [] sampleMethod) = None)
    by (vm_compute; reflexivity).
  assert (H4 : getName (Some (js "get")) = Some (js "get"))
    by (vm_compute; reflexivity).
  assert (H5 : getMethodReturn sampleMethod sampleRegistry
               = Ok (js "Request<{}>")) by (vm_compute; reflexivity).
  split; [exact H1 | split; [exact H2 | split; [exact H3 |
    split; [exact H4 | split; [exact H5 |]]]]].
  destruct (request_body_overloads sampleJoiner sampleSortObject
              sampleMatchesWord sampleMaxLineLength sampleBannedTypes
              [] sampleRegistry (js "get") sampleMethod
              (js "Body") (js "get") (js "Request<{}>") H1 H2 H3 H4 H5)
    as [_ Hwritten].
  rewrite Hwritten. vm_compute. reflexivity.
Defined.

(** C5, the claim as stated fails: in the one-argument overload the
    property [resource] is written as required, [resource: Body;]; written
    as optional it would read [resource?: Body;]. *)
Lemma request_body_overloads_counterexample :
  let written :=
    match writeMethod sampleJoiner sampleSortObject sampleMatchesWord
      sampleMaxLineLength sampleBannedTypes [] sampleRegistry (js "get") sampleMethod
            emptyWorld with
    | Normal _ w' => splitLines (output w')
    | _ => []
    end in
  In (js "    resource: Body;") written
  /\ ~ In (js "    resource?: Body;") written
  /\ property sampleMatchesWord sampleBannedTypes (js "resource")
       (Flat (js "Body")) false (mkWorld [] 1 ∅)
     = Normal tt (mkWorld (unlines [js "    resource?: Body;"]) 1 ∅).
Proof.
  cbv zeta. split; [| split].
  - in_literals.
  - not_in_literals.
  - vm_compute. reflexivity.
Qed.

(** C6 at the kinds [integer], [date], [constructor] and [__proto__]. *)
Lemma scalar_rendering_witness :
  type (schemaOfKind "integer") = Some (js "integer")
  /\ getType sampleJoiner sampleMatchesWord sampleMaxLineLength
       sampleBannedTypes (schemaOfKind "integer") sampleRegistry
     = Ok (Flat (js "number"))
  /\ type (schemaOfKind "date") = Some (js "date")
  /\ getType sampleJoiner sampleMatchesWord sampleMaxLineLength
       sampleBannedTypes (schemaOfKind "date") sampleRegistry
     = Ok (Flat (js "date"))
  /\ writePropertyValue 1 sampleApi (schemaOfKind "date") emptyWorld
     = Throw (Error (js "Unknown scalar type date")) emptyWorld
  /\ type (schemaOfKind "constructor") = Some (js "constructor")
  /\ getType sampleJoiner sampleMatchesWord sampleMaxLineLength
       sampleBannedTypes (schemaOfKind "constructor") sampleRegistry
     = Ok (Nested (lift (callBuiltin (js "Object"))))
  /\ type (schemaOfKind "__proto__") = Some (js "__proto__")
  /\ getType sampleJoiner sampleMatchesWord sampleMaxLineLength
       sampleBannedTypes (schemaOfKind "__proto__") sampleRegistry
     = Ok Neither.
Proof.
  assert (H1 : type (schemaOfKind "integer") = Some (js "integer"))
    by reflexivity.
  assert (H2 : type (schemaOfKind "date") = Some (js "date")) by reflexivity.
  assert (H3 : type (schemaOfKind "constructor") = Some (js "constructor"))
    by reflexivity.
  assert (H4 : type (schemaOfKind "__proto__") = Some (js "__proto__"))
    by reflexivity.
  pose proof (scalar_rendering sampleJoiner sampleMatchesWord
                sampleMaxLineLength sampleBannedTypes
                (schemaOfKind "integer") sampleRegistry (js "integer") H1)
    as (Htable & _ & _).
  pose proof (scalar_rendering sampleJoiner sampleMatchesWord
                sampleMaxLineLength sampleBannedTypes
                (schemaOfKind "date") sampleRegistry (js "date") H2)
    as (_ & Hdate & Hstub).
  pose proof (scalar_rendering sampleJoiner sampleMatchesWord
                sampleMaxLineLength sampleBannedTypes
                (schemaOfKind "constructor") sampleRegistry
                (js "constructor") H3)
    as (_ & Hconstructor & _).
  pose proof (scalar_rendering sampleJoiner sampleMatchesWord
                sampleMaxLineLength sampleBannedTypes
                (schemaOfKind "__proto__") sampleRegistry (js "__proto__") H4)
    as (_ & Hproto & _).
  repeat match goal with |- _ /\ _ => split end;
    try assumption.
  - apply (Htable (js "number")). in_literals.
  - rewrite Hdate;
      [reflexivity | not_in_literals | discriminate ..].
  - apply (Hstub ltac:(not_in_literals) O sampleApi emptyWorld).
  - rewrite Hconstructor;
      [reflexivity | not_in_literals | discriminate ..].
  - rewrite Hproto;
      [reflexivity | not_in_literals | discriminate ..].
Defined.

(** C6, the claim as stated fails: a kind outside the five raises no error
    in the type translator. *)
Lemma scalar_rendering_counterexample :
  ~ In (js "date") (List.map fst scalarTokens)
  /\ getType sampleJoiner sampleMatchesWord sampleMaxLineLength
       sampleBannedTypes (schemaOfKind "date") sampleRegistry
     = Ok (Flat (js "date")).
Proof.
  split.
  - not_in_literals.
  - vm_compute. reflexivity.
Qed.

(** C7 at the sample method, whose response refers to [Missing], and at
    the name [constructor], which the sample registry lacks as well. *)
Lemma unresolvable_reference_witness :
  sampleRegistry !! js "Missing" = None
  /\ getMethodReturn sampleMethod sampleRegistry = Ok (js "Request<{}>")
  /\ getType sampleJoiner sampleMatchesWord sampleMaxLineLength
       sampleBannedTypes (referenceTo "Missing") sampleRegistry
     = Raise TypeError
  /\ writeSchemaRef 1 sampleApi (js "Missing") emptyWorld
     = Throw (Error (js "Attempted to generate stub for unknown schema "
                     ++ js "'Missing'")) emptyWorld
  /\ sampleRegistry !! js "constructor" = None
  /\ getType sampleJoiner sampleMatchesWord sampleMaxLineLength
       sampleBannedTypes (referenceTo "constructor") sampleRegistry
     = Ok (Flat (js "any"))
  /\ writeSchemaRef 3 sampleApi (js "constructor") emptyWorld
     = Throw (Error (js "Unknown scalar type undefined"))
         (mkWorld [] 0 {[js "constructor"]}).
Proof.
  assert (H1 : sampleRegistry !! js "Missing" = None)
    by (vm_compute; reflexivity).
  assert (H2 : sampleRegistry !! js "constructor" = None)
    by (vm_compute; reflexivity).
  pose proof (unresolvable_reference sampleJoiner sampleMatchesWord
                sampleMaxLineLength sampleBannedTypes sampleRegistry
                (js "Missing") H1) as (Hreturn & Htype & Hstub).
  pose proof (unresolvable_reference sampleJoiner sampleMatchesWord
                sampleMaxLineLength sampleBannedTypes sampleRegistry
                (js "constructor") H2) as (_ & Hany & Hmember).
  repeat match goal with |- _ /\ _ => split end.
  - exact H1.
  - exact (Hreturn sampleMethod (mkSchemaRef (Some (js "Missing")))
             eq_refl eq_refl).
  - apply Htype. repeat split.
  - apply (Hstub O sampleApi emptyWorld eq_refl). apply not_elem_of_empty.
  - exact H2.
  - apply Hany. repeat split.
  - rewrite (Hmember O sampleApi emptyWorld eq_refl (not_elem_of_empty _)).
    unfold setSeen. cbn [output indent seenSchemaRefs emptyWorld].
    rewrite union_empty_r_L. reflexivity.
Defined.

(** C7, the claim as stated fails: the response of the sample method
    refers to [Missing], which the registry lacks; the walker completes
    and the return type is the wrapper over the empty-object type. *)
Lemma unresolvable_reference_counterexample :
  (response sampleMethod ≫= target) = Some (js "Missing")
  /\ sampleRegistry !! js "Missing" = None
  /\ getMethodReturn sampleMethod sampleRegistry = Ok (js "Request<{}>")
  /\ writeResources sampleJoiner sampleHasPrefixI sampleResourceTypeName
       sampleSortObject sampleMatchesWord sampleMaxLineLength
       sampleBannedTypes
       [(js "res", sampleResource)] [] sampleRegistry (js "ns") emptyWorld
     = Normal [js "res"]
         (mkWorld
            (unlines [ js "interface ResResource {";
                       js "    get(request: {";
                       js "        a: string;";
                       js "        /** Request body */";
                       js "        resource: Body;";
                       js "    }): Request<{}>;";
                       js "    get(request: {";
                       js "        a: string;";
                       js "    },";
                       js "    body: Body): Request<{}>;";
                       js "}" ]) 0 ∅).
Proof. repeat split; vm_compute; reflexivity. Qed.

(** C8 at an array of strings and at an array of that array. *)
Lemma array_rendering_witness :
  type (arrayOf (schemaOfKind "string")) = Some (js "array")
  /\ items (arrayOf (schemaOfKind "string")) = Some (schemaOfKind "string")
  /\ getType sampleJoiner sampleMatchesWord sampleMaxLineLength
       sampleBannedTypes (arrayOf (schemaOfKind "string")) sampleRegistry
     = Ok (Flat (js "string[]"))
  /\ getType sampleJoiner sampleMatchesWord sampleMaxLineLength
       sampleBannedTypes (arrayOf (arrayOf (schemaOfKind "string")))
       sampleRegistry
     = Ok (Flat (js "string[][]")).
Proof.
  assert (H1 : type (arrayOf (schemaOfKind "string")) = Some (js "array"))
    by reflexivity.
  assert (H2 : items (arrayOf (schemaOfKind "string"))
               = Some (schemaOfKind "string")) by reflexivity.
  destruct (array_rendering sampleJoiner sampleMatchesWord
              sampleMaxLineLength sampleBannedTypes
              (arrayOf (schemaOfKind "string")) (schemaOfKind "string")
              sampleRegistry H1 H2) as (Hone & Htwo & _).
  split; [exact H1 | split; [exact H2 | split]].
  - rewrite Hone. reflexivity.
  - rewrite (Htwo (arrayOf (arrayOf (schemaOfKind "string"))) eq_refl eq_refl).
    reflexivity.
Defined.

(** C8, the claim as stated fails: a node of kind [__proto__] renders as
    neither a token nor a callback, and an array of it as the bare suffix,
    which is the suffixed form of no token. *)
Lemma array_rendering_counterexample :
  type (arrayOf (schemaOfKind "__proto__")) = Some (js "array")
  /\ items (arrayOf (schemaOfKind "__proto__"))
     = Some (schemaOfKind "__proto__")
  /\ getType sampleJoiner sampleMatchesWord sampleMaxLineLength
       sampleBannedTypes (schemaOfKind "__proto__") sampleRegistry
     = Ok Neither
  /\ getType sampleJoiner sampleMatchesWord sampleMaxLineLength
       sampleBannedTypes (arrayOf (schemaOfKind "__proto__")) sampleRegistry
     = Ok (Flat (js "[]"))
  /\ getType sampleJoiner sampleMatchesWord sampleMaxLineLength
       sampleBannedTypes (arrayOf (arrayOf (schemaOfKind "__proto__")))
       sampleRegistry
     = Ok (Flat (js "[][]"))
  /\ getType sampleJoiner sampleMatchesWord sampleMaxLineLength
       sampleBannedTypes (arrayOf (schemaOfKind "__proto__")) sampleRegistry
     <> Ok (Flat (js "__proto__[]")).
Proof.
  repeat match goal with |- _ /\ _ => split end;
    try (vm_compute; reflexivity).
  vm_compute. discriminate.
Qed.

(** C9 at a comment with a long link, for lines of thirty columns. *)
Lemma comment_width_markers_witness :
  0 <= indent emptyWorld
  /\ trim sampleCommentText <> []
  /\ In sampleLongWord (commentWords sampleJoiner sampleCommentText)
  /\ strlen sampleLongWord > commentBudget 30 (indent emptyWorld)
  /\ comment sampleJoiner 30 sampleCommentText emptyWorld
     = Normal tt
         (mkWorld
            (unlines [ js "// tslint:disable:max-line-length";
                       js "/**";
                       js " * see";
                       js " * " ++ sampleLongWord;
                       js " * first";
                       js " */";
                       js "// tslint:enable:max-line-length" ]) 0 ∅).
Proof.
  assert (H0 : 0 <= indent emptyWorld) by (cbn; lia).
  assert (H1 : trim sampleCommentText <> [])
    by (vm_compute; discriminate).
  assert (H2 : In sampleLongWord (commentWords sampleJoiner sampleCommentText))
    by in_literals.
  assert (H3 : strlen sampleLongWord > commentBudget 30 (indent emptyWorld))
    by (vm_compute; reflexivity).
  split; [exact H0 | split; [exact H1 | split; [exact H2 | split; [exact H3 |]]]].
  destruct (comment_width_markers sampleJoiner 30 sampleCommentText emptyWorld
              H0 H1) as [Hlong _].
  destruct (Hlong sampleLongWord H2 H3) as [Hrun _].
  rewrite Hrun. vm_compute. reflexivity.
Defined.

(** C9, the claim as stated fails: no word of either text is longer than
    the budget of 23, and both comments are written between the markers.
    Tabs do not separate the pieces of the wrapping loop, and the escaping
    of the end-of-comment sequence makes a word of 23 one of 24. *)
Lemma comment_width_markers_counterexample :
  commentBudget 30 (indent emptyWorld) = 23
  /\ textWords sampleTabbedText
     = [js "aaaa"; js "bbbb"; js "cccc"; js "dddd"; js "eeee"; js "ffff"]
  /\ Forall (fun word => strlen word <= 23) (textWords sampleTabbedText)
  /\ comment sampleJoiner 30 sampleTabbedText emptyWorld
     = Normal tt
         (mkWorld
            (unlines [ js "// tslint:disable:max-line-length";
                       js "/**";
                       js " *";
                       js " * " ++ sampleTabbedText;
                       js " */";
                       js "// tslint:enable:max-line-length" ]) 0 ∅)
  /\ textWords sampleClosingText = [js "aaaaaaaaaaaaaaaaaaaaa*/"; js "bbb"]
  /\ Forall (fun word => strlen word <= 23) (textWords sampleClosingText)
  /\ comment sampleJoiner 30 sampleClosingText emptyWorld
     = Normal tt
         (mkWorld
            (unlines [ js "// tslint:disable:max-line-length";
                       js "/**";
                       js " *";
                       js " * aaaaaaaaaaaaaaaaaaaaa*" ++ sampleJoiner ++ js "/";
                       js " * bbb";
                       js " */";
                       js "// tslint:enable:max-line-length" ]) 0 ∅).
Proof.
  repeat match goal with |- _ /\ _ => split end;
    try (vm_compute; reflexivity);
    repeat constructor; vm_compute; discriminate.
Qed.

(** C10 at the sample registry, which has no [Request], and with one. *)
Lemma method_return_wrapper_witness :
  getMethodReturn sampleMethod sampleRegistry = Ok (js "Request<{}>")
  /\ requestWrapperName (<[js "Request" := objectOf []]> sampleRegistry)
     = js "client.Request".
Proof.
  split.
  - destruct (method_return_wrapper sampleMethod sampleRegistry)
      as (_ & _ & Hreturn).
    cbn [response sampleMethod target] in Hreturn. rewrite Hreturn.
    vm_compute. reflexivity.
  - apply (method_return_wrapper sampleMethod
             (<[js "Request" := objectOf []]> sampleRegistry)).
    rewrite lookup_insert_eq. eauto.
Defined.

(** * The further properties under the sample configuration *)

(** X2 at a shared parameter that the method overrides. *)
Lemma spread_lookup_witness :
  List.NoDup (List.map fst [(js "alt", 1%nat); (js "key", 2%nat)])
  /\ List.NoDup (List.map fst [(js "key", 3%nat)])
  /\ assoc (js "key")
       (spread [(js "alt", 1%nat); (js "key", 2%nat)] [(js "key", 3%nat)])
     = Some 3%nat.
Proof.
  assert (H1 : List.NoDup (List.map fst [(js "alt", 1%nat); (js "key", 2%nat)])).
  { constructor; [not_in_literals |].
    constructor; [not_in_literals | constructor]. }
  assert (H2 : List.NoDup (List.map fst [(js "key", 3%nat)])).
  { constructor; [not_in_literals | constructor]. }
  split; [exact H1 | split; [exact H2 |]].
  rewrite (spread_lookup _ _ (js "key") H1 H2). reflexivity.
Defined.

(** X4 at the comment with a long link: the link is a line of its own. *)
Lemma comment_line_width_witness :
  In sampleLongWord (commentLines 30 sampleCommentText)
  /\ (strlen sampleLongWord <= 30
      \/ sampleLongWord = []
      \/ exists word,
           In word (concat (List.map (splitChar 32)
                              (splitLines (trim sampleCommentText))))
           /\ sampleLongWord = normaliseSpaces (trim word)).
Proof.
  assert (H : In sampleLongWord (commentLines 30 sampleCommentText))
    by in_literals.
  split; [exact H |].
  exact (comment_line_width 30 sampleCommentText sampleLongWord H).
Defined.

(** X5 at the comment with a long link. *)
Lemma comment_appends_lines_witness :
  0 <= indent emptyWorld
  /\ writtenLines sampleJoiner 30 (indent emptyWorld) sampleCommentText
     = [ js "// tslint:disable:max-line-length";
         js "/**";
         js " * see";
         js " * " ++ sampleLongWord;
         js " * first";
         js " */";
         js "// tslint:enable:max-line-length" ]
  /\ comment sampleJoiner 30 sampleCommentText emptyWorld
     = Normal tt
         (setOutput
            (output emptyWorld
             ++ concat (List.map
                          (fun l => indentOf emptyWorld ++ l ++ newLine)
                          (writtenLines sampleJoiner 30 (indent emptyWorld)
                             sampleCommentText)))
            emptyWorld)
  /\ Forall (fun l => includesChar 10 l = false)
       (writtenLines sampleJoiner 30 (indent emptyWorld) sampleCommentText).
Proof.
  assert (H : 0 <= indent emptyWorld) by (cbn; lia).
  split; [exact H |].
  split; [vm_compute; reflexivity |].
  exact (comment_appends_lines sampleJoiner 30 sampleCommentText emptyWorld H).
Defined.

(** X6 at a text that holds the end-of-comment sequence. *)
Lemma comment_lines_never_close_witness :
  sampleJoiner <> []
  /\ Forall (fun c => c <> 42%N /\ c <> 47%N) sampleJoiner
  /\ In (js "a *" ++ sampleJoiner ++ js "/ b")
       (commentLines 30 (escapeComment sampleJoiner (js "a */ b")))
  /\ hasCommentEnd (js "a */ b") = true
  /\ hasCommentEnd (js "a *" ++ sampleJoiner ++ js "/ b") = false.
Proof.
  assert (H1 : sampleJoiner <> []) by discriminate.
  assert (H2 : Forall (fun c => c <> 42%N /\ c <> 47%N) sampleJoiner)
    by (repeat constructor; discriminate).
  assert (H3 : In (js "a *" ++ sampleJoiner ++ js "/ b")
                 (commentLines 30 (escapeComment sampleJoiner (js "a */ b"))))
    by in_literals.
  split; [exact H1 | split; [exact H2 | split; [exact H3 | split]]].
  - reflexivity.
  - exact (comment_lines_never_close sampleJoiner 30 (js "a */ b") _ H1 H2 H3).
Defined.

(** X7 at a signature with a required and an optional parameter, on one
    line and on several. *)
Lemma method_signature_text_witness :
  0 <= indent emptyWorld
  /\ Forall (plainParameter sampleMatchesWord sampleBannedTypes)
       [ mkMethodParameter (js "id") (Flat (js "string")) true;
         mkMethodParameter (js "max") (Flat (js "number")) false ]
  /\ includesBannedType sampleMatchesWord sampleBannedTypes (js "void") = false
  /\ method sampleMatchesWord sampleBannedTypes (js "get")
       [ mkMethodParameter (js "id") (Flat (js "string")) true;
         mkMethodParameter (js "max") (Flat (js "number")) false ]
       (js "void") true emptyWorld
     = Normal tt
         (mkWorld (js "get(id: string, max?: number): void;" ++ newLine) 0 ∅)
  /\ method sampleMatchesWord sampleBannedTypes (js "get")
       [ mkMethodParameter (js "id") (Flat (js "string")) true;
         mkMethodParameter (js "max") (Flat (js "number")) false ]
       (js "void") false emptyWorld
     = Normal tt
         (mkWorld (js "get(id: string," ++ newLine
                   ++ js "max?: number): void;" ++ newLine) 0 ∅).
Proof.
  assert (H0 : 0 <= indent emptyWorld) by (cbn; lia).
  assert (H1 : Forall (plainParameter sampleMatchesWord sampleBannedTypes)
                 [ mkMethodParameter (js "id") (Flat (js "string")) true;
                   mkMethodParameter (js "max") (Flat (js "number")) false ])
    by (repeat constructor).
  assert (H2 : includesBannedType sampleMatchesWord sampleBannedTypes
                 (js "void") = false) by reflexivity.
  split; [exact H0 | split; [exact H1 | split; [exact H2 | split]]].
  - rewrite (method_signature_text sampleMatchesWord sampleBannedTypes
               (js "get") _ (js "void") true emptyWorld H0 H1 H2).
    reflexivity.
  - rewrite (method_signature_text sampleMatchesWord sampleBannedTypes
               (js "get") _ (js "void") false emptyWorld H0 H1 H2).
    reflexivity.
Defined.

(** X8 at the schema [{type: 'object'}]. *)
Lemma bare_object_never_settles_witness :
  bareObject (schemaOfKind "object") = true
  /\ writePropertyValue 1000 sampleApi (schemaOfKind "object") emptyWorld
     = Unfinished
  /\ writeObject 1000 sampleApi (schemaOfKind "object") emptyWorld
     = Unfinished.
Proof.
  assert (H : bareObject (schemaOfKind "object") = true) by reflexivity.
  split; [exact H |].
  exact (bare_object_never_settles 1000 sampleApi (schemaOfKind "object")
           emptyWorld H).
Defined.

(** X9 at a schema that refers to itself. *)
Lemma stub_generator_settles_witness :
  (forall name schema,
     registryOf cyclicApi !! name = Some schema -> noBareObject schema = true)
  /\ exists fuel, forall extra name w,
       match writeSchemaRef (extra + fuel) cyclicApi name w with
       | Normal _ w' => seenSchemaRefs w' = seenSchemaRefs w
       | Throw _ _ => True
       | Unfinished => False
       end.
Proof.
  assert (H : forall name schema,
            registryOf cyclicApi !! name = Some schema ->
            noBareObject schema = true).
  { intros name schema Hlookup.
    change ((<[js "Node" := objectOf [(js "next", referenceTo "Node")]]>
               (∅ : gmap jsstring JsonSchema)) !! name = Some schema)
      in Hlookup.
    apply lookup_insert_Some in Hlookup as [[_ <-] | [_ Hlookup]].
    - reflexivity.
    - now rewrite lookup_empty in Hlookup. }
  split; [exact H |].
  exact (stub_generator_settles cyclicApi H).
Defined.

(** X11 at two resources without members, given in descending order. *)
Lemma writeResources_names_witness :
  exists w',
    writeResources sampleJoiner sampleHasPrefixI sampleResourceTypeName
      sampleSortObject sampleMatchesWord sampleMaxLineLength sampleBannedTypes
      [(js "zoo", bareResource); (js "ant", bareResource)] [] sampleRegistry
      (js "ns") emptyWorld
    = Normal [js "ant"; js "zoo"] w'
    /\ ascending [js "ant"; js "zoo"] = true
    /\ List.NoDup [js "ant"; js "zoo"]
    /\ forall name, In name [js "ant"; js "zoo"] ->
         In name (List.map fst [(js "zoo", bareResource);
                                (js "ant", bareResource)]).
Proof.
  destruct (writeResources sampleJoiner sampleHasPrefixI sampleResourceTypeName
              sampleSortObject sampleMatchesWord sampleMaxLineLength
              sampleBannedTypes
              [(js "zoo", bareResource); (js "ant", bareResource)] []
              sampleRegistry (js "ns") emptyWorld)
    as [names w' | e w' |] eqn:Hrun;
    [| vm_compute in Hrun; discriminate Hrun
     | vm_compute in Hrun; discriminate Hrun].
  assert (Hnames : names = [js "ant"; js "zoo"]).
  { vm_compute in Hrun. injection Hrun as <- _. reflexivity. }
  subst names. exists w'. split; [reflexivity |].
  exact (writeResources_names sampleJoiner sampleHasPrefixI
           sampleResourceTypeName sampleSortObject sampleMatchesWord
           sampleMaxLineLength sampleBannedTypes _ _ _ _ _ _ _ Hrun).
Defined.

(** X12 at a resource whose only method is of another namespace: the
    method of the nested resource is of the namespace, and is not
    tested. *)
Lemma tests_need_a_method_witness :
  Forall (outsideTests (js "ns")) (default [] (methods foreignParent))
  /\ methodsOfNamespace (js "ns") (default [] (methods sampleResource))
     = Ok [(js "get", sampleMethod)]
  /\ writeResourceTests sampleJoiner sampleMaxLineLength 10 sampleApi
       (js "gapi.client.ns") (js "parent") foreignParent (js "ns") emptyWorld
     = Normal tt emptyWorld.
Proof.
  assert (H : Forall (outsideTests (js "ns"))
                (default [] (methods foreignParent))).
  { constructor; [| constructor].
    exists (js "other.res.list"). split; reflexivity. }
  split; [exact H | split; [reflexivity |]].
  exact (tests_need_a_method sampleJoiner sampleMaxLineLength 10 sampleApi
           (js "gapi.client.ns") (js "parent") foreignParent (js "ns")
           emptyWorld H).
Defined.

(** X13 at a text that holds a tag. *)
Lemma comment_lines_hold_no_tag_witness :
  Forall (fun c => c <> 64%N) sampleJoiner
  /\ (exists c rest,
        sampleJoiner = c :: rest /\ c <> 99%N /\ c <> 116%N /\ c <> 112%N)
  /\ In (js "the @" ++ sampleJoiner ++ js "typedef of it")
       (commentLines 30 (escapeComment sampleJoiner (js "the @typedef of it")))
  /\ hasJsdocTag (js "the @typedef of it") = true
  /\ hasJsdocTag (js "the @" ++ sampleJoiner ++ js "typedef of it") = false.
Proof.
  assert (H1 : Forall (fun c => c <> 64%N) sampleJoiner)
    by (repeat constructor; discriminate).
  assert (H2 : exists c rest,
            sampleJoiner = c :: rest /\ c <> 99%N /\ c <> 116%N /\ c <> 112%N).
  { exists 8205%N, []. repeat split; discriminate. }
  assert (H3 : In (js "the @" ++ sampleJoiner ++ js "typedef of it")
                 (commentLines 30
                    (escapeComment sampleJoiner (js "the @typedef of it"))))
    by in_literals.
  split; [exact H1 | split; [exact H2 | split; [exact H3 | split]]].
  - reflexivity.
  - exact (comment_lines_hold_no_tag sampleJoiner 30 (js "the @typedef of it")
             _ H1 H2 H3).
Defined.

(** X16 at the sample method, whose id is [ns.res.get]. *)
Lemma kept_methods_are_tested_witness :
  methodsOfNamespace (js "ns") [(js "get", sampleMethod)]
  = Ok [(js "get", sampleMethod)]
  /\ In (js "get", sampleMethod) [(js "get", sampleMethod)]
  /\ exists methodId,
       id sampleMethod = Some methodId
       /\ (startsWith (js "gapi.client.") methodId = false ->
           startsWith (js "ns") (removePrefix (js "gapi.client.") methodId)
           = true).
Proof.
  assert (H1 : methodsOfNamespace (js "ns") [(js "get", sampleMethod)]
               = Ok [(js "get", sampleMethod)]) by reflexivity.
  assert (H2 : In (js "get", sampleMethod) [(js "get", sampleMethod)])
    by (left; reflexivity).
  split; [exact H1 | split; [exact H2 |]].
  exact (proj2 (kept_methods_are_tested (js "ns") _ _ H1 _ H2)).
Defined.

(** X17 at a name with a dash. *)
Lemma formatPropertyName_keeps_names_apart_witness :
  formatPropertyName (js "page-token") = formatPropertyName (js "page-token")
  /\ formatPropertyName (js "page-token")
     = doubleQuote ++ js "page-token" ++ doubleQuote
  /\ js "page-token" = js "page-token".
Proof.
  assert (H : formatPropertyName (js "page-token")
              = formatPropertyName (js "page-token")) by reflexivity.
  split; [exact H | split; [reflexivity |]].
  exact (formatPropertyName_keeps_names_apart _ _ H).
Defined.

(** X18 at a fetched revision newer than any, with no revision found in
    the file. *)
Lemma unreadable_revision_is_passed_over_witness :
  truthy (Some (js "20991231")) = true
  /\ unreadable None = true
  /\ revisionGate sampleToNumber true true (Some (js "20991231")) None
     = LocalIsNewer.
Proof.
  assert (H1 : truthy (Some (js "20991231")) = true) by reflexivity.
  assert (H2 : unreadable None = true) by reflexivity.
  split; [exact H1 | split; [exact H2 |]].
  rewrite (unreadable_revision_is_passed_over sampleToNumber
             (Some (js "20991231")) None H1 H2).
  reflexivity.
Defined.
